(** * Chaos codec: a shallow embedding of Chaos_Theory_Based_Compression.ipynb

    The notebook is one cell of numpy code.  Its arrays are lists of binary64
    floats ([PrimFloat.float], the kernel's IEEE 754 double, round to nearest
    even, which is numpy's float64), its int16 array is a list of [Z], and the
    narrower formats float32 and float16 are [spec_float] values of the
    Standard Library's parameterised specification (precision 24 and 11).

    What the notebook calls but does not define is a parameter of the
    development: the least-squares fit of scikit-learn, the scalar power
    [** 2] (libm's pow), pickle, zlib, and the integer a C cast gives for a
    NaN. *)

From Stdlib Require Import ZArith Lia Floats QArith Qabs.
From Stdlib.Strings Require Import Byte.
From stdpp Require Import base option list.

Open Scope Z_scope.

(** ** numpy views of a one-dimensional array *)

Section Views.
Context {A : Type}.

(** [a[:-2]] *)
Definition all_but_last2 (a : list A) : list A := take (length a - 2) a.

(** [a[1:-1]] *)
Definition inner (a : list A) : list A := take (length a - 2) (drop 1 a).

(** [a[2:]] *)
Definition from2 (a : list A) : list A := drop 2 a.

(** [a[::-1]] *)
Definition mirrored (a : list A) : list A := reverse a.

(** [a[-k]] for a Python list, [1 <= k]: IndexError when [len(a) < k]. *)
Definition from_end (a : list A) (k : nat) : option A :=
  if decide (k ≤ length a)%nat then a !! (length a - k)%nat else None.

(** The rows of [np.vstack(stacked).T]: the i-th row collects the i-th entry
    of every stacked array (all the stacked arrays have one length here). *)
Fixpoint transposed (stacked : list (list A)) : list (list A) :=
  match stacked with
  | [] => []
  | [c] => (λ a, [a]) <$> c
  | c :: rest => zip_with cons c (transposed rest)
  end.
End Views.

(** A two-dimensional float64 array of shape [(length rows, n_features)]; the
    width is part of the array, also when it has no row. *)
Record matrix := Matrix {
  n_features : nat;
  rows : list (list float)
}.

(** [np.vstack(stacked).T] *)
Definition vstack_T (stacked : list (list float)) : matrix :=
  Matrix (length stacked) (transposed stacked).

(** ** Floating point formats *)

(** A float32 (precision 24, emax 128) or float16 (precision 11, emax 16)
    value, as the Standard Library specifies IEEE 754 numbers. *)
Abbreviation float32 := spec_float (only parsing).
Abbreviation float16 := spec_float (only parsing).

(** Rounding a float64 to a narrower binary format (nearest, ties to even;
    overflow gives an infinity). *)
Definition narrow (prec' emax' : Z) (x : float) : spec_float :=
  match Prim2SF x with
  | S754_finite s m e => binary_round prec' emax' s m e
  | other => other
  end.

(** [np.float32(x)] and [np.float16(x)] of a float64 [x]. *)
Definition to_float32 : float -> float32 := narrow 24 128.
Definition to_float16 : float -> float16 := narrow 11 16.

(** An int16 as float32: [astype(np.float32)], exact. *)
Definition int16_to_float32 (q : Z) : float32 := binary_normalize 24 128 q 0 false.

(** A float32 widened to float64 (exact). *)
Definition float32_to_float64 (f : float32) : float :=
  SF2Prim match f with
          | S754_finite s m e => binary_round prec emax s m e
          | other => other
          end.

(** Division of two float32 values. *)
Definition div32 : float32 -> float32 -> float32 := SFdiv 24 128.

(** [np.isfinite]. *)
Definition np_isfinite (x : float) : bool :=
  match Prim2SF x with
  | S754_zero _ | S754_finite _ _ _ => true
  | S754_infinity _ | S754_nan => false
  end.

(** The exact value of a double, counted in units of [2^-1074] (every finite
    double is a whole number of them; 0 for an infinity or NaN), and as a
    rational. *)
Definition ticks (x : float) : Z :=
  match Prim2SF x with
  | S754_finite s m e => cond_Zopp s (Z.pos m * 2 ^ (e + 1074))
  | _ => 0
  end.

Definition value (x : float) : Q := ticks x # 2 ^ 1074.

(** Where the integer quotient [A / c] leaves the exact quotient of [A] by
    [c]: on it, or below, at or above the middle of the two integers around
    it. *)
Definition located (A c : Z) (l : location) : Prop :=
  match l with
  | loc_Exact => A mod c = 0
  | loc_Inexact Lt => 0 < 2 * (A mod c) < c
  | loc_Inexact Eq => 2 * (A mod c) = c
  | loc_Inexact Gt => c < 2 * (A mod c)
  end.

(** The exact value of a float32 or float16, counted in units of [2^-1074]
    (0 for an infinity or NaN), and as a rational. *)
Definition narrow_ticks (f : spec_float) : Z :=
  match f with
  | S754_finite s m e => cond_Zopp s (Z.pos m * 2 ^ (e + 1074))
  | _ => 0
  end.

Definition narrow_value (f : spec_float) : Q := narrow_ticks f # 2 ^ 1074.

(** Whether a float32 or float16 is a number (a zero or finite). *)
Definition narrow_isfinite (f : spec_float) : bool :=
  match f with
  | S754_zero _ | S754_finite _ _ _ => true
  | S754_infinity _ | S754_nan => false
  end.

(** ** Rounding, clipping and the cast to int16 *)

(** The nearest integer to [n / d] ([0 < d]), a tie going to the even one. *)
Definition round_half_even (n d : Z) : Z :=
  let q := n / d in
  match 2 * (n mod d) ?= d with
  | Lt => q
  | Gt => q + 1
  | Eq => if Z.even q then q else q + 1
  end.

(** What [np.round] returns on float64: an integer-valued double (kept as the
    integer it is), an infinity or NaN. *)
Inductive integral :=
  | Inan
  | Iinf (negative : bool)
  | Iint (n : Z).

(** [np.round(x)] ([np.rint]: nearest integer, ties to even).  A finite double
    is [(-1)^s * m * 2^e]. *)
Definition np_round (x : float) : integral :=
  match Prim2SF x with
  | S754_nan => Inan
  | S754_infinity s => Iinf s
  | S754_zero _ => Iint 0
  | S754_finite s m e =>
      Iint (if 0 <=? e then cond_Zopp s (Z.pos m * 2 ^ e)
            else round_half_even (cond_Zopp s (Z.pos m)) (2 ^ (- e)))
  end.

(** [np.clip(r, a_min, a_max)] is [minimum(maximum(r, a_min), a_max)]; NaN
    stays NaN. *)
Definition np_clip (r : integral) (a_min a_max : Z) : integral :=
  match r with
  | Inan => Inan
  | Iinf true => Iint (Z.min a_min a_max)
  | Iinf false => Iint a_max
  | Iint n => Iint (Z.min (Z.max n a_min) a_max)
  end.

(** Two's complement wrap of an integer into int16. *)
Definition wrap_int16 (z : Z) : Z := (z + 32768) mod 65536 - 32768.

(** What the spec calls [clamp(x, lo, hi)]. *)
Definition clamp (x lo hi : Z) : Z :=
  if x <? lo then lo else if hi <? x then hi else x.

(** ** Models *)

(** A fitted [LinearRegression]: [coef_] and [intercept_]. *)
Record linear_model := LinearModel {
  coef_ : list float;
  intercept_ : float
}.

(** [a, b, c = coef_] and [a, b = coef_]: ValueError on another length. *)
Definition unpack3 (l : list float) : option (float * float * float) :=
  match l with
  | [a; b; c] => Some (a, b, c)
  | _ => None
  end.

Definition unpack2 (l : list float) : option (float * float) :=
  match l with
  | [a; b] => Some (a, b)
  | _ => None
  end.

(** A stand-in regression for running the pipeline on examples: it validates
    its input the way scikit-learn does (no rows, or a non-finite entry, is a
    ValueError) and returns fixed coefficients of the right width. *)
Definition validating_fit (X : matrix) (y : list float) : option linear_model :=
  match rows X with
  | [] => None
  | _ :: _ =>
      if forallb (forallb np_isfinite) (rows X) && forallb np_isfinite y
      then Some (LinearModel (replicate (n_features X) 0.5%float) 0.25%float)
      else None
  end.

(** [x] is an entry of the training set [(X, y)]. *)
Definition in_training_set (x : float) (X : matrix) (y : list float) : Prop :=
  (∃ row, row ∈ rows X ∧ x ∈ row) ∨ x ∈ y.

(** A regression that validates its input as scikit-learn's does: a training
    set with no row, or with a non-finite entry, is refused. *)
Definition validates (fit : matrix → list float → option linear_model) : Prop :=
  ∀ X y,
    (rows X = [] ∨ ∃ x, in_training_set x X y ∧ np_isfinite x = false) →
    fit X y = None.

(** A stand-in regression that returns one fixed coefficient per feature.  It
    checks nothing, so it stands for scikit-learn's fit only on a training set
    that fit accepts (at least one row, every entry finite). *)
Definition permissive_fit (X : matrix) (y : list float) : option linear_model :=
  Some (LinearModel (take (n_features X) [0.5%float; 0.25%float; 0.125%float]) 0.25%float).

(** Stand-ins for the other capabilities: the square by one multiplication,
    the bytes of the int16 and float16 entries (little endian, no header) for
    pickle, and a compressor that stores its input. *)
Definition square (x : float) : float := (x * x)%float.

Definition byte_of_Z (z : Z) : Byte.byte :=
  default Byte.x00 (Byte.of_N (Z.to_N (z mod 256))).

Definition two_bytes (z : Z) : list Byte.byte := [byte_of_Z z; byte_of_Z (z / 256)].

Definition float16_bits (w : float16) : Z :=
  match w with
  | S754_zero s => if s then 32768 else 0
  | S754_infinity s => (if s then 32768 else 0) + 31744
  | S754_nan => 32256
  | S754_finite s m e =>
      (if s then 32768 else 0)
      + (if Z.pos m <? 1024 then Z.pos m else (e + 25) * 1024 + (Z.pos m - 1024))
  end.

Definition raw_residuals (q : list Z) (scale : float) : list Byte.byte :=
  q ≫= two_bytes.

Definition raw_weights (ws : list float16) : list Byte.byte :=
  ws ≫= (λ w, two_bytes (float16_bits w)).

Definition stored (data : list Byte.byte) : list Byte.byte := data.

(** Sample signals. *)
Definition ramp4 : list float := [1%float; 2%float; 3%float; 4%float].

Definition unit4 : list float := [0.5%float; 0.25%float; 0.75%float; 0.5%float].

(** ** The notebook *)

(** *** Step 1: the logistic map, the notebook's own input signal *)

Fixpoint logistic_loop (r : float) (n : nat) (x : list float) : option (list float) :=
  match n with
  | O => Some x
  | S n' => last ← from_end x 1; logistic_loop r n' (x ++ [(r * last * (1 - last))%float])
  end.

Definition logistic_map (r x0 : float) (n : nat) : option (list float) :=
  logistic_loop r (n - 1) [x0].

Section ChaosCodec.
(** [LinearRegression().fit(X, y)]; [None] when it raises. *)
Variable fit : matrix -> list float -> option linear_model.
(** [xn ** 2] on a numpy float64 scalar. *)
Variable pow2 : float -> float.
(** The integer a C cast of NaN to an integer type yields. *)
Variable invalid_cast : Z.
(** [pickle.dumps] of the residual record and of the float16 weights. *)
Variable pickle_residuals : list Z -> float -> list Byte.byte.
Variable pickle_weights : list float16 -> list Byte.byte.
(** [zlib.compress]. *)
Variable zlib_compress : list Byte.byte -> list Byte.byte.

(** *** Step 2: the training set of the Henon-style base model *)

Definition X (logistic_signal : list float) : matrix :=
  vstack_T [ all_but_last2 logistic_signal;
             inner logistic_signal;
             (λ x, x * x)%float <$> inner logistic_signal ].

Definition y (logistic_signal : list float) : list float := from2 logistic_signal.

Definition henon_model (logistic_signal : list float) : option linear_model :=
  fit (X logistic_signal) (y logistic_signal).

(** *** Step 3: the base signal, predicted from its own last two values *)

Definition henon_next (W1 W2 W3 b xn1 xn : float) : float :=
  let x2 := pow2 xn in
  (W1 * xn1 + W2 * xn + W3 * x2 + b)%float.

Fixpoint base_loop (W1 W2 W3 b : float) (n : nat) (reconstructed_base : list float)
  : option (list float) :=
  match n with
  | O => Some reconstructed_base
  | S n' =>
      xn1 ← from_end reconstructed_base 2;
      xn ← from_end reconstructed_base 1;
      base_loop W1 W2 W3 b n' (reconstructed_base ++ [henon_next W1 W2 W3 b xn1 xn])
  end.

Definition reconstructed_base (W1 W2 W3 b : float) (logistic_signal : list float)
  : option (list float) :=
  x0 ← logistic_signal !! 0%nat;
  x1 ← logistic_signal !! 1%nat;
  base_loop W1 W2 W3 b (length logistic_signal - 2) [x0; x1].

(** *** Step 4: the training set of the mirror residual model *)

Definition residuals (logistic_signal base : list float) : list float :=
  zip_with (λ a b, a - b)%float logistic_signal base.

Definition X_mirror (logistic_signal : list float) : matrix :=
  vstack_T [ mirrored (all_but_last2 logistic_signal);
             mirrored (inner logistic_signal) ].

Definition y_resid (residuals : list float) : list float := mirrored (from2 residuals).

Definition residual_model (logistic_signal residuals : list float) : option linear_model :=
  fit (X_mirror logistic_signal) (y_resid residuals).

(** The rows the spec describes: the pairs in forward sample order. *)
Definition forward_rows (logistic_signal : list float) : matrix :=
  vstack_T [ all_but_last2 logistic_signal; inner logistic_signal ].

(** *** Step 5: the residual prediction and the hybrid signal *)

Fixpoint resid_loop (R1 R2 Rb : float) (logistic_signal : list float)
    (todo : list nat) (resid_pred : list float) : option (list float) :=
  match todo with
  | [] => Some resid_pred
  | i :: todo' =>
      m1 ← mirrored logistic_signal !! i;
      m2 ← mirrored logistic_signal !! (i + 1)%nat;
      resid_loop R1 R2 Rb logistic_signal todo' (resid_pred ++ [(R1 * m1 + R2 * m2 + Rb)%float])
  end.

(** The list the loop leaves, before it is mirrored and padded. *)
Definition raw_resid_pred (R1 R2 Rb : float) (logistic_signal : list float)
  : option (list float) :=
  resid_loop R1 R2 Rb logistic_signal (seq 0 (length logistic_signal - 2)) [].

Definition resid_pred (R1 R2 Rb : float) (logistic_signal : list float)
  : option (list float) :=
  raw ← raw_resid_pred R1 R2 Rb logistic_signal;
  Some ([0%float; 0%float] ++ mirrored raw).

Definition base_plus_mirror (base resid_pred : list float) : list float :=
  zip_with (λ a b, a + b)%float base resid_pred.

(** *** Step 6: the delta, quantized to int16 *)

Definition delta (logistic_signal base_plus_mirror : list float) : list float :=
  zip_with (λ a b, a - b)%float logistic_signal base_plus_mirror.

Definition scale : float := 1e4%float.

Definition astype_int16 (r : integral) : Z :=
  wrap_int16 match r with
             | Iint n => n
             | Iinf _ | Inan => invalid_cast
             end.

Definition quantize (scale d : float) : Z :=
  astype_int16 (np_clip (np_round (d * scale)%float) (-32768) 32767).

Definition delta_q (scale : float) (delta : list float) : list Z :=
  quantize scale <$> delta.

Definition resid_compressed (scale : float) (delta_q : list Z) : list Byte.byte :=
  let resid_payload := pickle_residuals delta_q scale in
  zlib_compress resid_payload.

(** *** Step 7: the final signal *)

Definition dequantize (scale : float) (q : Z) : float32 :=
  div32 (int16_to_float32 q) (to_float32 scale).

Definition reconstructed_final (scale : float) (base_plus_mirror : list float)
    (delta_q : list Z) : list float :=
  zip_with (λ h d, h + float32_to_float64 d)%float
           base_plus_mirror (dequantize scale <$> delta_q).

(** The delta as the decoder sees it: quantized, then dequantized. *)
Definition round_trip (scale d : float) : float :=
  float32_to_float64 (dequantize scale (quantize scale d)).

(** [round(delta * scale)] is an integer of the int16 range: nothing is
    clipped. *)
Definition unclipped (scale d : float) : Prop :=
  ∃ n, np_round (d * scale) = Iint n ∧ -32768 ≤ n ≤ 32767.

(** The notebook's scale as float32. *)
Definition scale32 : float32 := S754_finite false 10240000 (-10).

(** *** Step 9: the weights, narrowed to float16 *)

Definition weights (W1 W2 W3 b R1 R2 Rb : float) : list float16 :=
  to_float16 <$> [W1; W2; W3; b; R1; R2; Rb].

Definition weights_compressed (weights : list float16) : list Byte.byte :=
  zlib_compress (pickle_weights weights).

(** *** The cell, steps 2 to 7 and 9

    Step 8 only measures the finished arrays with scikit-learn's metrics and
    feeds nothing back; it is not part of this function. *)

Record codec := Codec {
  c_base : list float;
  c_resid_pred : list float;
  c_hybrid : list float;
  c_delta_q : list Z;
  c_resid_compressed : list Byte.byte;
  c_final : list float;
  c_weights_compressed : list Byte.byte
}.

Definition chaos_codec (scale : float) (logistic_signal : list float) : option codec :=
  henon ← henon_model logistic_signal;
  '(W1, W2, W3) ← unpack3 (coef_ henon);
  let b := intercept_ henon in
  base ← reconstructed_base W1 W2 W3 b logistic_signal;
  let residuals := residuals logistic_signal base in
  mirror ← residual_model logistic_signal residuals;
  '(R1, R2) ← unpack2 (coef_ mirror);
  let Rb := intercept_ mirror in
  pred ← resid_pred R1 R2 Rb logistic_signal;
  let hybrid := base_plus_mirror base pred in
  let dq := delta_q scale (delta logistic_signal hybrid) in
  Some (Codec base pred hybrid dq
              (resid_compressed scale dq)
              (reconstructed_final scale hybrid dq)
              (weights_compressed (weights W1 W2 W3 b R1 R2 Rb))).

(** Sample [i] comes back exactly: the hybrid and the final signal compare
    equal ([==]) to the true sample there, bit for bit unless the sample is
    the negative zero, and the stored delta is zero. *)
Definition exact_at_seed (logistic_signal hybrid final : list float) (dq : list Z)
    (i : nat) : Prop :=
  ∃ x h f,
    logistic_signal !! i = Some x
    ∧ hybrid !! i = Some h ∧ (h =? x)%float = true
    ∧ dq !! i = Some 0
    ∧ final !! i = Some f ∧ (f =? x)%float = true
    ∧ (Prim2SF x ≠ S754_zero true → h = x ∧ f = x).

(** The cell as the notebook runs it, with its own scale. *)
Definition notebook (logistic_signal : list float) : option codec :=
  chaos_codec scale logistic_signal.

(** ** Facts about the views *)

Lemma from_end_lookup {A} (a : list A) (k : nat) :
  (k ≤ length a)%nat → from_end a k = a !! (length a - k)%nat.
Proof. intros Hk. unfold from_end. by rewrite decide_True. Qed.

Lemma length_all_but_last2 {A} (a : list A) :
  length (all_but_last2 a) = (length a - 2)%nat.
Proof. unfold all_but_last2. rewrite length_take. lia. Qed.

Lemma length_inner {A} (a : list A) : length (inner a) = (length a - 2)%nat.
Proof. unfold inner. rewrite length_take, length_drop. lia. Qed.

Lemma lookup_all_but_last2 {A} (a : list A) (i : nat) :
  (i < length a - 2)%nat → all_but_last2 a !! i = a !! i.
Proof. intros Hi. unfold all_but_last2. by rewrite lookup_take_lt. Qed.

Lemma lookup_inner {A} (a : list A) (i : nat) :
  (i < length a - 2)%nat → inner a !! i = a !! S i.
Proof. intros Hi. unfold inner. rewrite lookup_take_lt, lookup_drop; done. Qed.

Lemma lookup_from2 {A} (a : list A) (i : nat) : from2 a !! i = a !! (2 + i)%nat.
Proof. unfold from2. by rewrite lookup_drop. Qed.

Lemma lookup_mirrored {A} (a : list A) (i : nat) :
  (i < length a)%nat → mirrored a !! i = a !! (length a - S i)%nat.
Proof. apply reverse_lookup. Qed.

Lemma length_mirrored {A} (a : list A) : length (mirrored a) = length a.
Proof. apply length_reverse. Qed.

(** A two-column stack read by rows. *)
Lemma lookup_transposed2 {A} (c1 c2 : list A) (i : nat) (a b : A) :
  c1 !! i = Some a → c2 !! i = Some b → transposed [c1; c2] !! i = Some [a; b].
Proof.
  intros H1 H2. cbn [transposed].
  rewrite lookup_zip_with, H1, list_lookup_fmap, H2. done.
Qed.

Lemma length_transposed2 {A} (c1 c2 : list A) :
  length c1 = length c2 → length (transposed [c1; c2]) = length c1.
Proof. intros H. cbn [transposed]. rewrite length_zip_with, length_fmap. lia. Qed.

Lemma reverse_zip_with {A B C} (f : A → B → C) (l : list A) : ∀ k : list B,
  length l = length k →
  reverse (zip_with f l k) = zip_with f (reverse l) (reverse k).
Proof.
  induction l as [|a l IH] using rev_ind; intros k Hk.
  - by destruct k.
  - destruct k as [|b k _] using rev_ind.
    + rewrite length_app in Hk. cbn in Hk. lia.
    + rewrite !length_app in Hk. cbn in Hk.
      rewrite zip_with_app by lia. cbn [zip_with]. rewrite !reverse_snoc.
      cbn [zip_with]. f_equal. apply IH. lia.
Qed.

(** ** The base reconstruction (step 3) *)

Lemma base_loop_spec W1 W2 W3 b (n : nat) : ∀ acc : list float,
  (2 ≤ length acc)%nat →
  ∃ out, base_loop W1 W2 W3 b n acc = Some out
    ∧ length out = (length acc + n)%nat
    ∧ (∀ i, (i < length acc)%nat → out !! i = acc !! i)
    ∧ (∀ i, (length acc ≤ i < length acc + n)%nat →
         ∃ p2 p1, out !! (i - 2)%nat = Some p2 ∧ out !! (i - 1)%nat = Some p1
           ∧ out !! i = Some (henon_next W1 W2 W3 b p2 p1)).
Proof.
  induction n as [|n IH]; intros acc Hacc.
  - exists acc. cbn. split; [done|]. split; [lia|]. split; [done|]. intros; lia.
  - cbn [base_loop]. rewrite !from_end_lookup by lia.
    destruct (lookup_lt_is_Some_2 acc (length acc - 2)) as [xn1 H1]; [lia|].
    destruct (lookup_lt_is_Some_2 acc (length acc - 1)) as [xn H0]; [lia|].
    rewrite H1, H0. cbn.
    set (v := henon_next W1 W2 W3 b xn1 xn).
    destruct (IH (acc ++ [v])) as (out & Hrun & Hlen & Hkeep & Hstep).
    { rewrite length_app. cbn. lia. }
    rewrite length_app in Hlen, Hkeep, Hstep. cbn [length] in Hlen, Hkeep, Hstep.
    exists out. split; [done|]. split; [lia|]. split.
    + intros i Hi. rewrite Hkeep by lia. by rewrite lookup_app_l.
    + intros i Hi. destruct (decide (i = length acc)) as [->|Hne].
      * exists xn1, xn. rewrite !Hkeep by lia.
        rewrite !lookup_app_l by lia.
        rewrite lookup_app_r, Nat.sub_diag by lia. done.
      * apply Hstep. lia.
Qed.

(** C2: on a signal of length at least 3 the base reconstruction returns an
    array of the signal's length whose first two entries are the signal's, and
    every later entry is [W1*out[i-2] + W2*out[i-1] + W3*out[i-1]**2 + b], a
    value of its own two predecessors; a signal with the same length and the
    same first two samples gives the same array, so no later true sample is
    read. *)
Theorem reconstructed_base_autoregressive W1 W2 W3 b (logistic_signal : list float) :
  (3 ≤ length logistic_signal)%nat →
  ∃ out, reconstructed_base W1 W2 W3 b logistic_signal = Some out
    ∧ length out = length logistic_signal
    ∧ out !! 0%nat = logistic_signal !! 0%nat
    ∧ out !! 1%nat = logistic_signal !! 1%nat
    ∧ (∀ i, (2 ≤ i < length logistic_signal)%nat →
         ∃ p2 p1, out !! (i - 2)%nat = Some p2 ∧ out !! (i - 1)%nat = Some p1
           ∧ out !! i = Some (W1 * p2 + W2 * p1 + W3 * pow2 p1 + b)%float)
    ∧ (∀ other : list float,
         length other = length logistic_signal →
         other !! 0%nat = logistic_signal !! 0%nat →
         other !! 1%nat = logistic_signal !! 1%nat →
         reconstructed_base W1 W2 W3 b other = Some out).
Proof.
  intros HN. unfold reconstructed_base.
  destruct (lookup_lt_is_Some_2 logistic_signal 0) as [x0 H0]; [lia|].
  destruct (lookup_lt_is_Some_2 logistic_signal 1) as [x1 H1]; [lia|].
  rewrite H0, H1. cbn [mbind option_bind].
  destruct (base_loop_spec W1 W2 W3 b (length logistic_signal - 2) [x0; x1])
    as (out & Hrun & Hlen & Hkeep & Hstep); [cbn; lia|].
  cbn [length] in Hlen, Hkeep, Hstep.
  exists out. split; [done|]. split; [lia|].
  split; [by rewrite Hkeep by lia|]. split; [by rewrite Hkeep by lia|]. split.
  - intros i Hi. apply Hstep. lia.
  - intros other Hlen' H0' H1'. rewrite H0', H1', Hlen'. done.
Qed.

(** ** The mirror residual prediction (step 5) *)

Lemma resid_loop_spec R1 R2 Rb (logistic_signal : list float) : ∀ (todo : list nat) (acc : list float),
  (∀ i, i ∈ todo → (i + 1 < length logistic_signal)%nat) →
  ∃ fresh, resid_loop R1 R2 Rb logistic_signal todo acc = Some (acc ++ fresh)
    ∧ length fresh = length todo
    ∧ (∀ k i, todo !! k = Some i →
         ∃ m1 m2, mirrored logistic_signal !! i = Some m1
           ∧ mirrored logistic_signal !! (i + 1)%nat = Some m2
           ∧ fresh !! k = Some (R1 * m1 + R2 * m2 + Rb)%float).
Proof.
  induction todo as [|i todo IH]; intros acc Hin.
  - exists []. cbn. rewrite app_nil_r. split; [done|]. split; [done|]. intros k i Hk. done.
  - cbn [resid_loop].
    assert (i + 1 < length logistic_signal)%nat as Hi by (apply Hin; left).
    destruct (lookup_lt_is_Some_2 (mirrored logistic_signal) i) as [m1 H1];
      [rewrite length_mirrored; lia|].
    destruct (lookup_lt_is_Some_2 (mirrored logistic_signal) (i + 1)) as [m2 H2];
      [rewrite length_mirrored; lia|].
    rewrite H1, H2. cbn [mbind option_bind].
    destruct (IH (acc ++ [(R1 * m1 + R2 * m2 + Rb)%float])) as (fresh & Hrun & Hlen & Hat).
    { intros j Hj. apply Hin. by right. }
    exists ((R1 * m1 + R2 * m2 + Rb)%float :: fresh).
    split; [by rewrite Hrun, <- app_assoc|]. split; [cbn; lia|].
    intros [|k] j Hk; cbn in Hk.
    + injection Hk as <-. by exists m1, m2.
    + by apply Hat.
Qed.

Lemma raw_resid_pred_spec R1 R2 Rb (logistic_signal : list float) :
  ∃ raw, raw_resid_pred R1 R2 Rb logistic_signal = Some raw
    ∧ length raw = (length logistic_signal - 2)%nat
    ∧ (∀ i, (i < length logistic_signal - 2)%nat →
         ∃ m1 m2, mirrored logistic_signal !! i = Some m1
           ∧ mirrored logistic_signal !! (i + 1)%nat = Some m2
           ∧ raw !! i = Some (R1 * m1 + R2 * m2 + Rb)%float).
Proof.
  unfold raw_resid_pred.
  destruct (resid_loop_spec R1 R2 Rb logistic_signal
              (seq 0 (length logistic_signal - 2)) []) as (raw & Hrun & Hlen & Hat).
  { intros i Hi. apply elem_of_seq in Hi. lia. }
  rewrite length_seq in Hlen. exists raw. split; [done|]. split; [done|].
  intros i Hi. apply (Hat i i). by rewrite lookup_seq_lt.
Qed.

(** C3: on a signal of length [N >= 3] step 5 returns an array of length
    [N].  For every index [i] the loop visits ([0 <= i < N - 2]) the raw
    prediction is [R1*reversed[i] + R2*reversed[i+1] + Rb], where
    [reversed[i]] is the true sample [x[N-1-i]] and [reversed[i+1]] is
    [x[N-2-i]]; reversed back, it is entry [N-1-i] of the result, whose first
    two entries are zero.  In a run of the cell the array is this function of
    the input signal and the mirror model's weights: no reconstructed value is
    read. *)
Theorem resid_pred_from_mirrored_signal R1 R2 Rb (logistic_signal : list float) :
  (3 ≤ length logistic_signal)%nat →
  (∃ raw out,
    raw_resid_pred R1 R2 Rb logistic_signal = Some raw
    ∧ resid_pred R1 R2 Rb logistic_signal = Some out
    ∧ length raw = (length logistic_signal - 2)%nat
    ∧ (∀ i, (i < length logistic_signal - 2)%nat →
         ∃ m1 m2,
           logistic_signal !! (length logistic_signal - 1 - i)%nat = Some m1
           ∧ logistic_signal !! (length logistic_signal - 2 - i)%nat = Some m2
           ∧ mirrored logistic_signal !! i = Some m1
           ∧ mirrored logistic_signal !! (i + 1)%nat = Some m2
           ∧ raw !! i = Some (R1 * m1 + R2 * m2 + Rb)%float
           ∧ out !! (length logistic_signal - 1 - i)%nat
             = Some (R1 * m1 + R2 * m2 + Rb)%float)
    ∧ out = [0%float; 0%float] ++ mirrored raw
    ∧ length out = length logistic_signal
    ∧ out !! 0%nat = Some 0%float
    ∧ out !! 1%nat = Some 0%float)
  ∧ (∀ (scale0 : float) (res : codec),
       chaos_codec scale0 logistic_signal = Some res →
       ∃ mirror D1 D2,
         coef_ mirror = [D1; D2]
         ∧ resid_pred D1 D2 (intercept_ mirror) logistic_signal = Some (c_resid_pred res)).
Proof.
  intros HN. split.
  - destruct (raw_resid_pred_spec R1 R2 Rb logistic_signal) as (raw & Hraw & Hlen & Hat).
    exists raw, ([0%float; 0%float] ++ mirrored raw).
    unfold resid_pred. rewrite Hraw. cbn [mbind option_bind].
    split; [done|]. split; [done|]. split; [done|]. split; [|split; [done|split; [|done]]].
    + intros i Hi. destruct (Hat i Hi) as (m1 & m2 & H1 & H2 & Hv).
      exists m1, m2.
      pose proof H1 as H1'. pose proof H2 as H2'.
      rewrite lookup_mirrored in H1' by lia. rewrite lookup_mirrored in H2' by lia.
      split; [rewrite <- H1'; f_equal; lia|].
      split; [rewrite <- H2'; f_equal; lia|].
      split; [done|]. split; [done|]. split; [done|].
      rewrite lookup_app_r by (cbn; lia). cbn [length].
      rewrite lookup_mirrored by lia. rewrite <- Hv. f_equal. lia.
    + rewrite length_app, length_mirrored, Hlen. cbn. lia.
  - intros scale0 res. unfold chaos_codec. intros Hrun.
    destruct (henon_model logistic_signal) as [henon|]; [|done]. cbn in Hrun.
    destruct (unpack3 (coef_ henon)) as [[[C1 C2] C3]|]; [|done]. cbn in Hrun.
    destruct (reconstructed_base C1 C2 C3 (intercept_ henon) logistic_signal)
      as [base|]; [|done]. cbn in Hrun.
    destruct (residual_model logistic_signal (residuals logistic_signal base))
      as [mirror|]; [|done]. cbn in Hrun.
    destruct (unpack2 (coef_ mirror)) as [[D1 D2]|] eqn:Hcoef; [|done]. cbn in Hrun.
    destruct (resid_pred D1 D2 (intercept_ mirror) logistic_signal) as [pred|] eqn:Hpred;
      [|done].
    cbn in Hrun. injection Hrun as <-. cbn [c_resid_pred].
    exists mirror, D1, D2. split; [|done].
    destruct (coef_ mirror) as [|? [|? [|]]]; cbn in Hcoef; congruence.
Qed.

(** C9: read in original sample order, the prediction at every index
    [2 <= i <= N - 1] is [R1*signal[i] + R2*signal[i-1] + Rb]. *)
Theorem resid_pred_forward_formula R1 R2 Rb (logistic_signal : list float) :
  (3 ≤ length logistic_signal)%nat →
  ∃ out, resid_pred R1 R2 Rb logistic_signal = Some out
    ∧ ∀ i, (2 ≤ i ≤ length logistic_signal - 1)%nat →
        ∃ xi xp, logistic_signal !! i = Some xi
          ∧ logistic_signal !! (i - 1)%nat = Some xp
          ∧ out !! i = Some (R1 * xi + R2 * xp + Rb)%float.
Proof.
  intros HN.
  destruct (raw_resid_pred_spec R1 R2 Rb logistic_signal) as (raw & Hraw & Hlen & Hat).
  exists ([0%float; 0%float] ++ mirrored raw).
  unfold resid_pred. rewrite Hraw. cbn [mbind option_bind]. split; [done|].
  intros i Hi.
  destruct (Hat (length logistic_signal - 1 - i)%nat) as (m1 & m2 & H1 & H2 & Hv); [lia|].
  rewrite lookup_mirrored in H1 by lia. rewrite lookup_mirrored in H2 by lia.
  exists m1, m2.
  replace (length logistic_signal - S (length logistic_signal - 1 - i))%nat with i in H1 by lia.
  replace (length logistic_signal - S (length logistic_signal - 1 - i + 1))%nat
    with (i - 1)%nat in H2 by lia.
  split; [done|]. split; [done|].
  rewrite lookup_app_r by (cbn; lia). cbn [length].
  rewrite lookup_mirrored by lia. rewrite <- Hv. f_equal. lia.
Qed.

(** ** The training set of the mirror model (step 4) *)

(** C1, as the code has it: the rows of [X_mirror] and the targets are both
    in reverse sample order.  Row [t] is [[x[N-3-t], x[N-2-t]]] (the pair
    itself in sample order) and its target is [residual[N-1-t]]; the rows are
    the forward rows mirrored. *)
Theorem mirror_training_rows (logistic_signal resid : list float) :
  (3 ≤ length logistic_signal)%nat →
  length resid = length logistic_signal →
  rows (X_mirror logistic_signal) = mirrored (rows (forward_rows logistic_signal))
  ∧ length (rows (X_mirror logistic_signal)) = (length logistic_signal - 2)%nat
  ∧ length (y_resid resid) = (length logistic_signal - 2)%nat
  ∧ ∀ t, (t < length logistic_signal - 2)%nat →
      ∃ a b r,
        logistic_signal !! (length logistic_signal - 3 - t)%nat = Some a
        ∧ logistic_signal !! (length logistic_signal - 2 - t)%nat = Some b
        ∧ resid !! (length logistic_signal - 1 - t)%nat = Some r
        ∧ rows (X_mirror logistic_signal) !! t = Some [a; b]
        ∧ y_resid resid !! t = Some r.
Proof.
  intros HN Hlen.
  assert (length (all_but_last2 logistic_signal) = length (inner logistic_signal)) as Hcols
    by (by rewrite length_all_but_last2, length_inner).
  split; [|split; [|split]].
  - unfold X_mirror, forward_rows, vstack_T. cbn [rows transposed]. unfold mirrored.
    rewrite fmap_reverse. symmetry. apply reverse_zip_with.
    by rewrite length_fmap.
  - unfold X_mirror, vstack_T. cbn [rows]. rewrite length_transposed2.
    + by rewrite length_mirrored, length_all_but_last2.
    + by rewrite !length_mirrored.
  - unfold y_resid, from2. rewrite length_mirrored, length_drop. lia.
  - intros t Ht.
    destruct (lookup_lt_is_Some_2 logistic_signal (length logistic_signal - 3 - t)) as [a Ha]; [lia|].
    destruct (lookup_lt_is_Some_2 logistic_signal (length logistic_signal - 2 - t)) as [b Hb]; [lia|].
    destruct (lookup_lt_is_Some_2 resid (length logistic_signal - 1 - t)) as [r Hr]; [lia|].
    exists a, b, r. repeat (split; [done|]). split.
    + unfold X_mirror, vstack_T. cbn [rows]. apply lookup_transposed2.
      * rewrite lookup_mirrored by (rewrite length_all_but_last2; lia).
        rewrite length_all_but_last2, lookup_all_but_last2 by lia.
        rewrite <- Ha. f_equal. lia.
      * rewrite lookup_mirrored by (rewrite length_inner; lia).
        rewrite length_inner, lookup_inner by lia.
        rewrite <- Hb. f_equal. lia.
    + unfold y_resid. rewrite lookup_mirrored by (unfold from2; rewrite length_drop; lia).
      rewrite lookup_from2. unfold from2. rewrite length_drop.
      rewrite <- Hr. f_equal. lia.
Qed.

(** ** Facts about binary64 values *)

Lemma digits2_pos_bounds (m : positive) :
  2 ^ (Z.pos (digits2_pos m) - 1) ≤ Z.pos m < 2 ^ Z.pos (digits2_pos m).
Proof.
  induction m as [m IH|m IH|]; cbn [digits2_pos]; [| |cbn; lia].
  all: rewrite Pos2Z.inj_succ, Z.pow_succ_r by lia.
  all: replace (Z.succ (Z.pos (digits2_pos m)) - 1) with (Z.succ (Z.pos (digits2_pos m) - 1)) by lia.
  all: rewrite Z.pow_succ_r by lia; lia.
Qed.

(** The canonical form of a finite double: an exponent between -1074 and 971
    and a mantissa below 2^53, of 53 bits unless the number is subnormal. *)
Lemma valid_finite_shape (s : bool) (m : positive) (e : Z) :
  valid_binary (S754_finite s m e) = true →
  -1074 ≤ e ≤ 971 ∧ Z.pos m < 2 ^ 53 ∧ (-1074 < e → 2 ^ 52 ≤ Z.pos m).
Proof.
  unfold valid_binary, SpecFloat.valid_binary, bounded, canonical_mantissa, fexp, SpecFloat.emin.
  change prec with 53. change emax with 1024.
  intros [Hcanon Hmax%Z.leb_le]%andb_prop. apply Z.eqb_eq in Hcanon.
  pose proof (digits2_pos_bounds m) as [Hlo Hhi].
  set (d := Z.pos (digits2_pos m)) in *.
  assert (0 < d) by (subst d; lia).
  split; [lia|]. split.
  - apply Z.lt_le_trans with (2 ^ d); [done|]. apply Z.pow_le_mono_r; lia.
  - intros He. replace d with 53 in Hlo by lia. done.
Qed.

Lemma round_half_even_bounds (n d : Z) :
  0 < d → n / d ≤ round_half_even n d ≤ n / d + 1.
Proof.
  intros Hd. unfold round_half_even.
  destruct (2 * (n mod d) ?= d); [destruct (Z.even (n / d))| |]; lia.
Qed.

Lemma wrap_int16_range (z : Z) : -32768 ≤ wrap_int16 z ≤ 32767.
Proof. unfold wrap_int16. pose proof (Z.mod_pos_bound (z + 32768) 65536). lia. Qed.

Lemma wrap_int16_small (z : Z) : -32768 ≤ z ≤ 32767 → wrap_int16 z = z.
Proof. intros Hz. unfold wrap_int16. rewrite Z.mod_small; lia. Qed.

Lemma clip_is_clamp (n : Z) : Z.min (Z.max n (-32768)) 32767 = clamp n (-32768) 32767.
Proof.
  unfold clamp. destruct (Z.ltb_spec n (-32768)); [lia|].
  destruct (Z.ltb_spec 32767 n); lia.
Qed.

(** ** The quantizer (step 6) *)

Lemma quantize_of_integer (scale d : float) (n : Z) :
  np_round (d * scale) = Iint n → quantize scale d = clamp n (-32768) 32767.
Proof.
  intros Hr. unfold quantize. rewrite Hr. cbn [np_clip astype_int16].
  rewrite clip_is_clamp. apply wrap_int16_small.
  rewrite <- clip_is_clamp. lia.
Qed.

(** A product at or above 32767.5 rounds to at least 32767. *)
Lemma round_at_upper_boundary (p : float) :
  (32767.5 <=? p)%float = true →
  np_round p = Iinf false ∨ ∃ n, np_round p = Iint n ∧ 32767 ≤ n.
Proof.
  rewrite leb_spec. unfold np_round.
  change (Prim2SF 32767.5) with (S754_finite false 9007061815787520 (-38)).
  pose proof (Prim2SF_valid p) as Hvalid.
  destruct (Prim2SF p) as [s|s| |s m e]; cbn [SFleb SFcompare]; try discriminate.
  - destruct s; [discriminate|]. by left.
  - destruct s; [discriminate|]. intros Hle. right. eexists. split; [done|].
    apply valid_finite_shape in Hvalid as (He & Hm & Hnormal).
    cbn [cond_Zopp].
    revert Hle.
    destruct (Z.compare_spec (-38) e) as [<-|Hlt|Hgt]; intros Hle; [| |discriminate].
    + assert (9007061815787520 ≤ Z.pos m).
      { change (9007061815787520 ≤ Z.pos m) with (9007061815787520 <= m)%positive.
        rewrite Pos.compare_cont_spec in Hle. unfold Pos.le.
        destruct (9007061815787520 ?= m)%positive; cbn in Hle; congruence. }
      change (0 <=? -38) with false. cbv iota.
      change (2 ^ (- -38)) with 274877906944.
      pose proof (round_half_even_bounds (Z.pos m) 274877906944 eq_refl).
      assert (32767 ≤ Z.pos m / 274877906944) by (apply Z.div_le_lower_bound; lia).
      lia.
    + specialize (Hnormal ltac:(lia)). change (2 ^ 52) with 4503599627370496 in Hnormal.
      destruct (Z.leb_spec 0 e).
      * assert (1 ≤ 2 ^ e) by (apply (Z.pow_le_mono_r 2 0 e); lia). nia.
      * assert (0 < 2 ^ (- e)) by (apply Z.pow_pos_nonneg; lia).
        assert (2 ^ (- e) ≤ 2 ^ 37) by (apply Z.pow_le_mono_r; lia).
        change (2 ^ 37) with 137438953472 in *.
        pose proof (round_half_even_bounds (Z.pos m) (2 ^ (- e)) ltac:(lia)).
        assert (32768 ≤ Z.pos m / 2 ^ (- e)) by (apply Z.div_le_lower_bound; nia).
        lia.
Qed.

(** A product at or below -32768.5 rounds to at most -32768. *)
Lemma round_at_lower_boundary (p : float) :
  (p <=? -32768.5)%float = true →
  np_round p = Iinf true ∨ ∃ n, np_round p = Iint n ∧ n ≤ -32768.
Proof.
  rewrite leb_spec. unfold np_round.
  change (Prim2SF (-32768.5)) with (S754_finite true 4503668346847232 (-37)).
  pose proof (Prim2SF_valid p) as Hvalid.
  destruct (Prim2SF p) as [s|s| |s m e]; cbn [SFleb SFcompare]; try discriminate.
  - destruct s; [|discriminate]. by left.
  - destruct s; [|discriminate]. intros Hle. right. eexists. split; [done|].
    apply valid_finite_shape in Hvalid as (He & Hm & Hnormal).
    cbn [cond_Zopp].
    revert Hle.
    destruct (Z.compare_spec e (-37)) as [->|Hlt|Hgt]; intros Hle; [|discriminate|].
    + assert (4503668346847232 ≤ Z.pos m).
      { change (4503668346847232 ≤ Z.pos m) with (4503668346847232 <= m)%positive.
        rewrite Pos.compare_cont_spec in Hle. apply Pos.ge_le. unfold Pos.ge.
        destruct (m ?= 4503668346847232)%positive; cbn in Hle; congruence. }
      change (0 <=? -37) with false. cbv iota.
      change (2 ^ (- -37)) with 137438953472.
      pose proof (round_half_even_bounds (- Z.pos m) 137438953472 eq_refl).
      assert (- Z.pos m / 137438953472 < -32768) by (apply Z.div_lt_upper_bound; lia).
      change (Z.neg m) with (- Z.pos m). lia.
    + specialize (Hnormal ltac:(lia)). change (2 ^ 52) with 4503599627370496 in Hnormal.
      change (Z.neg m) with (- Z.pos m).
      destruct (Z.leb_spec 0 e).
      * assert (1 ≤ 2 ^ e) by (apply (Z.pow_le_mono_r 2 0 e); lia). nia.
      * assert (0 < 2 ^ (- e)) by (apply Z.pow_pos_nonneg; lia).
        assert (2 ^ (- e) ≤ 2 ^ 36) by (apply Z.pow_le_mono_r; lia).
        change (2 ^ 36) with 68719476736 in *.
        pose proof (round_half_even_bounds (- Z.pos m) (2 ^ (- e)) ltac:(lia)).
        assert (- Z.pos m / 2 ^ (- e) < -32768) by (apply Z.div_lt_upper_bound; nia).
        lia.
Qed.

(** ** Rounding to binary64, and the quantization round trip *)

Lemma iter_pos_nat {A} (f : A → A) (p : positive) :
  ∀ x, SpecFloat.iter_pos f p x = Nat.iter (Pos.to_nat p) f x.
Proof.
  induction p as [p IH|p IH|]; intros x; cbn [SpecFloat.iter_pos].
  - rewrite !IH, Pos2Nat.inj_xI.
    replace (S (2 * Pos.to_nat p))%nat with (Pos.to_nat p + S (Pos.to_nat p))%nat by lia.
    by rewrite Nat.iter_add, Nat.iter_succ_r.
  - rewrite !IH, Pos2Nat.inj_xO.
    replace (2 * Pos.to_nat p)%nat with (Pos.to_nat p + Pos.to_nat p)%nat by lia.
    by rewrite Nat.iter_add.
  - done.
Qed.

Lemma shr_1_spec (m : Z) (r s : bool) :
  0 ≤ m → shr_1 (Build_shr_record m r s) = Build_shr_record (m / 2) (Z.odd m) (r || s).
Proof.
  intros Hm. rewrite <- Z.div2_div.
  destruct m as [|[p|p|]|p]; try done; lia.
Qed.

(** The state after [k] one-bit shifts of the quotient [A / c]: the shifted
    quotient, and the part lost, told by the round and sticky bits. *)
Lemma shr_iter_located (A c : Z) (l : location) (k : nat) :
  0 < c → 0 ≤ A → located A c l →
  ∃ r s T,
    Nat.iter k shr_1 (shr_record_of_loc (A / c) l)
      = Build_shr_record (A / (c * 2 ^ Z.of_nat k)) r s
    ∧ 0 ≤ T < c * 2 ^ Z.of_nat k
    ∧ 2 * (A mod (c * 2 ^ Z.of_nat k)) = (if r then c * 2 ^ Z.of_nat k else 0) + T
    ∧ (s = true ↔ T ≠ 0).
Proof.
  intros Hc HA Hloc. induction k as [|k (r & s & T & Hrec & HT & Hrem & Hs)].
  - change (2 ^ Z.of_nat 0) with 1. rewrite Z.mul_1_r.
    pose proof (Z.mod_pos_bound A c Hc) as Hmod.
    destruct l as [|[| |]]; cbn [located] in Hloc; cbn [Nat.iter shr_record_of_loc].
    + exists false, false, 0. repeat split; try lia; done.
    + exists true, false, 0. repeat split; try lia; done.
    + exists false, true, (2 * (A mod c)). repeat split; try lia; done.
    + exists true, true, (2 * (A mod c) - c). repeat split; try lia; done.
  - assert (0 < 2 ^ Z.of_nat k) as Hpow by (apply Z.pow_pos_nonneg; lia).
    assert (0 < c * 2 ^ Z.of_nat k) as HP by lia.
    rewrite Nat.iter_succ, Hrec, shr_1_spec by (apply Z.div_pos; lia).
    rewrite Nat2Z.inj_succ, Z.pow_succ_r by lia.
    replace (c * (2 * 2 ^ Z.of_nat k)) with (c * 2 ^ Z.of_nat k * 2) by ring.
    set (P := c * 2 ^ Z.of_nat k) in *.
    pose proof (Z.mod_pos_bound A P HP) as Hmod.
    exists (Z.odd (A / P)), (r || s), (2 * (A mod P)).
    split; [|split; [lia|split]].
    + by rewrite Z.div_div by lia.
    + rewrite Z.rem_mul_r, Zmod_odd by lia. destruct (Z.odd (A / P)); lia.
    + rewrite orb_true_iff. destruct r, s; split; intros; try lia; auto.
Qed.

Lemma round_nearest_even_located (A c : Z) (l : location) (k : nat) :
  0 < c → 0 ≤ A → located A c l →
  let rec := Nat.iter k shr_1 (shr_record_of_loc (A / c) l) in
  let m1 := round_nearest_even (shr_m rec) (loc_of_shr_record rec) in
  A / (c * 2 ^ Z.of_nat k) ≤ m1 ≤ A / (c * 2 ^ Z.of_nat k) + 1
  ∧ 2 * Z.abs (m1 * (c * 2 ^ Z.of_nat k) - A) ≤ c * 2 ^ Z.of_nat k.
Proof.
  intros Hc HA Hloc.
  destruct (shr_iter_located A c l k Hc HA Hloc) as (r & s & T & Hrec & HT & Hrem & Hs).
  cbv zeta. rewrite Hrec. cbn [shr_m loc_of_shr_record].
  assert (0 < 2 ^ Z.of_nat k) as Hpow by (apply Z.pow_pos_nonneg; lia).
  assert (0 < c * 2 ^ Z.of_nat k) as HP by lia.
  set (P := c * 2 ^ Z.of_nat k) in *.
  pose proof (Z.div_mod A P ltac:(lia)) as Hdm.
  pose proof (Z.mod_pos_bound A P HP) as Hmod.
  set (q := A / P) in *. set (rem := A mod P) in *.
  assert (s = false → T = 0) as Hs0.
  { intros ->. destruct (decide (T = 0)) as [|Hne]; [done|]. apply Hs in Hne. done. }
  assert (s = true → T ≠ 0) as Hs1 by (intros ->; by apply Hs).
  destruct r, s; cbn [round_nearest_even]; try destruct (Z.even q);
    try specialize (Hs0 eq_refl); try specialize (Hs1 eq_refl); nia.
Qed.

Lemma Zdigits2_bounds (m : Z) :
  0 < m → 2 ^ (Zdigits2 m - 1) ≤ m < 2 ^ Zdigits2 m ∧ 0 < Zdigits2 m.
Proof.
  destruct m as [|p|p]; try lia. intros _. cbn [Zdigits2].
  split; [apply digits2_pos_bounds | lia].
Qed.

Lemma Zdigits2_nonneg (m : Z) : 0 ≤ m → 0 ≤ Zdigits2 m.
Proof. destruct m; cbn; lia. Qed.

(** The number of bits of [m] is the [p] with [2^(p-1) <= m < 2^p]. *)
Lemma Zdigits2_le (m p : Z) : 0 ≤ m < 2 ^ p → 0 ≤ p → Zdigits2 m ≤ p.
Proof.
  intros [Hm0 Hm] Hp. destruct (decide (m = 0)) as [->|Hne]; [done|].
  destruct (Zdigits2_bounds m ltac:(lia)) as [[Hlo _] Hd].
  destruct (Z.le_gt_cases (Zdigits2 m) p) as [|Hgt]; [done|].
  assert (2 ^ p ≤ 2 ^ (Zdigits2 m - 1)) by (apply Z.pow_le_mono_r; lia). lia.
Qed.

Lemma Zdigits2_ge (m p : Z) : 2 ^ (p - 1) ≤ m → 0 < p → p ≤ Zdigits2 m.
Proof.
  intros Hm Hp.
  assert (0 < 2 ^ (p - 1)) by (apply Z.pow_pos_nonneg; lia).
  destruct (Zdigits2_bounds m ltac:(lia)) as [[_ Hhi] Hd].
  destruct (Z.le_gt_cases p (Zdigits2 m)) as [|Hgt]; [done|].
  assert (2 ^ Zdigits2 m ≤ 2 ^ (p - 1)) by (apply Z.pow_le_mono_r; lia). lia.
Qed.

Lemma Zdigits2_eq (m p : Z) : 2 ^ (p - 1) ≤ m < 2 ^ p → 0 < p → Zdigits2 m = p.
Proof.
  intros [Hlo Hhi] Hp.
  assert (0 < 2 ^ (p - 1)) by (apply Z.pow_pos_nonneg; lia).
  pose proof (Zdigits2_le m p ltac:(lia) ltac:(lia)).
  pose proof (Zdigits2_ge m p Hlo Hp). lia.
Qed.

(** The position [SFdiv] records for the remainder of a division. *)
Lemma new_location_located (A c : Z) :
  0 < c → 0 ≤ A → located A c (new_location c (A mod c)).
Proof.
  intros Hc HA. pose proof (Z.mod_pos_bound A c Hc) as Hmod.
  unfold new_location, new_location_even, new_location_odd.
  destruct (Z.even c) eqn:Heven.
  - destruct (Z.eqb_spec (A mod c) 0) as [H0|Hne]; [done|].
    cbn [located]. destruct (Z.compare_spec (2 * (A mod c)) c); lia.
  - destruct (Z.eqb_spec (A mod c) 0) as [H0|Hne]; [done|].
    assert (Z.odd c = true) as [k Hk]%Z.odd_spec by (by rewrite <- Z.negb_even, Heven).
    cbn [located]. destruct (Z.compare_spec (2 * (A mod c) + 1) c); lia.
Qed.

(** The quotient of [a * 2^s] by [b] has at least the bits of [a], plus [s],
    minus those of [b]. *)
Lemma Zdigits2_div_ge (a b s : Z) :
  0 < a → 0 < b → 0 ≤ s → Zdigits2 a + s - Zdigits2 b ≤ Zdigits2 (a * 2 ^ s / b).
Proof.
  intros Ha Hb Hs.
  destruct (Zdigits2_bounds a Ha) as [[Halo _] Hda].
  destruct (Zdigits2_bounds b Hb) as [[_ Hbhi] Hdb].
  assert (0 < 2 ^ s) as Hpow by (apply Z.pow_pos_nonneg; lia).
  assert (0 ≤ a * 2 ^ s / b) as Hq by (apply Z.div_pos; lia).
  destruct (Z.le_gt_cases (Zdigits2 a + s - Zdigits2 b) 0) as [Hsmall|Hbig].
  - pose proof (Zdigits2_nonneg _ Hq). lia.
  - apply Zdigits2_ge; [|lia].
    apply Z.div_le_lower_bound; [lia|].
    set (p := Zdigits2 a + s - Zdigits2 b - 1).
    assert (0 < 2 ^ p) as Hp by (apply Z.pow_pos_nonneg; lia).
    assert (2 ^ Zdigits2 b * 2 ^ p = 2 ^ (Zdigits2 a - 1) * 2 ^ s) as Heq.
    { rewrite <- !Z.pow_add_r by lia. f_equal. lia. }
    nia.
Qed.

(** The quotient of [a * 2^s] by [b] has at most one bit more than the bits
    of [a], plus [s], minus those of [b]. *)
Lemma Zdigits2_div_le (a b s : Z) :
  0 < a → 0 < b → 0 ≤ s → Zdigits2 b ≤ Zdigits2 a + s + 1 →
  Zdigits2 (a * 2 ^ s / b) ≤ Zdigits2 a + s - Zdigits2 b + 1.
Proof.
  intros Ha Hb Hs Hd.
  destruct (Zdigits2_bounds a Ha) as [[_ Hahi] Hda].
  destruct (Zdigits2_bounds b Hb) as [[Hblo _] Hdb].
  assert (0 < 2 ^ s) as Hpow by (apply Z.pow_pos_nonneg; lia).
  apply Zdigits2_le; [|lia]. split; [apply Z.div_pos; lia|].
  apply Z.div_lt_upper_bound; [lia|].
  set (p := Zdigits2 a + s - Zdigits2 b + 1).
  assert (0 < 2 ^ p) as Hp by (apply Z.pow_pos_nonneg; lia).
  assert (2 ^ (Zdigits2 b - 1) * 2 ^ p = 2 ^ Zdigits2 a * 2 ^ s) as Heq.
  { rewrite <- !Z.pow_add_r by lia. f_equal. lia. }
  nia.
Qed.

(** *** A binary format of precision [prec'] and exponent bound [emax'] *)

Section Format.
Variables prec' emax' : Z.
Hypothesis prec_pos : 0 < prec'.
Hypothesis prec_lt_emax : prec' < emax'.

Lemma shr_fexp_iter (m e : Z) (l : location) :
  shr_fexp prec' emax' m e l
  = (Nat.iter (Z.to_nat (fexp prec' emax' (Zdigits2 m + e) - e)) shr_1 (shr_record_of_loc m l),
     e + Z.of_nat (Z.to_nat (fexp prec' emax' (Zdigits2 m + e) - e))).
Proof.
  unfold shr_fexp, shr.
  destruct (fexp prec' emax' (Zdigits2 m + e) - e) as [|p|p].
  - cbn. by rewrite Z.add_0_r.
  - rewrite iter_pos_nat. change (Z.to_nat (Z.pos p)) with (Pos.to_nat p).
    by rewrite positive_nat_Z.
  - cbn. by rewrite Z.add_0_r.
Qed.

(** The second normalisation of [binary_round_aux]: one more shift exactly
    when rounding carried into one more bit. *)
Lemma shr_fexp_renormalise (m1 e1 : Z) :
  0 ≤ m1 ≤ 2 ^ prec' → SpecFloat.emin prec' emax' ≤ e1 →
  shr_fexp prec' emax' m1 e1 loc_Exact
  = if m1 =? 2 ^ prec' then (Build_shr_record (2 ^ (prec' - 1)) false false, e1 + 1)
    else (Build_shr_record m1 false false, e1).
Proof.
  intros Hm He. rewrite shr_fexp_iter. cbn [shr_record_of_loc].
  assert (0 < 2 ^ (prec' - 1)) as Hhalf by (apply Z.pow_pos_nonneg; lia).
  assert (2 ^ prec' = 2 * 2 ^ (prec' - 1)) as Hdouble.
  { rewrite <- Z.pow_succ_r by lia. f_equal. lia. }
  destruct (Z.eqb_spec m1 (2 ^ prec')) as [->|Hne].
  - rewrite (Zdigits2_eq (2 ^ prec') (prec' + 1)).
    + replace (fexp prec' emax' (prec' + 1 + e1) - e1) with 1 by (unfold fexp; lia).
      cbn [Z.to_nat Pos.to_nat Pos.iter_op Nat.iter nat_rect Z.of_nat Pos.of_succ_nat].
      rewrite shr_1_spec by lia. f_equal. f_equal.
      * rewrite Hdouble, Z.mul_comm, Z.div_mul by lia. done.
      * rewrite Hdouble, Z.odd_mul. done.
    + replace (prec' + 1 - 1) with prec' by lia. split; [lia|].
      apply Z.pow_lt_mono_r; lia.
    + lia.
  - pose proof (Zdigits2_le m1 prec' ltac:(lia) ltac:(lia)) as Hd.
    replace (Z.to_nat (fexp prec' emax' (Zdigits2 m1 + e1) - e1)) with 0%nat
      by (unfold fexp; lia).
    cbn. by rewrite Z.add_0_r.
Qed.

(** Rounding the quotient [A / c], scaled by [2^e], to the format: the result
    is a number of the format within half a unit of its last place. *)
Lemma binary_round_aux_located (s : bool) (A c e : Z) (l : location) (K : Z) :
  0 < c → 0 ≤ A → located A c l →
  e ≤ fexp prec' emax' (Zdigits2 (A / c) + e) →
  0 ≤ e + K →
  match binary_round_aux prec' emax' s (A / c) e l with
  | S754_zero _ => 2 * (A * 2 ^ (e + K)) ≤ c * 2 ^ (SpecFloat.emin prec' emax' + K)
  | S754_finite s' m e' =>
      s' = s ∧ bounded prec' emax' m e' = true ∧ e ≤ e'
      ∧ 2 * Z.abs (Z.pos m * c * 2 ^ (e' + K) - A * 2 ^ (e + K)) ≤ c * 2 ^ (e' + K)
  | S754_infinity _ => emax' - prec' ≤ fexp prec' emax' (Zdigits2 (A / c) + e)
  | S754_nan => False
  end.
Proof.
  intros Hc HA Hloc Hdigits HK. unfold binary_round_aux.
  rewrite shr_fexp_iter.
  set (q := A / c) in *. set (d := Zdigits2 q) in *.
  set (n := Z.to_nat (fexp prec' emax' (d + e) - e)).
  destruct (round_nearest_even_located A c l n Hc HA Hloc) as (Hm1 & Herr).
  fold q in Hm1, Herr.
  set (m1 := round_nearest_even _ _) in *.
  set (N := Z.of_nat n) in *.
  assert (N = fexp prec' emax' (d + e) - e) as HN by lia.
  assert (0 ≤ N) as HN0 by lia.
  assert (0 ≤ q) as Hq0 by (apply Z.div_pos; lia).
  assert (0 < 2 ^ N) as HpowN by (apply Z.pow_pos_nonneg; lia).
  assert (A / (c * 2 ^ N) = q / 2 ^ N) as Hq1 by (unfold q; by rewrite Z.div_div by lia).
  rewrite Hq1 in Hm1.
  assert (0 ≤ q / 2 ^ N) as Hq1pos by (apply Z.div_pos; lia).
  assert (0 < 2 ^ (prec' - 1)) as Hhalf by (apply Z.pow_pos_nonneg; lia).
  assert (2 ^ prec' = 2 * 2 ^ (prec' - 1)) as Hdouble.
  { rewrite <- Z.pow_succ_r by lia. f_equal. lia. }
  pose proof (Zdigits2_nonneg q Hq0) as Hd0. fold d in Hd0.
  (* the digits of the shifted quotient *)
  assert ((N = d - prec' ∧ 2 ^ (prec' - 1) ≤ q / 2 ^ N < 2 ^ prec')
          ∨ (e + N = SpecFloat.emin prec' emax' ∧ q / 2 ^ N < 2 ^ (prec' - 1))) as Hshape.
  { unfold fexp in HN.
    destruct (Z.max_spec (d + e - prec') (SpecFloat.emin prec' emax')) as [[Hlt Hmax]|[Hge Hmax]];
      rewrite Hmax in HN.
    - right. split; [lia|].
      apply Z.div_lt_upper_bound; [lia|]. rewrite <- Z.pow_add_r by lia.
      destruct (decide (q = 0)) as [->|Hne]; [apply Z.pow_pos_nonneg; lia|].
      destruct (Zdigits2_bounds q ltac:(lia)) as [[_ Hhi] _]. fold d in Hhi.
      apply Z.lt_le_trans with (2 ^ d); [done|]. apply Z.pow_le_mono_r; lia.
    - left. split; [lia|].
      assert (q ≠ 0) as Hne by (intros Hq; unfold d in HN; rewrite Hq in HN; cbn in HN; lia).
      destruct (Zdigits2_bounds q ltac:(lia)) as [[Hlo Hhi] _]. fold d in Hlo, Hhi.
      split.
      + apply Z.div_le_lower_bound; [lia|]. rewrite <- Z.pow_add_r by lia.
        replace (N + (prec' - 1)) with (d - 1) by lia. done.
      + apply Z.div_lt_upper_bound; [lia|]. rewrite <- Z.pow_add_r by lia.
        replace (N + prec') with d by lia. done. }
  assert (SpecFloat.emin prec' emax' ≤ e + N) as Hemin by (unfold fexp in HN; lia).
  rewrite shr_fexp_renormalise by lia.
  assert (2 ^ (e + N + K) = 2 ^ N * 2 ^ (e + K)) as Hsplit.
  { rewrite <- Z.pow_add_r by lia. f_equal. lia. }
  assert (0 < 2 ^ (e + K)) as HpowK by (apply Z.pow_pos_nonneg; lia).
  destruct (Z.eqb_spec m1 (2 ^ prec')) as [Hcarry|Hnocarry]; cbn [shr_m].
  - destruct (2 ^ (prec' - 1)) as [|half|half] eqn:Hhalfeq; try lia.
    destruct (e + N + 1 <=? emax' - prec') eqn:Hfits; [|apply Z.leb_gt in Hfits; lia].
    split; [done|]. split; [|split; [lia|]].
    + unfold bounded, canonical_mantissa. rewrite Hfits, andb_true_r.
      apply Z.eqb_eq. change (Z.pos (digits2_pos half)) with (Zdigits2 (Z.pos half)).
      rewrite <- Hhalfeq.
      rewrite (Zdigits2_eq (2 ^ (prec' - 1)) prec') by (rewrite <- ?Hdouble; lia).
      unfold fexp. lia.
    + replace (e + N + 1 + K) with (1 + (e + N + K)) by lia.
      rewrite Z.pow_add_r, Hsplit by lia. change (2 ^ 1) with 2.
      rewrite <- Hhalfeq.
      replace (2 ^ (prec' - 1) * c * (2 * (2 ^ N * 2 ^ (e + K))) - A * 2 ^ (e + K))
        with ((m1 * (c * 2 ^ N) - A) * 2 ^ (e + K)) by (rewrite Hcarry, Hdouble, ?Hhalfeq; ring).
      rewrite Z.abs_mul, (Z.abs_eq (2 ^ (e + K))) by lia. nia.
  - destruct m1 as [|m|m] eqn:Hm1eq; [| |lia].
    + (* rounded to zero *)
      destruct Hshape as [[_ Hnormal]|[Hsub _]]; [lia|].
      rewrite <- Hsub, Hsplit. nia.
    + destruct (e + N <=? emax' - prec') eqn:Hfits; [|apply Z.leb_gt in Hfits; lia].
      split; [done|]. split; [|split; [lia|]].
      * unfold bounded, canonical_mantissa. rewrite Hfits, andb_true_r.
        apply Z.eqb_eq. change (Z.pos (digits2_pos m)) with (Zdigits2 (Z.pos m)).
        destruct Hshape as [[_ Hnormal]|[Hsub Hsmall]].
        -- rewrite (Zdigits2_eq (Z.pos m) prec') by lia. unfold fexp. lia.
        -- pose proof (Zdigits2_le (Z.pos m) prec' ltac:(lia) ltac:(lia)).
           unfold fexp. lia.
      * rewrite Hsplit.
        replace (Z.pos m * c * (2 ^ N * 2 ^ (e + K)) - A * 2 ^ (e + K))
          with ((Z.pos m * (c * 2 ^ N) - A) * 2 ^ (e + K)) by ring.
        rewrite Z.abs_mul, (Z.abs_eq (2 ^ (e + K))) by lia. nia.
Qed.

Lemma fexp_mono (a b : Z) : a ≤ b → fexp prec' emax' a ≤ fexp prec' emax' b.
Proof. unfold fexp. lia. Qed.

Lemma SFdiv_core_binary_spec (m1 m2 : positive) (e1 e2 : Z) :
  let e := Z.min (fexp prec' emax' (Zdigits2 (Z.pos m1) + e1 - (Zdigits2 (Z.pos m2) + e2)))
                 (e1 - e2) in
  let A := Z.pos m1 * 2 ^ (e1 - e2 - e) in
  SFdiv_core_binary prec' emax' (Z.pos m1) e1 (Z.pos m2) e2
  = (A / Z.pos m2, e, new_location (Z.pos m2) (A mod Z.pos m2)).
Proof.
  cbv zeta. unfold SFdiv_core_binary.
  set (e := Z.min _ _).
  assert (0 ≤ e1 - e2 - e) as Hs by lia.
  set (s := e1 - e2 - e) in *.
  assert (match s with
          | 0 => Z.pos m1
          | Z.pos _ => Z.shiftl (Z.pos m1) s
          | Z.neg _ => 0
          end = Z.pos m1 * 2 ^ s) as ->.
  { destruct s; [cbn; lia| |lia]. by rewrite Z.shiftl_mul_pow2. }
  unfold Z.div, Z.modulo. by destruct (Z.div_eucl _ _).
Qed.

(** Division of two finite numbers of the format: the quotient that comes
    back is within half a unit of its last place of the exact one. *)
Lemma SFdiv_finite_error (sx sy : bool) (mx my : positive) (ex ey K : Z) :
  let e := Z.min (fexp prec' emax' (Zdigits2 (Z.pos mx) + ex - (Zdigits2 (Z.pos my) + ey)))
                 (ex - ey) in
  let A := Z.pos mx * 2 ^ (ex - ey - e) in
  0 ≤ e + K →
  match SFdiv prec' emax' (S754_finite sx mx ex) (S754_finite sy my ey) with
  | S754_zero _ => 2 * (A * 2 ^ (e + K)) ≤ Z.pos my * 2 ^ (SpecFloat.emin prec' emax' + K)
  | S754_finite s m e' =>
      s = xorb sx sy ∧ bounded prec' emax' m e' = true ∧ e ≤ e'
      ∧ 2 * Z.abs (Z.pos m * Z.pos my * 2 ^ (e' + K) - A * 2 ^ (e + K))
        ≤ Z.pos my * 2 ^ (e' + K)
  | S754_infinity _ => emax' - prec' ≤ fexp prec' emax' (Zdigits2 (A / Z.pos my) + e)
  | S754_nan => False
  end.
Proof.
  cbv zeta. intros HK. unfold SFdiv.
  pose proof (SFdiv_core_binary_spec mx my ex ey) as Hcore. cbv zeta in Hcore.
  rewrite Hcore. clear Hcore.
  set (e := Z.min _ _) in *.
  assert (0 ≤ ex - ey - e) as Hs by lia.
  set (s := ex - ey - e) in *.
  assert (0 < 2 ^ s) as Hpow by (apply Z.pow_pos_nonneg; lia).
  apply binary_round_aux_located; [lia|lia|apply new_location_located; lia| |done].
  apply Z.le_trans with (fexp prec' emax' (Zdigits2 (Z.pos mx) + ex - (Zdigits2 (Z.pos my) + ey)));
    [lia|].
  apply fexp_mono.
  pose proof (Zdigits2_div_ge (Z.pos mx) (Z.pos my) s ltac:(lia) ltac:(lia) Hs). lia.
Qed.
Lemma shift_left_spec (m d : positive) :
  Z.pos (Pos.iter xO m d) = Z.pos m * 2 ^ Z.pos d
  ∧ Zdigits2 (Z.pos (Pos.iter xO m d)) = Zdigits2 (Z.pos m) + Z.pos d.
Proof.
  apply (Pos.iter_ind _ xO m
           (λ d a, Z.pos a = Z.pos m * 2 ^ Z.pos d
                   ∧ Zdigits2 (Z.pos a) = Zdigits2 (Z.pos m) + Z.pos d)).
  - cbn [Zdigits2 digits2_pos]. change (2 ^ 1) with 2. lia.
  - intros p a [Hval Hdig]. cbn [Zdigits2 digits2_pos] in *.
    rewrite Pos2Z.inj_xO, Hval, Pos2Z.inj_succ, Z.pow_succ_r by lia. lia.
Qed.


(** The canonical form of a finite number of the format. *)
Lemma bounded_shape (m : positive) (e : Z) :
  bounded prec' emax' m e = true →
  SpecFloat.emin prec' emax' ≤ e ≤ emax' - prec'
  ∧ Z.pos m < 2 ^ prec'
  ∧ (SpecFloat.emin prec' emax' < e → 2 ^ (prec' - 1) ≤ Z.pos m).
Proof.
  unfold bounded, canonical_mantissa, fexp.
  intros [Hcanon%Z.eqb_eq Hmax%Z.leb_le]%andb_prop.
  destruct (Zdigits2_bounds (Z.pos m) ltac:(lia)) as [[Hlo Hhi] Hd].
  cbn [Zdigits2] in Hlo, Hhi, Hd.
  set (d := Z.pos (digits2_pos m)) in *.
  split; [lia|]. split.
  - apply Z.lt_le_trans with (2 ^ d); [done|]. apply Z.pow_le_mono_r; lia.
  - intros He. replace d with prec' in Hlo by lia. done.
Qed.

(** Nothing is shifted out of a mantissa that fits the format at its
    exponent: it comes back as it is, or as an infinity past the largest
    exponent. *)
Lemma binary_round_aux_unshifted (s : bool) (m : positive) (e : Z) :
  fexp prec' emax' (Zdigits2 (Z.pos m) + e) ≤ e →
  binary_round_aux prec' emax' s (Z.pos m) e loc_Exact
  = if e <=? emax' - prec' then S754_finite s m e else S754_infinity s.
Proof.
  intros Hfexp.
  destruct (Zdigits2_bounds (Z.pos m) ltac:(lia)) as [[_ Hhi] Hd].
  assert (Z.pos m < 2 ^ prec') as Hm.
  { apply Z.lt_le_trans with (2 ^ Zdigits2 (Z.pos m)); [done|].
    apply Z.pow_le_mono_r; [lia|]. unfold fexp in Hfexp. lia. }
  unfold binary_round_aux. rewrite shr_fexp_iter.
  replace (Z.to_nat (fexp prec' emax' (Zdigits2 (Z.pos m) + e) - e)) with 0%nat by lia.
  change (Nat.iter 0 shr_1 (shr_record_of_loc (Z.pos m) loc_Exact))
    with (Build_shr_record (Z.pos m) false false).
  cbn [shr_m loc_of_shr_record round_nearest_even Z.of_nat]. rewrite Z.add_0_r.
  rewrite shr_fexp_renormalise by (unfold fexp in Hfexp; lia).
  destruct (Z.eqb_spec (Z.pos m) (2 ^ prec')) as [Heq|_]; [lia|].
  done.
Qed.

(** A number of the format rounds to itself. *)
Lemma binary_round_aux_canonical (s : bool) (m : positive) (e : Z) :
  bounded prec' emax' m e = true →
  binary_round_aux prec' emax' s (Z.pos m) e loc_Exact = S754_finite s m e.
Proof.
  unfold bounded, canonical_mantissa. intros [Hcanon%Z.eqb_eq Hfits]%andb_prop.
  rewrite binary_round_aux_unshifted by (cbn [Zdigits2]; lia). by rewrite Hfits.
Qed.

(** [binary_round] is exact on a mantissa of at most [prec'] bits whose
    exponent is in range. *)
Lemma binary_round_exact (s : bool) (m : positive) (e : Z) :
  Zdigits2 (Z.pos m) ≤ prec' →
  SpecFloat.emin prec' emax' ≤ e →
  Zdigits2 (Z.pos m) + e ≤ emax' →
  ∃ mz ez,
    binary_round prec' emax' s m e = S754_finite s mz ez
    ∧ bounded prec' emax' mz ez = true
    ∧ ez ≤ e
    ∧ Z.pos mz = Z.pos m * 2 ^ (e - ez).
Proof.
  intros Hd He Hmax. unfold binary_round, shl_align.
  set (d := Zdigits2 (Z.pos m)) in *. change (Z.pos (digits2_pos m)) with d.
  assert (0 < d) by (unfold d; cbn; lia).
  assert (fexp prec' emax' (d + e) ≤ e) as Hfexp by (unfold fexp; lia).
  destruct (fexp prec' emax' (d + e) - e) as [|k|k] eqn:Hshift; [|lia|].
  - assert (bounded prec' emax' m e = true) as Hb.
    { unfold bounded, canonical_mantissa. change (Z.pos (digits2_pos m)) with d.
      apply andb_true_intro. split; [apply Z.eqb_eq; lia|]. apply Z.leb_le.
      unfold fexp, SpecFloat.emin in Hshift. lia. }
    exists m, e. rewrite (binary_round_aux_canonical s m e Hb).
    split; [done|]. split; [done|]. split; [lia|].
    rewrite Z.sub_diag. cbn. lia.
  - destruct (shift_left_spec m k) as [Hval Hdig]. fold d in Hdig.
    set (mz := Pos.iter xO m k) in *.
    assert (bounded prec' emax' mz (fexp prec' emax' (d + e)) = true) as Hb.
    { unfold bounded, canonical_mantissa.
      change (Z.pos (digits2_pos mz)) with (Zdigits2 (Z.pos mz)). rewrite Hdig.
      apply andb_true_intro. split.
      - apply Z.eqb_eq. f_equal. lia.
      - apply Z.leb_le. unfold fexp, SpecFloat.emin in *. lia. }
    exists mz, (fexp prec' emax' (d + e)).
    rewrite (binary_round_aux_canonical s mz _ Hb).
    split; [done|]. split; [done|]. split; [lia|].
    rewrite Hval. f_equal. f_equal. lia.
Qed.
End Format.


(** Rounding an exact product or sum [M * 2^ex] to binary64: the result is
    within half a unit of its last place. *)
Lemma binary_round_aux_error (s : bool) (M : positive) (ex K : Z) :
  0 ≤ ex + K →
  match binary_round_aux 53 1024 s (Z.pos M) ex loc_Exact with
  | S754_zero _ => 2 * (Z.pos M * 2 ^ (ex + K)) ≤ 2 ^ (-1074 + K)
  | S754_finite s' m e =>
      s' = s ∧ ex ≤ e
      ∧ 2 * Z.abs (Z.pos m * 2 ^ (e + K) - Z.pos M * 2 ^ (ex + K)) ≤ 2 ^ (e + K)
  | S754_infinity _ => True
  | S754_nan => False
  end.
Proof.
  intros HK.
  destruct (Z.le_gt_cases ex (fexp 53 1024 (Zdigits2 (Z.pos M) + ex))) as [Hshift|Hexact].
  - pose proof (binary_round_aux_located 53 1024 ltac:(lia) s (Z.pos M) 1 ex loc_Exact K
                  ltac:(lia) ltac:(lia)) as Hround.
    rewrite Z.div_1_r in Hround.
    specialize (Hround (Z.mod_1_r _) Hshift HK).
    destruct (binary_round_aux 53 1024 s (Z.pos M) ex loc_Exact) as [s'|s'| |s' m e];
      [|done|done|].
    + change (SpecFloat.emin 53 1024 + K) with (-1074 + K) in Hround. lia.
    + destruct Hround as (-> & _ & He & Herr). split; [done|]. split; [done|]. lia.
  - rewrite (binary_round_aux_unshifted 53 1024 ltac:(lia)) by lia.
    destruct (ex <=? 1024 - 53); [|done].
    assert (0 < 2 ^ (ex + K)) by (apply Z.pow_pos_nonneg; lia).
    split; [done|]. split; [lia|]. rewrite Z.sub_diag. cbn [Z.abs]. lia.
Qed.

Lemma round_half_even_error (a D : Z) :
  0 < D → 2 * Z.abs (round_half_even a D * D - a) ≤ D.
Proof.
  intros HD. unfold round_half_even.
  pose proof (Z.div_mod a D ltac:(lia)) as Hdm.
  pose proof (Z.mod_pos_bound a D HD) as Hmod.
  destruct (Z.compare_spec (2 * (a mod D)) D); [destruct (Z.even (a / D))| |]; nia.
Qed.

Lemma np_round_error (p : float) (n : Z) :
  np_round p = Iint n → 2 * Z.abs (n * 2 ^ 1074 - ticks p) ≤ 2 ^ 1074.
Proof.
  unfold np_round, ticks. pose proof (Prim2SF_valid p) as Hvalid.
  destruct (Prim2SF p) as [s|s| |s m e]; try discriminate.
  - intros [= <-]. cbn. lia.
  - apply valid_finite_shape in Hvalid as (He & _ & _).
    intros [= <-].
    assert (0 < 2 ^ 1074) by (apply Z.pow_pos_nonneg; lia).
    destruct (Z.leb_spec 0 e).
    + replace (cond_Zopp s (Z.pos m * 2 ^ e) * 2 ^ 1074)
        with (cond_Zopp s (Z.pos m * 2 ^ (e + 1074))).
      * rewrite Z.sub_diag. cbn. lia.
      * rewrite Z.pow_add_r by lia. destruct s; cbn [cond_Zopp]; ring.
    + assert (0 < 2 ^ (- e)) as HD by (apply Z.pow_pos_nonneg; lia).
      assert (0 < 2 ^ (e + 1074)) as HE by (apply Z.pow_pos_nonneg; lia).
      assert (2 ^ 1074 = 2 ^ (- e) * 2 ^ (e + 1074)) as ->.
      { rewrite <- Z.pow_add_r by lia. f_equal. lia. }
      pose proof (round_half_even_error (cond_Zopp s (Z.pos m)) (2 ^ (- e)) HD) as Herr.
      set (r := round_half_even _ _) in *.
      replace (r * (2 ^ (- e) * 2 ^ (e + 1074)) - cond_Zopp s (Z.pos m * 2 ^ (e + 1074)))
        with ((r * 2 ^ (- e) - cond_Zopp s (Z.pos m)) * 2 ^ (e + 1074))
        by (destruct s; cbn [cond_Zopp]; ring).
      rewrite Z.abs_mul, (Z.abs_eq (2 ^ (e + 1074))) by lia. nia.
Qed.

(** The product [delta * S] that rounds into the int16 range: [delta] is
    finite, and the binary64 product is within [2^-38] of the exact one. *)
Lemma product_error (sc d : float) (mS : positive) (eS n : Z) :
  Prim2SF sc = S754_finite false mS eS →
  np_round (d * sc) = Iint n → -32768 ≤ n ≤ 32767 →
  np_isfinite d = true
  ∧ 2 * Z.abs (ticks (d * sc) * 2 ^ 1074 - ticks d * ticks sc) ≤ 2 ^ 1037 * 2 ^ 1074.
Proof.
  intros HS Hround Hn.
  pose proof (np_round_error _ _ Hround) as Hnear.
  assert (0 < 2 ^ 1037 * 2 ^ 1074) as Hpos by (apply Z.mul_pos_pos; apply Z.pow_pos_nonneg; lia).
  pose proof (Prim2SF_valid sc) as HvS. rewrite HS in HvS.
  apply valid_finite_shape in HvS as (HeS & _ & _).
  pose proof (Prim2SF_valid d) as Hvd.
  pose proof (Prim2SF_valid (d * sc)) as Hvp.
  pose proof (mul_spec d sc) as Hmul. rewrite HS in Hmul.
  unfold np_round in Hround. unfold np_isfinite. unfold ticks in Hnear |- *.
  rewrite HS.
  destruct (Prim2SF d) as [s|s| |s m e] eqn:Hd.
  - split; [done|]. rewrite Hmul. cbn. lia.
  - rewrite Hmul in Hround. discriminate.
  - rewrite Hmul in Hround. discriminate.
  - split; [done|].
    apply valid_finite_shape in Hvd as (He & _ & _).
    unfold SF64mul, SFmul in Hmul. change prec with 53 in Hmul. change emax with 1024 in Hmul.
    pose proof (binary_round_aux_error (xorb s false) (m * mS) (e + eS) 2148 ltac:(lia))
      as Herr.
    rewrite <- Hmul in Herr. clear Hmul.
    rewrite xorb_false_r in Herr. rewrite Pos2Z.inj_mul in Herr.
    assert (Z.pos m * Z.pos mS * 2 ^ (e + eS + 2148)
            = Z.pos m * 2 ^ (e + 1074) * (Z.pos mS * 2 ^ (eS + 1074))) as Hexact.
    { replace (e + eS + 2148) with (e + 1074 + (eS + 1074)) by lia.
      rewrite Z.pow_add_r by lia. ring. }
    rewrite Hexact in Herr. cbn [cond_Zopp].
    assert (0 < 2 ^ 1074) as HU by (apply Z.pow_pos_nonneg; lia).
    destruct (Prim2SF (d * sc)) as [s'|s'| |s' m' e']; try discriminate.
    + change (2 ^ (-1074 + 2148)) with (2 ^ 1074) in Herr.
      assert (2 ^ 1074 ≤ 2 ^ 1037 * 2 ^ 1074) by lia.
      destruct s; cbn [cond_Zopp]; lia.
    + destruct Herr as (-> & _ & Herr).
      apply valid_finite_shape in Hvp as (He' & Hm' & Hnormal).
      assert (0 < 2 ^ (e' + 1074)) as Hpe' by (apply Z.pow_pos_nonneg; lia).
      assert (2 ^ (e' + 2148) = 2 ^ (e' + 1074) * 2 ^ 1074) as Hsplit.
      { replace (e' + 2148) with (e' + 1074 + 1074) by lia. by rewrite Z.pow_add_r by lia. }
      rewrite Hsplit in Herr.
      assert (2 ^ (e' + 1074) ≤ 2 ^ 1037) as Hsmall.
      { apply Z.pow_le_mono_r; [lia|].
        destruct (decide (e' = -1074)) as [->|Hne]; [lia|].
        specialize (Hnormal ltac:(lia)).
        destruct (Z.le_gt_cases (e' + 1074) 1037) as [|Hbig]; [done|].
        assert (2 ^ 1038 ≤ 2 ^ (e' + 1074)) by (apply Z.pow_le_mono_r; lia).
        assert (2 ^ 1074 = 68719476736 * 2 ^ 1038) as Hu by reflexivity.
        change (2 ^ 52) with 4503599627370496 in Hnormal.
        rewrite Hu in Hnear. clear Hu Herr Hsplit Hexact HU Hpos.
        destruct s; cbn [cond_Zopp] in Hnear; nia. }
      replace (cond_Zopp s (Z.pos m' * 2 ^ (e' + 1074)) * 2 ^ 1074
               - cond_Zopp s (Z.pos m * 2 ^ (e + 1074)) * (Z.pos mS * 2 ^ (eS + 1074)))
        with (cond_Zopp s (Z.pos m' * (2 ^ (e' + 1074) * 2 ^ 1074)
                           - Z.pos m * 2 ^ (e + 1074) * (Z.pos mS * 2 ^ (eS + 1074))))
        by (destruct s; cbn [cond_Zopp]; ring).
      assert (∀ z, Z.abs (cond_Zopp s z) = Z.abs z) as Habs by (intros z; destruct s; cbn; lia).
      rewrite Habs.
      assert (2 ^ (e' + 1074) * 2 ^ 1074 ≤ 2 ^ 1037 * 2 ^ 1074)
        by (apply Z.mul_le_mono_nonneg_r; lia).
      lia.
Qed.

(** A nonzero int16 is a float32: a mantissa of 24 bits that holds it
    exactly. *)
Lemma int16_to_float32_exact (q : Z) :
  q ≠ 0 → -32768 ≤ q ≤ 32767 →
  ∃ m e,
    int16_to_float32 q = S754_finite (q <? 0) m e
    ∧ -23 ≤ e ≤ 0
    ∧ Z.pos m = Z.abs q * 2 ^ (- e)
    ∧ 2 ^ 23 ≤ Z.pos m < 2 ^ 24.
Proof.
  intros Hq0 Hq.
  assert (∀ (s : bool) (p : positive), Z.pos p ≤ 32768 →
            ∃ m e, binary_round 24 128 s p 0 = S754_finite s m e
                   ∧ -23 ≤ e ≤ 0 ∧ Z.pos m = Z.pos p * 2 ^ (- e)
                   ∧ 2 ^ 23 ≤ Z.pos m < 2 ^ 24) as Hround.
  { intros s p Hp.
    pose proof (Zdigits2_le (Z.pos p) 24 ltac:(lia) ltac:(lia)) as Hd.
    destruct (binary_round_exact 24 128 ltac:(lia) ltac:(lia) s p 0 Hd)
      as (m & e & Hr & Hb & He & Hm); [unfold SpecFloat.emin; lia|lia|].
    apply (bounded_shape 24 128) in Hb as (Hrange & Hhi & Hnormal).
    unfold SpecFloat.emin in Hrange, Hnormal.
    rewrite Z.sub_0_l in Hm.
    assert (0 < 2 ^ (- e)) as Hpow by (apply Z.pow_pos_nonneg; lia).
    assert (- e < 24) as He24.
    { apply (Z.pow_lt_mono_r_iff 2); [lia|lia|nia]. }
    exists m, e. split; [done|]. split; [lia|]. split; [done|].
    split; [apply Hnormal; lia|done]. }
  unfold int16_to_float32, binary_normalize.
  destruct q as [|p|p]; [done| |].
  - destruct (Hround false p ltac:(lia)) as (m & e & Hr & He & Hm & Hshape).
    exists m, e. done.
  - destruct (Hround true p ltac:(lia)) as (m & e & Hr & He & Hm & Hshape).
    exists m, e. done.
Qed.

(** A finite float32 widens to the double of the same value. *)
Lemma float32_to_float64_exact (s : bool) (m : positive) (e : Z) :
  bounded 24 128 m e = true →
  np_isfinite (float32_to_float64 (S754_finite s m e)) = true
  ∧ ticks (float32_to_float64 (S754_finite s m e)) = cond_Zopp s (Z.pos m * 2 ^ (e + 1074)).
Proof.
  intros Hb.
  apply (bounded_shape 24 128) in Hb as (Hrange & Hhi & _).
  unfold SpecFloat.emin in Hrange.
  pose proof (Zdigits2_le (Z.pos m) 24 ltac:(lia) ltac:(lia)) as Hd.
  destruct (binary_round_exact 53 1024 ltac:(lia) ltac:(lia) s m e)
    as (mz & ez & Hr & Hbz & Hez & Hmz); [lia|unfold SpecFloat.emin; lia|lia|].
  unfold np_isfinite, ticks, float32_to_float64.
  change prec with 53. change emax with 1024. rewrite Hr.
  rewrite Prim2SF_SF2Prim by exact Hbz.
  split; [done|]. f_equal.
  apply (bounded_shape 53 1024) in Hbz as (Hzrange & _ & _).
  unfold SpecFloat.emin in Hzrange.
  rewrite Hmz, <- Z.mul_assoc, <- Z.pow_add_r by lia. f_equal. f_equal. lia.
Qed.

(** The stored integer [q], divided by the scale in float32, is a finite
    double within [2^-23] of [q / 10000]. *)
Lemma dequantize_error (q : Z) :
  -32768 ≤ q ≤ 32767 →
  np_isfinite (float32_to_float64 (dequantize scale q)) = true
  ∧ Z.abs (ticks (float32_to_float64 (dequantize scale q)) * 10000 - q * 2 ^ 1074) * 2 ^ 23
    ≤ 10000 * 2 ^ 1074.
Proof.
  intros Hq. unfold dequantize. change (to_float32 scale) with scale32.
  destruct (decide (q = 0)) as [->|Hq0].
  { split; [reflexivity|]. change (ticks _) with 0. cbn. lia. }
  destruct (int16_to_float32_exact q Hq0 Hq) as (mx & ex & -> & Hex & Hmx & Hshape).
  unfold div32, scale32.
  pose proof (SFdiv_finite_error 24 128 ltac:(lia) (q <? 0) false mx 10240000 ex (-10) 1074)
    as Hdiv.
  cbv zeta in Hdiv.
  rewrite (Zdigits2_eq (Z.pos mx) 24) in Hdiv by (replace (24 - 1) with 23 by lia; lia).
  change (Zdigits2 10240000) with 24 in Hdiv.
  replace (Z.min (fexp 24 128 (24 + ex - (24 + -10))) (ex - -10)) with (ex - 14) in Hdiv
    by (unfold fexp, SpecFloat.emin; lia).
  replace (ex - -10 - (ex - 14)) with 24 in Hdiv by lia.
  replace (ex - 14 + 1074) with (ex + 1060) in Hdiv by lia.
  specialize (Hdiv ltac:(lia)).
  assert (Z.pos mx * 2 ^ (ex + 1060) = Z.abs q * 2 ^ 1060) as Hval.
  { rewrite Hmx, <- Z.mul_assoc, <- Z.pow_add_r by lia. f_equal. f_equal. lia. }
  assert (2 ^ 1074 = 16384 * 2 ^ 1060) as H1074 by reflexivity.
  assert (2 ^ 1060 = 128 * 2 ^ 1053) as H1060 by reflexivity.
  assert (0 < 2 ^ 1053) as HW by (apply Z.pow_pos_nonneg; lia).
  change (2 ^ 24) with 16777216 in *. change (2 ^ 23) with 8388608 in *.
  destruct (SFdiv 24 128 (S754_finite (q <? 0) mx ex) (S754_finite false 10240000 (-10)))
    as [s|s| |s m e']; [| | done |].
  - (* the quotient is not zero *)
    exfalso. change (SpecFloat.emin 24 128 + 1074) with 925 in Hdiv.
    assert (2 ^ 1053 = 340282366920938463463374607431768211456 * 2 ^ 925) as H925 by reflexivity.
    assert (0 < 2 ^ 925) by (apply Z.pow_pos_nonneg; lia).
    set (V := 2 ^ 1060) in *. set (W := 2 ^ 1053) in *. set (U := 2 ^ 925) in *.
    clearbody V W U. nia.
  - (* nor an infinity *)
    exfalso.
    assert (Zdigits2 (Z.pos mx * 16777216 / 10240000) ≤ 48) as Hd.
    { apply Zdigits2_le; [|lia]. split; [apply Z.div_pos; lia|].
      apply Z.div_lt_upper_bound; [lia|]. change (2 ^ 48) with 281474976710656. lia. }
    unfold fexp, SpecFloat.emin in Hdiv. lia.
  - destruct Hdiv as (-> & Hb & He' & Herr).
    destruct (float32_to_float64_exact (xorb (q <? 0) false) m e' Hb) as [Hfin ->].
    split; [done|].
    apply (bounded_shape 24 128) in Hb as (Hrange & Hhi & Hnormal).
    unfold SpecFloat.emin in Hrange, Hnormal.
    change (2 ^ 24) with 16777216 in *. change (2 ^ (24 - 1)) with 8388608 in Hnormal.
    rewrite xorb_false_r.
    assert (0 < 2 ^ (e' + 1074)) as HU by (apply Z.pow_pos_nonneg; lia).
    replace (Z.pos mx * 16777216 * 2 ^ (ex + 1060)) with (16777216 * (Z.abs q * 2 ^ 1060))
      in Herr by (rewrite <- Hval; ring).
    assert (Z.abs (cond_Zopp (q <? 0) (Z.pos m * 2 ^ (e' + 1074)) * 10000 - q * 2 ^ 1074)
            = Z.abs (Z.pos m * 2 ^ (e' + 1074) * 10000 - Z.abs q * 2 ^ 1074)) as ->.
    { destruct (Z.ltb_spec q 0); cbn [cond_Zopp]; lia. }
    assert (e' ≤ -22) as Hsmall.
    { destruct (Z.le_gt_cases e' (-22)) as [|Hbig]; [done|]. exfalso.
      specialize (Hnormal ltac:(lia)).
      assert (2 ^ 1053 ≤ 2 ^ (e' + 1074)) by (apply Z.pow_le_mono_r; lia).
      set (U := 2 ^ (e' + 1074)) in *. set (V := 2 ^ 1060) in *. set (W := 2 ^ 1053) in *.
      clearbody U V W. nia. }
    assert (2 ^ (e' + 1074) * 4194304 ≤ 2 ^ 1074) as Hulp.
    { change 4194304 with (2 ^ 22). rewrite <- Z.pow_add_r by lia.
      apply Z.pow_le_mono_r; lia. }
    change (2 ^ 23) with 8388608.
    set (U := 2 ^ (e' + 1074)) in *. set (V := 2 ^ 1060) in *. set (T := 2 ^ 1074) in *.
    clearbody U V T. lia.
Qed.

Lemma quantize_unclipped (sc d : float) (n : Z) :
  np_round (d * sc) = Iint n → -32768 ≤ n ≤ 32767 → quantize sc d = n.
Proof.
  intros Hr Hn. rewrite (quantize_of_integer _ _ _ Hr). unfold clamp.
  destruct (Z.ltb_spec n (-32768)); [lia|]. destruct (Z.ltb_spec 32767 n); lia.
Qed.

Lemma round_trip_ticks (d : float) :
  unclipped scale d →
  np_isfinite d = true
  ∧ np_isfinite (round_trip scale d) = true
  ∧ Z.abs (ticks (round_trip scale d) - ticks d) * (20000 * 4194304)
    ≤ (4194304 + 20000) * 2 ^ 1074.
Proof.
  intros (n & Hround & Hn). unfold round_trip.
  rewrite (quantize_unclipped _ _ _ Hround Hn).
  destruct (dequantize_error n Hn) as [Hfin Hdeq].
  destruct (product_error scale d _ _ n eq_refl Hround Hn) as [Hfd Hprod].
  split; [done|]. split; [done|].
  pose proof (np_round_error _ _ Hround) as Hnear.
  change (ticks scale) with (10000 * 2 ^ 1074) in Hprod.
  assert (0 < 2 ^ 1074) as HU by (apply Z.pow_pos_nonneg; lia).
  assert (2 * Z.abs (ticks (d * scale) - 10000 * ticks d) ≤ 2 ^ 1037) as Hprod'.
  { apply (Z.mul_le_mono_pos_r _ _ (2 ^ 1074) HU).
    rewrite <- Z.mul_assoc, <- (Z.abs_eq (2 ^ 1074)) at 1 by lia.
    rewrite <- Z.abs_mul.
    replace ((ticks (d * scale) - 10000 * ticks d) * 2 ^ 1074)
      with (ticks (d * scale) * 2 ^ 1074 - ticks d * (10000 * 2 ^ 1074)) by ring.
    done. }
  clear Hprod.
  set (f := float32_to_float64 (dequantize scale n)) in *.
  assert (2 ^ 1074 = 137438953472 * 2 ^ 1037) as Hu by reflexivity.
  assert (0 < 2 ^ 1037) by (apply Z.pow_pos_nonneg; lia).
  change (2 ^ 23) with 8388608 in Hdeq.
  set (u := 2 ^ 1074) in *. set (v := 2 ^ 1037) in *. set (nu := n * u) in *.
  lia.
Qed.

(** At the notebook's scale [1e4], a delta whose rounded product is not
    clipped comes back from the float32 division as a finite double within
    [0.5/S + 2^-22] of itself ([1/20000 + 1/4194304]): half a quantization
    step, plus the rounding of the binary64 product and of the float32
    quotient. *)
Theorem round_trip_at_notebook_scale (d : float) :
  unclipped scale d →
  np_isfinite d = true
  ∧ np_isfinite (round_trip scale d) = true
  ∧ (Qabs (value (round_trip scale d) - value d) <= (1 # 20000) + (1 # 4194304))%Q.
Proof.
  intros Hd. destruct (round_trip_ticks d Hd) as (Hfd & Hfr & Hticks).
  split; [done|]. split; [done|].
  unfold value. set (a := ticks (round_trip scale d)) in *.
  set (b := ticks d) in *.
  assert (Z.pos (2 ^ 1074) = 2 ^ 1074) as HU by (by rewrite Pos2Z.inj_pow).
  set (U := (2 ^ 1074)%positive) in *.
  unfold Qle, Qabs, Qminus, Qplus, Qopp. cbn [Qnum Qden].
  rewrite Pos2Z.inj_mul, HU.
  replace (a * 2 ^ 1074 + - b * 2 ^ 1074) with ((a - b) * 2 ^ 1074) by ring.
  assert (0 < 2 ^ 1074) by (apply Z.pow_pos_nonneg; lia).
  rewrite Z.abs_mul, (Z.abs_eq (2 ^ 1074)) by lia.
  change (Z.pos (20000 * 4194304)) with (20000 * 4194304).
  change (1 * Z.pos 4194304 + 1 * Z.pos 20000) with (4194304 + 20000).
  set (u := 2 ^ 1074) in *. nia.
Qed.

(** *** The round trip at any scale of the float32 range *)

(** A double between [2^-100] and [2^100] narrows to a normal float32 within
    half a unit of its last place. *)
Lemma to_float32_error (x : float) (s : bool) (m : positive) (e : Z) :
  Prim2SF x = S754_finite s m e →
  2 ^ 974 ≤ Z.pos m * 2 ^ (e + 1074) ≤ 2 ^ 1174 →
  ∃ m' e',
    to_float32 x = S754_finite s m' e'
    ∧ bounded 24 128 m' e' = true
    ∧ 2 ^ 23 ≤ Z.pos m'
    ∧ 2 * Z.abs (Z.pos m' * 2 ^ (e' + 1074) - Z.pos m * 2 ^ (e + 1074)) ≤ 2 ^ (e' + 1074).
Proof.
  intros Hx Hrange.
  pose proof (Prim2SF_valid x) as Hvalid. rewrite Hx in Hvalid.
  apply valid_finite_shape in Hvalid as (He & Hm & Hnormal).
  assert (0 < 2 ^ (e + 1074)) as Hpe by (apply Z.pow_pos_nonneg; lia).
  assert (-1074 < e) as He1.
  { destruct (decide (e = -1074)) as [->|]; [|lia]. exfalso.
    change (2 ^ (-1074 + 1074)) with 1 in Hrange.
    assert (2 ^ 53 < 2 ^ 974) by (apply Z.pow_lt_mono_r; lia). lia. }
  specialize (Hnormal He1).
  assert (Zdigits2 (Z.pos m) = 53) as Hd by (apply Zdigits2_eq; [done|lia]).
  unfold to_float32, narrow. rewrite Hx. unfold binary_round, shl_align.
  change (Z.pos (digits2_pos m)) with (Zdigits2 (Z.pos m)). rewrite Hd.
  destruct (fexp 24 128 (53 + e) - e) as [|k|k] eqn:Hshift;
    [unfold fexp, SpecFloat.emin in Hshift; lia| |unfold fexp, SpecFloat.emin in Hshift; lia].
  pose proof (binary_round_aux_located 24 128 ltac:(lia) s (Z.pos m) 1 e loc_Exact 1074
                ltac:(lia) ltac:(lia)) as Hround.
  rewrite Z.div_1_r, Hd in Hround.
  specialize (Hround (Z.mod_1_r _) ltac:(unfold fexp, SpecFloat.emin; lia) ltac:(lia)).
  destruct (binary_round_aux 24 128 s (Z.pos m) e loc_Exact) as [s'|s'| |s' m' e'].
  - exfalso. change (SpecFloat.emin 24 128 + 1074) with 925 in Hround.
    assert (2 ^ 925 < 2 ^ 974) by (apply Z.pow_lt_mono_r; lia). lia.
  - exfalso. unfold fexp, SpecFloat.emin in Hround.
    assert (2 ^ 1149 ≤ 2 ^ (e + 1074)) by (apply Z.pow_le_mono_r; lia).
    assert (2 ^ 1174 < 2 ^ 52 * 2 ^ 1149) by reflexivity.
    assert (2 ^ 52 * 2 ^ 1149 ≤ Z.pos m * 2 ^ (e + 1074)) by (apply Z.mul_le_mono_nonneg; lia).
    lia.
  - done.
  - destruct Hround as (-> & Hb & He' & Herr).
    exists m', e'. split; [done|]. split; [done|].
    rewrite !Z.mul_1_r, Z.mul_1_l in Herr. split; [|done].
    apply bounded_shape in Hb as (Hrange' & Hhi & Hnormal').
    unfold SpecFloat.emin in Hrange', Hnormal'.
    change (2 ^ (24 - 1)) with (2 ^ 23) in Hnormal'. apply Hnormal'.
    destruct (decide (e' = 3 - 128 - 24)) as [->|]; [|lia]. exfalso.
    change (2 ^ (3 - 128 - 24 + 1074)) with (2 ^ 925) in Herr.
    assert (2 ^ 24 * 2 ^ 925 + 2 ^ 925 < 2 ^ 974) by reflexivity.
    set (P := 2 ^ 925) in *. clearbody P. nia.
Qed.

(** A nonzero int16 divided in float32 by a normal float32 between [2^-101]
    and [2^101]: the quotient is a normal float32, within [2^-24] of itself
    of the exact quotient. *)
Lemma div32_error (q : Z) (sx : bool) (mx my : positive) (ex ey : Z) :
  1 ≤ q ≤ 32768 →
  -23 ≤ ex ≤ 0 → Z.pos mx = q * 2 ^ (- ex) → 2 ^ 23 ≤ Z.pos mx < 2 ^ 24 →
  bounded 24 128 my ey = true → 2 ^ 23 ≤ Z.pos my →
  2 ^ 973 ≤ Z.pos my * 2 ^ (ey + 1074) ≤ 2 ^ 1175 →
  ∃ mz ez,
    div32 (S754_finite sx mx ex) (S754_finite false my ey) = S754_finite sx mz ez
    ∧ bounded 24 128 mz ez = true
    ∧ 2 ^ 24 * Z.abs (Z.pos mz * 2 ^ (ez + 1074) * (Z.pos my * 2 ^ (ey + 1074)) - q * 2 ^ 2148)
      ≤ Z.pos mz * 2 ^ (ez + 1074) * (Z.pos my * 2 ^ (ey + 1074)).
Proof.
  intros Hq Hex Hmx Hxshape Hby Hynormal Hyrange.
  apply bounded_shape in Hby as (Hey & Hyhi & _). unfold SpecFloat.emin in Hey.
  assert (0 < 2 ^ (ey + 1074)) as HPY by (apply Z.pow_pos_nonneg; lia).
  assert (-125 < ey ≤ 78) as Hey'.
  { split.
    - destruct (Z.lt_ge_cases (-125) ey) as [|Hle]; [done|]. exfalso.
      assert (2 ^ (ey + 1074) ≤ 2 ^ 949) by (apply Z.pow_le_mono_r; lia).
      assert (2 ^ 24 * 2 ^ 949 = 2 ^ 973) by reflexivity. nia.
    - destruct (Z.le_gt_cases ey 78) as [|Hgt]; [done|]. exfalso.
      assert (2 ^ 1153 ≤ 2 ^ (ey + 1074)) by (apply Z.pow_le_mono_r; lia).
      assert (2 ^ 23 * 2 ^ 1153 = 2 * 2 ^ 1175) by reflexivity.
      assert (0 < 2 ^ 1175) by (apply Z.pow_pos_nonneg; lia). nia. }
  unfold div32.
  pose proof (SFdiv_finite_error 24 128 ltac:(lia) sx false mx my ex ey 1074) as Hdiv.
  cbv zeta in Hdiv.
  rewrite (Zdigits2_eq (Z.pos mx) 24), (Zdigits2_eq (Z.pos my) 24) in Hdiv
    by (replace (24 - 1) with 23 by lia; lia).
  set (e := Z.min (fexp 24 128 (24 + ex - (24 + ey))) (ex - ey)) in *.
  assert (-149 ≤ e ≤ ex - ey) as He by (unfold e, fexp, SpecFloat.emin; lia).
  specialize (Hdiv ltac:(lia)).
  set (A := Z.pos mx * 2 ^ (ex - ey - e)) in *.
  assert (A * 2 ^ (e + 1074) = Z.pos mx * 2 ^ (ex - ey + 1074)) as HA.
  { unfold A. rewrite <- Z.mul_assoc, <- Z.pow_add_r by lia. f_equal. f_equal. lia. }
  assert (Z.pos mx * 2 ^ (ex - ey + 1074) * 2 ^ (ey + 1074) = q * 2 ^ 2148) as Hid.
  { rewrite Hmx, <- !Z.mul_assoc, <- !Z.pow_add_r by lia. f_equal. f_equal. lia. }
  rewrite HA in Hdiv.
  assert (0 < 2 ^ 2148) as HW by (apply Z.pow_pos_nonneg; lia).
  rewrite xorb_false_r in Hdiv.
  destruct (SFdiv 24 128 (S754_finite sx mx ex) (S754_finite false my ey))
    as [s|s| |s mz ez].
  - (* the quotient is not zero *)
    exfalso. change (SpecFloat.emin 24 128 + 1074) with 925 in Hdiv.
    assert (2 ^ 1175 * 2 ^ 925 < 2 ^ 2148) by reflexivity.
    assert (0 < 2 ^ 925) by (apply Z.pow_pos_nonneg; lia).
    assert (2 * (Z.pos mx * 2 ^ (ex - ey + 1074)) * 2 ^ (ey + 1074)
            ≤ Z.pos my * 2 ^ 925 * 2 ^ (ey + 1074)) as Hmul
      by (apply Z.mul_le_mono_nonneg_r; lia).
    set (PX := 2 ^ (ex - ey + 1074)) in *. set (PY := 2 ^ (ey + 1074)) in *.
    set (W := 2 ^ 2148) in *. set (a := 2 ^ 1175) in *. set (b := 2 ^ 925) in *.
    clearbody PX PY W a b. nia.
  - (* nor an infinity *)
    exfalso.
    assert (0 ≤ ex - ey - e) as Hs by lia.
    pose proof (Zdigits2_div_le (Z.pos mx) (Z.pos my) (ex - ey - e) ltac:(lia) ltac:(lia) Hs)
      as Hd.
    rewrite (Zdigits2_eq (Z.pos mx) 24), (Zdigits2_eq (Z.pos my) 24) in Hd
      by (replace (24 - 1) with 23 by lia; lia).
    fold A in Hd. specialize (Hd ltac:(lia)).
    unfold fexp, SpecFloat.emin in Hdiv. lia.
  - done.
  - destruct Hdiv as (-> & Hb & He' & Herr).
    exists mz, ez. split; [done|]. split; [done|].
    apply bounded_shape in Hb as (Hez & Hzhi & Hznormal).
    unfold SpecFloat.emin in Hez, Hznormal.
    change (2 ^ (24 - 1)) with (2 ^ 23) in Hznormal.
    assert (0 < 2 ^ (ez + 1074)) as HPZ by (apply Z.pow_pos_nonneg; lia).
    set (PX := 2 ^ (ex - ey + 1074)) in *. set (PY := 2 ^ (ey + 1074)) in *.
    set (PZ := 2 ^ (ez + 1074)) in *.
    assert (2 * Z.abs (Z.pos mz * PZ * (Z.pos my * PY) - q * 2 ^ 2148) ≤ Z.pos my * PY * PZ)
      as Herr'.
    { rewrite <- Hid.
      replace (Z.pos mz * PZ * (Z.pos my * PY) - Z.pos mx * PX * PY)
        with ((Z.pos mz * Z.pos my * PZ - Z.pos mx * PX) * PY) by ring.
      rewrite Z.abs_mul, (Z.abs_eq PY) by lia.
      replace (Z.pos my * PY * PZ) with (Z.pos my * PZ * PY) by ring.
      rewrite Z.mul_assoc. apply Z.mul_le_mono_nonneg_r; lia. }
    assert (2 ^ 23 ≤ Z.pos mz) as Hnormal.
    { apply Hznormal. destruct (decide (ez = 3 - 128 - 24)) as [Heq|]; [|lia]. exfalso.
      assert (PZ = 2 ^ 925) as HPZeq by (unfold PZ; by rewrite Heq).
      assert ((2 ^ 24 * 2 ^ 925 + 2 ^ 925) * 2 ^ 1175 < 2 ^ 2148) by reflexivity.
      clear Hid Herr HA.
      set (W := 2 ^ 2148) in *. set (a := 2 ^ 1175) in *. set (b := 2 ^ 925) in *.
      set (Ty := Z.pos my * PY) in *.
      clearbody PX PY PZ W a b Ty. subst PZ. nia. }
    clear Hid Herr HA. set (W := 2 ^ 2148) in *.
    set (Ty := Z.pos my * PY) in *. change (2 ^ 24) with 16777216 in *.
    change (2 ^ 23) with 8388608 in *.
    assert (0 < Ty) by (unfold Ty; lia).
    clearbody PX PY PZ W Ty. nia.
Qed.

(** The arithmetic of the round trip, on the exact values counted in units
    of [2^-1074] ([U] is [2^1074]): [TS], [T32] the scale and its float32, [P]
    the unit in the last place of [T32], [Tp] the product, [n] its rounding,
    [Tz] the magnitude of the quotient, [Td] the delta. *)
Lemma round_trip_arith (U VU Tp Td TS T32 P Tz n : Z) :
  0 < U → 137438953472 * VU = U * U → 0 < TS → 0 ≤ Tz →
  -32768 ≤ n ≤ 32767 →
  2 * Z.abs (Tp * U - Td * TS) ≤ VU →
  2 * Z.abs (n * U - Tp) ≤ U →
  2 * Z.abs (T32 - TS) ≤ P → 8388608 * P ≤ T32 →
  16777216 * Z.abs (Tz * T32 - Z.abs n * (U * U)) ≤ Tz * T32 →
  128 * (Z.abs (cond_Zopp (n <? 0) Tz - Td) * TS) ≤ 65 * (U * U).
Proof.
  intros HU HV HTS HTz Hn Hprod Hnear Herr32 Hulp32 Herrz.
  assert (0 < U * U) as HW by (apply Z.mul_pos_pos; lia).
  assert (2 * Z.abs (n * (U * U) - Tp * U) ≤ U * U) as Hnear'.
  { replace (n * (U * U) - Tp * U) with ((n * U - Tp) * U) by ring.
    rewrite Z.abs_mul, (Z.abs_eq U) by lia.
    rewrite Z.mul_assoc. apply Z.mul_le_mono_nonneg_r; lia. }
  set (r := cond_Zopp (n <? 0) Tz).
  assert (Z.abs r = Tz) as Hr by (unfold r; destruct (n <? 0); cbn [cond_Zopp]; lia).
  assert (Z.abs (r * T32 - n * (U * U)) = Z.abs (Tz * T32 - Z.abs n * (U * U))) as Hsign.
  { unfold r. destruct (Z.ltb_spec n 0); cbn [cond_Zopp]; [|by rewrite (Z.abs_eq n) by lia].
    replace (- Tz * T32 - n * (U * U)) with (- (Tz * T32 - - n * (U * U))) by ring.
    rewrite Z.abs_opp. f_equal. f_equal. f_equal. lia. }
  assert (16777216 * Z.abs (r * T32 - r * TS) ≤ Tz * T32) as Hnarrow.
  { replace (r * T32 - r * TS) with (r * (T32 - TS)) by ring.
    rewrite Z.abs_mul, Hr.
    rewrite Z.mul_assoc, (Z.mul_comm 16777216 Tz), <- Z.mul_assoc.
    apply Z.mul_le_mono_nonneg_l; lia. }
  assert (Z.abs (r - Td) * TS = Z.abs (r * TS - Td * TS)) as ->.
  { rewrite <- Z.mul_sub_distr_r, Z.abs_mul, (Z.abs_eq TS) by lia. done. }
  assert (Tz * T32 = Z.abs (r * T32)) as Hzt
    by (rewrite Z.abs_mul, Hr, (Z.abs_eq T32); [done|lia]).
  rewrite <- Hsign in Herrz.
  assert (Z.abs (n * (U * U)) ≤ 32768 * (U * U)) as HN.
  { rewrite Z.abs_mul, (Z.abs_eq (U * U)) by lia. apply Z.mul_le_mono_nonneg_r; lia. }
  set (zt := Tz * T32) in *. set (a := r * T32) in *. set (b := r * TS) in *.
  set (c := Td * TS) in *. set (pU := Tp * U) in *. set (N := n * (U * U)) in *.
  set (W := U * U) in *.
  clearbody zt a b c pU N W. clear - HV HW Hprod Hnear' Herrz Hnarrow Hzt HN. lia.
Qed.

(** The float32 of a scale between [2^-100] and [2^100] lies between [2^-101]
    and [2^101]. *)
Lemma narrowed_range (TS T32 P : Z) :
  2 ^ 974 ≤ TS ≤ 2 ^ 1174 →
  2 * Z.abs (T32 - TS) ≤ P → 8388608 * P ≤ T32 →
  2 ^ 973 ≤ T32 ≤ 2 ^ 1175.
Proof.
  assert (2 ^ 974 = 2 * 2 ^ 973) as -> by reflexivity.
  assert (2 ^ 1175 = 2 * 2 ^ 1174) as -> by reflexivity.
  assert (0 < 2 ^ 973) by (apply Z.pow_pos_nonneg; lia). lia.
Qed.

Lemma round_trip_scaled_ticks (sc d : float) :
  2 ^ 974 ≤ ticks sc ≤ 2 ^ 1174 →
  unclipped sc d →
  np_isfinite d = true
  ∧ np_isfinite (round_trip sc d) = true
  ∧ 128 * (Z.abs (ticks (round_trip sc d) - ticks d) * ticks sc) ≤ 65 * (2 ^ 1074 * 2 ^ 1074).
Proof.
  intros HS (n & Hround & Hn). unfold round_trip.
  rewrite (quantize_unclipped _ _ _ Hround Hn).
  assert (0 < 2 ^ 974) as H974 by (apply Z.pow_pos_nonneg; lia).
  assert (0 < ticks sc) as HTSpos by lia.
  assert (∃ mS eS, Prim2SF sc = S754_finite false mS eS) as (mS & eS & HSF).
  { clear - HTSpos. unfold ticks in HTSpos. pose proof (Prim2SF_valid sc) as Hv.
    destruct (Prim2SF sc) as [?|?| |[|] mS eS]; try lia; [|by exists mS, eS].
    apply valid_finite_shape in Hv as (He & _ & _).
    assert (0 < 2 ^ (eS + 1074)) by (apply Z.pow_pos_nonneg; lia).
    cbn [cond_Zopp] in HTSpos. nia. }
  destruct (product_error sc d mS eS n HSF Hround Hn) as [Hfin Hprod].
  pose proof (np_round_error _ _ Hround) as Hnear.
  assert (ticks sc = Z.pos mS * 2 ^ (eS + 1074)) as HTS by (unfold ticks; by rewrite HSF).
  destruct (to_float32_error sc false mS eS HSF ltac:(by rewrite <- HTS))
    as (m32 & e32 & H32 & Hb32 & Hn32 & Herr32).
  rewrite <- HTS in Herr32.
  split; [done|]. unfold dequantize. rewrite H32.
  assert (0 < 2 ^ 1074) as HU by (apply Z.pow_pos_nonneg; lia).
  assert (137438953472 * (2 ^ 1037 * 2 ^ 1074) = 2 ^ 1074 * 2 ^ 1074) as HV by reflexivity.
  apply bounded_shape in Hb32 as Hshape32. destruct Hshape32 as (He32 & _ & _).
  unfold SpecFloat.emin in He32.
  assert (8388608 * 2 ^ (e32 + 1074) ≤ Z.pos m32 * 2 ^ (e32 + 1074)) as Hulp32.
  { apply Z.mul_le_mono_nonneg_r; [apply Z.pow_nonneg; lia|done]. }
  destruct (decide (n = 0)) as [->|Hn0].
  - change (div32 (int16_to_float32 0) (S754_finite false m32 e32)) with (S754_zero false).
    change (float32_to_float64 (S754_zero false)) with 0%float.
    split; [reflexivity|]. change (ticks 0) with (cond_Zopp (0 <? 0) 0).
    apply (round_trip_arith _ _ _ _ _ _ _ 0 0 HU HV HTSpos ltac:(done) Hn Hprod Hnear
             Herr32 Hulp32).
    cbn. lia.
  - destruct (int16_to_float32_exact n Hn0 Hn) as (mx & ex & -> & Hex & Hmx & Hxshape).
    destruct (div32_error (Z.abs n) (n <? 0) mx m32 ex e32 ltac:(lia) Hex Hmx Hxshape Hb32 Hn32
                (narrowed_range _ _ _ HS Herr32 Hulp32))
      as (mz & ez & -> & Hbz & Herrz).
    destruct (float32_to_float64_exact (n <? 0) mz ez Hbz) as [Hfinz ->].
    split; [done|].
    change (2 ^ 2148) with (2 ^ 1074 * 2 ^ 1074) in Herrz.
    refine (round_trip_arith _ _ _ _ _ _ _ _ _ HU HV HTSpos _ Hn Hprod Hnear Herr32 Hulp32 Herrz).
    apply Z.mul_nonneg_nonneg; [done|apply Z.pow_nonneg; lia].
Qed.

(** C5, as the code has it: at a scale [S] that float32 holds as a normal
    number (here [2^-100 <= S <= 2^100]; the notebook's is [1e4]), a delta
    whose rounded product is not clipped comes back from the float32 division
    as a finite double within [(0.5 + 2^-7) / S] of itself: half a
    quantization step, plus the rounding of the binary64 product, of the scale
    to float32 and of the float32 quotient. *)
Theorem quantization_round_trip (sc d : float) :
  (1 # 2 ^ 100 <= value sc)%Q → (value sc <= 2 ^ 100 # 1)%Q →
  unclipped sc d →
  np_isfinite d = true
  ∧ np_isfinite (round_trip sc d) = true
  ∧ (Qabs (value (round_trip sc d) - value d) * value sc <= (1 # 2) + (1 # 128))%Q.
Proof.
  intros Hlo Hhi Hd.
  assert (Z.pos (2 ^ 1074) = 2 ^ 1074) as HU by (by rewrite Pos2Z.inj_pow).
  assert (Z.pos (2 ^ 100) = 2 ^ 100) as H100 by (by rewrite Pos2Z.inj_pow).
  assert (2 ^ 1074 = 2 ^ 974 * 2 ^ 100) as Hsplit by reflexivity.
  assert (2 ^ 1174 = 2 ^ 100 * 2 ^ 1074) as Hsplit' by reflexivity.
  assert (0 < 2 ^ 100) as Hp100 by (apply Z.pow_pos_nonneg; lia).
  assert (0 < 2 ^ 1074) as HpU by (apply Z.pow_pos_nonneg; lia).
  unfold value, Qle in Hlo, Hhi. cbn [Qnum Qden] in Hlo, Hhi.
  rewrite HU, ?H100 in Hlo, Hhi.
  destruct (round_trip_scaled_ticks sc d) as (Hfd & Hfr & Hticks); [|done|].
  { change (Z.pos 1) with 1 in Hhi. nia. }
  split; [done|]. split; [done|].
  unfold value. set (a := ticks (round_trip sc d)) in *.
  set (b := ticks d) in *. set (c := ticks sc) in *.
  set (P := (2 ^ 1074)%positive) in *.
  unfold Qle, Qabs, Qminus, Qplus, Qopp, Qmult. cbn [Qnum Qden].
  rewrite !Pos2Z.inj_mul, HU.
  replace (a * 2 ^ 1074 + - b * 2 ^ 1074) with ((a - b) * 2 ^ 1074) by ring.
  rewrite Z.abs_mul, (Z.abs_eq (2 ^ 1074)) by lia.
  change (Z.pos (2 * 128)) with 256. change (1 * Z.pos 128 + 1 * Z.pos 2) with 130.
  assert (0 ≤ c) by nia.
  set (u := 2 ^ 1074) in *. clearbody u. nia.
Qed.

(** ** The two seed samples through steps 5 to 7 *)

Lemma SFeqb_refl_finite (f : spec_float) :
  match f with S754_zero _ | S754_finite _ _ _ => True | _ => False end →
  SFeqb f f = true.
Proof.
  destruct f as [s|s| |s m e]; try done. intros _. unfold SFeqb. cbn [SFcompare].
  rewrite Z.compare_refl, Pos.compare_cont_refl. by destruct s.
Qed.

(** Adding the zero prediction to a finite sample, taking the delta and
    adding the dequantized zero back, on the specification of binary64. *)
Lemma seed_arithmetic (x : float) :
  np_isfinite x = true →
  (x + 0 =? x)%float = true
  ∧ (∃ s, Prim2SF (x - (x + 0)) = S754_zero s)
  ∧ (x + 0 + 0 =? x)%float = true
  ∧ (Prim2SF x ≠ S754_zero true → (x + 0)%float = x ∧ (x + 0 + 0)%float = x).
Proof.
  unfold np_isfinite. intros Hfin.
  assert (Prim2SF x ≠ S754_zero true → Prim2SF (x + 0) = Prim2SF x) as Hsame.
  { rewrite add_spec. change (Prim2SF 0) with (S754_zero false).
    destruct (Prim2SF x) as [[|]| | |]; done. }
  split; [|split; [|split]].
  4: { intros Hx. specialize (Hsame Hx). apply Prim2SF_inj in Hsame.
       by rewrite !Hsame. }
  all: rewrite ?FloatAxioms.eqb_spec, ?sub_spec, ?add_spec.
  all: change (Prim2SF 0) with (S754_zero false).
  all: destruct (Prim2SF x) as [s|s| |s m e]; try discriminate.
  all: try (destruct s; cbn; by eauto).
  all: change (SF64add (S754_finite s m e) (S754_zero false)) with (S754_finite s m e).
  - by apply SFeqb_refl_finite.
  - exists false. unfold SF64sub, SFsub. by rewrite Z.sub_diag.
  - change (SF64add (S754_finite s m e) (S754_zero false)) with (S754_finite s m e).
    by apply SFeqb_refl_finite.
Qed.

Lemma quantize_zero (d : float) (s : bool) :
  Prim2SF d = S754_zero s → quantize scale d = 0.
Proof.
  intros Hd. unfold quantize, np_round. rewrite mul_spec, Hd.
  change (Prim2SF scale) with (S754_finite false 5497558138880000 (-39)).
  reflexivity.
Qed.

Lemma dequantize_zero : float32_to_float64 (dequantize scale 0) = 0%float.
Proof. reflexivity. Qed.

Lemma seed_exact (logistic_signal base pred : list float) (i : nat) (x : float) :
  logistic_signal !! i = Some x →
  np_isfinite x = true →
  base !! i = Some x →
  pred !! i = Some 0%float →
  let hybrid := base_plus_mirror base pred in
  let dq := delta_q scale (delta logistic_signal hybrid) in
  exact_at_seed logistic_signal hybrid (reconstructed_final scale hybrid dq) dq i.
Proof.
  intros Hx Hfin Hbase Hpred hybrid dq.
  destruct (seed_arithmetic x Hfin) as (Hh & [s Hd] & Hf & Hbits).
  assert (hybrid !! i = Some (x + 0)%float) as Hhyb.
  { unfold hybrid, base_plus_mirror. by rewrite lookup_zip_with, Hbase, Hpred. }
  assert (dq !! i = Some 0) as Hdq.
  { unfold dq, delta_q, delta.
    rewrite list_lookup_fmap, lookup_zip_with, Hx, Hhyb. cbn.
    by rewrite (quantize_zero _ s Hd). }
  exists x, (x + 0)%float, (x + 0 + 0)%float.
  repeat (split; [done|]). split; [|done].
  unfold reconstructed_final.
  by rewrite lookup_zip_with, Hhyb, list_lookup_fmap, Hdq.
Qed.

(** ** The cell as a whole *)

Lemma unpack3_Some (l : list float) (a b c : float) :
  unpack3 l = Some (a, b, c) → l = [a; b; c].
Proof. destruct l as [|? [|? [|? [|]]]]; cbn; congruence. Qed.

Lemma unpack2_Some (l : list float) (a b : float) :
  unpack2 l = Some (a, b) → l = [a; b].
Proof. destruct l as [|? [|? [|]]]; cbn; congruence. Qed.

Lemma lookup_transposed3 {A} (c1 c2 c3 : list A) (i : nat) (a b c : A) :
  c1 !! i = Some a → c2 !! i = Some b → c3 !! i = Some c →
  transposed [c1; c2; c3] !! i = Some [a; b; c].
Proof.
  intros H1 H2 H3. cbn [transposed].
  rewrite !lookup_zip_with, H1, H2, list_lookup_fmap, H3. done.
Qed.

(** C10: on a finite signal of length at least 3, whatever the two fitted
    models are, the hybrid equals the signal at indices 0 and 1 (the base copies
    the seeds and the prediction there is zero), the stored delta there is 0
    and the final signal equals the signal there; the same holds of every
    result the whole cell returns. *)
Theorem seeds_reconstructed_exactly W1 W2 W3 b R1 R2 Rb (logistic_signal : list float) :
  (3 ≤ length logistic_signal)%nat →
  Forall (λ x, np_isfinite x = true) logistic_signal →
  (∃ base pred,
     reconstructed_base W1 W2 W3 b logistic_signal = Some base
     ∧ resid_pred R1 R2 Rb logistic_signal = Some pred
     ∧ let hybrid := base_plus_mirror base pred in
       let dq := delta_q scale (delta logistic_signal hybrid) in
       let final := reconstructed_final scale hybrid dq in
       exact_at_seed logistic_signal hybrid final dq 0
       ∧ exact_at_seed logistic_signal hybrid final dq 1)
  ∧ (∀ out, notebook logistic_signal = Some out →
       exact_at_seed logistic_signal (c_hybrid out) (c_final out) (c_delta_q out) 0
       ∧ exact_at_seed logistic_signal (c_hybrid out) (c_final out) (c_delta_q out) 1).
Proof.
  intros HN Hfin.
  destruct (lookup_lt_is_Some_2 logistic_signal 0) as [x0 H0]; [lia|].
  destruct (lookup_lt_is_Some_2 logistic_signal 1) as [x1 H1]; [lia|].
  pose proof (Forall_lookup_1 _ _ _ _ Hfin H0) as Hfin0.
  pose proof (Forall_lookup_1 _ _ _ _ Hfin H1) as Hfin1.
  assert (∀ V1 V2 V3 c S1 S2 Sb base pred,
            reconstructed_base V1 V2 V3 c logistic_signal = Some base →
            resid_pred S1 S2 Sb logistic_signal = Some pred →
            base !! 0%nat = Some x0 ∧ base !! 1%nat = Some x1
            ∧ pred !! 0%nat = Some 0%float ∧ pred !! 1%nat = Some 0%float) as Hseeds.
  { intros V1 V2 V3 c S1 S2 Sb base pred Hbase Hpred.
    unfold reconstructed_base in Hbase. rewrite H0, H1 in Hbase. cbn in Hbase.
    destruct (base_loop_spec V1 V2 V3 c (length logistic_signal - 2) [x0; x1])
      as (out & Hrun & _ & Hkeep & _); [cbn; lia|].
    rewrite Hrun in Hbase. injection Hbase as <-.
    unfold resid_pred in Hpred.
    destruct (raw_resid_pred S1 S2 Sb logistic_signal) as [raw|]; [|done].
    injection Hpred as <-.
    rewrite !Hkeep by (cbn; lia). done. }
  split.
  - destruct (base_loop_spec W1 W2 W3 b (length logistic_signal - 2) [x0; x1])
      as (base & Hrun & _); [cbn; lia|].
    destruct (raw_resid_pred_spec R1 R2 Rb logistic_signal) as (raw & Hraw & _).
    assert (reconstructed_base W1 W2 W3 b logistic_signal = Some base) as Hbase.
    { unfold reconstructed_base. by rewrite H0, H1. }
    assert (resid_pred R1 R2 Rb logistic_signal = Some ([0%float; 0%float] ++ mirrored raw))
      as Hpred.
    { unfold resid_pred. by rewrite Hraw. }
    destruct (Hseeds _ _ _ _ _ _ _ _ _ Hbase Hpred) as (Hb0 & Hb1 & Hp0 & Hp1).
    exists base, ([0%float; 0%float] ++ mirrored raw).
    split; [done|]. split; [done|].
    split; [by apply (seed_exact _ _ _ 0%nat x0) | by apply (seed_exact _ _ _ 1%nat x1)].
  - intros out. unfold notebook, chaos_codec. intros Hrun.
    destruct (henon_model logistic_signal) as [henon|]; [|done]. cbn in Hrun.
    destruct (unpack3 (coef_ henon)) as [[[V1 V2] V3]|]; [|done]. cbn in Hrun.
    destruct (reconstructed_base V1 V2 V3 (intercept_ henon) logistic_signal)
      as [base|] eqn:Hbase; [|done]. cbn in Hrun.
    destruct (residual_model logistic_signal (residuals logistic_signal base))
      as [mirror|]; [|done]. cbn in Hrun.
    destruct (unpack2 (coef_ mirror)) as [[S1 S2]|]; [|done]. cbn in Hrun.
    destruct (resid_pred S1 S2 (intercept_ mirror) logistic_signal)
      as [pred|] eqn:Hpred; [|done]. cbn in Hrun.
    injection Hrun as <-. cbn [c_hybrid c_final c_delta_q].
    destruct (Hseeds _ _ _ _ _ _ _ _ _ Hbase Hpred) as (Hb0 & Hb1 & Hp0 & Hp1).
    split; [by apply (seed_exact _ _ _ 0%nat x0) | by apply (seed_exact _ _ _ 1%nat x1)].
Qed.




(** ** Further properties of the cell *)

(** The mirror model is fitted and applied on different pairs: the training
    row whose target is [residual[j]] holds [[x[j-2], x[j-1]]], while the
    prediction for sample [j] is [R1*x[j] + R2*x[j-1] + Rb]. *)
Theorem mirror_fitted_and_applied_on_different_pairs R1 R2 Rb
    (logistic_signal resid : list float) (j : nat) :
  length resid = length logistic_signal →
  (2 ≤ j < length logistic_signal)%nat →
  ∃ x_j2 x_j1 x_j r_j pred,
    logistic_signal !! (j - 2)%nat = Some x_j2
    ∧ logistic_signal !! (j - 1)%nat = Some x_j1
    ∧ logistic_signal !! j = Some x_j
    ∧ resid !! j = Some r_j
    ∧ rows (X_mirror logistic_signal) !! (length logistic_signal - 1 - j)%nat
      = Some [x_j2; x_j1]
    ∧ y_resid resid !! (length logistic_signal - 1 - j)%nat = Some r_j
    ∧ resid_pred R1 R2 Rb logistic_signal = Some pred
    ∧ pred !! j = Some (R1 * x_j + R2 * x_j1 + Rb)%float.
Proof.
  intros Hlen Hj. set (N := length logistic_signal) in *.
  destruct (lookup_lt_is_Some_2 logistic_signal (j - 2)) as [x_j2 H2]; [lia|].
  destruct (lookup_lt_is_Some_2 logistic_signal (j - 1)) as [x_j1 H1]; [lia|].
  destruct (lookup_lt_is_Some_2 logistic_signal j) as [x_j H0]; [lia|].
  destruct (lookup_lt_is_Some_2 resid j) as [r_j Hr]; [lia|].
  destruct (raw_resid_pred_spec R1 R2 Rb logistic_signal) as (raw & Hraw & Hrawlen & Hat).
  exists x_j2, x_j1, x_j, r_j, ([0%float; 0%float] ++ mirrored raw).
  repeat (split; [done|]). split; [|split; [|split]].
  - unfold X_mirror, vstack_T. cbn [rows]. apply lookup_transposed2.
    + rewrite lookup_mirrored by (rewrite length_all_but_last2; lia).
      rewrite length_all_but_last2, lookup_all_but_last2 by lia.
      rewrite <- H2. f_equal. lia.
    + rewrite lookup_mirrored by (rewrite length_inner; lia).
      rewrite length_inner, lookup_inner by lia.
      rewrite <- H1. f_equal. lia.
  - unfold y_resid. rewrite lookup_mirrored by (unfold from2; rewrite length_drop; lia).
    rewrite lookup_from2. unfold from2. rewrite length_drop.
    rewrite <- Hr. f_equal. lia.
  - unfold resid_pred. by rewrite Hraw.
  - destruct (Hat (N - 1 - j)%nat) as (m1 & m2 & Hm1 & Hm2 & Hv); [lia|].
    rewrite lookup_mirrored in Hm1 by lia. rewrite lookup_mirrored in Hm2 by lia.
    fold N in Hm1, Hm2.
    replace (N - S (N - 1 - j))%nat with j in Hm1 by lia.
    replace (N - S (N - 1 - j + 1))%nat with (j - 1)%nat in Hm2 by lia.
    rewrite H0 in Hm1. rewrite H1 in Hm2. apply (inj Some) in Hm1, Hm2. subst m1 m2.
    rewrite lookup_app_r by (cbn; lia). cbn [length].
    rewrite lookup_mirrored by lia. rewrite <- Hv. f_equal. lia.
Qed.

(** Apart from the two fits, nothing in steps 2 to 7 and 9 fails on a signal
    of at least two samples: when the base fit returns a model of three
    coefficients, and the mirror fit of this run (on the residuals of the base
    array those coefficients give) one of two, the cell returns its arrays,
    all of the signal's length. *)
Theorem chaos_codec_returns (scale0 : float) (logistic_signal : list float)
    (henon : linear_model) (W1 W2 W3 : float) :
  (2 ≤ length logistic_signal)%nat →
  henon_model logistic_signal = Some henon →
  coef_ henon = [W1; W2; W3] →
  (∀ base, reconstructed_base W1 W2 W3 (intercept_ henon) logistic_signal = Some base →
     ∃ m, residual_model logistic_signal (residuals logistic_signal base) = Some m
          ∧ length (coef_ m) = 2%nat) →
  ∃ out, chaos_codec scale0 logistic_signal = Some out
    ∧ length (c_base out) = length logistic_signal
    ∧ length (c_resid_pred out) = length logistic_signal
    ∧ length (c_hybrid out) = length logistic_signal
    ∧ length (c_delta_q out) = length logistic_signal
    ∧ length (c_final out) = length logistic_signal.
Proof.
  intros HN Hhenon Hcoef Hmirror. unfold chaos_codec. rewrite Hhenon.
  cbn [mbind option_bind]. rewrite Hcoef. cbn [mbind option_bind unpack3].
  destruct (lookup_lt_is_Some_2 logistic_signal 0) as [x0 H0]; [lia|].
  destruct (lookup_lt_is_Some_2 logistic_signal 1) as [x1 H1]; [lia|].
  destruct (base_loop_spec W1 W2 W3 (intercept_ henon) (length logistic_signal - 2) [x0; x1])
    as (base & Hbase & Hbaselen & _); [cbn; lia|].
  assert (reconstructed_base W1 W2 W3 (intercept_ henon) logistic_signal = Some base)
    as Hrec by (unfold reconstructed_base; by rewrite H0, H1).
  rewrite Hrec. cbn [mbind option_bind].
  destruct (Hmirror base Hrec) as (mirror & Hfit & Hwidth').
  rewrite Hfit. cbn [mbind option_bind].
  destruct (coef_ mirror) as [|S1 [|S2 [|]]] eqn:Hcoef'; try done.
  cbn [mbind option_bind unpack2].
  destruct (raw_resid_pred_spec S1 S2 (intercept_ mirror) logistic_signal)
    as (raw & Hraw & Hrawlen & _).
  unfold resid_pred. rewrite Hraw. cbn [mbind option_bind].
  eexists. split; [done|]. cbn [c_base c_resid_pred c_hybrid c_delta_q c_final].
  assert (length base = length logistic_signal) as Hb by (cbn [length] in Hbaselen; lia).
  assert (length ([0%float; 0%float] ++ mirrored raw) = length logistic_signal) as Hp.
  { rewrite length_app, length_mirrored. cbn [length]. lia. }
  unfold reconstructed_final, delta_q, delta, base_plus_mirror.
  rewrite ?length_zip_with, ?length_fmap, ?length_zip_with, Hb, Hp. lia.
Qed.

(** The logistic map of step 1 returns [max 1 n] samples, starting at [x0],
    each next one being [r * x * (1 - x)] of its predecessor. *)
Lemma logistic_loop_spec (r : float) (n : nat) : ∀ acc : list float,
  (1 ≤ length acc)%nat →
  ∃ x, logistic_loop r n acc = Some x
    ∧ length x = (length acc + n)%nat
    ∧ (∀ i, (i < length acc)%nat → x !! i = acc !! i)
    ∧ (∀ i, (length acc ≤ S i < length acc + n)%nat →
         ∃ xi, x !! i = Some xi ∧ x !! S i = Some (r * xi * (1 - xi))%float).
Proof.
  induction n as [|n IH]; intros acc Hacc.
  - exists acc. cbn. split; [done|]. split; [lia|]. split; [done|]. intros; lia.
  - cbn [logistic_loop]. rewrite from_end_lookup by lia.
    destruct (lookup_lt_is_Some_2 acc (length acc - 1)) as [last Hlast]; [lia|].
    rewrite Hlast. cbn.
    destruct (IH (acc ++ [(r * last * (1 - last))%float])) as (x & Hrun & Hlen & Hkeep & Hstep).
    { rewrite length_app. cbn. lia. }
    rewrite length_app in Hlen, Hkeep, Hstep. cbn [length] in Hlen, Hkeep, Hstep.
    exists x. split; [done|]. split; [lia|]. split.
    + intros i Hi. rewrite Hkeep by lia. by rewrite lookup_app_l.
    + intros i Hi. destruct (decide (S i = length acc)) as [Heq|Hne].
      * exists last. rewrite !Hkeep by lia.
        rewrite lookup_app_l by lia. rewrite lookup_app_r by lia.
        replace (S i - length acc)%nat with 0%nat by lia.
        split; [|done]. rewrite <- Hlast. f_equal. lia.
      * apply Hstep. lia.
Qed.

Theorem logistic_map_recurrence (r x0 : float) (n : nat) :
  ∃ x, logistic_map r x0 n = Some x
    ∧ length x = Nat.max 1 n
    ∧ x !! 0%nat = Some x0
    ∧ (∀ i, (S i < length x)%nat →
         ∃ xi, x !! i = Some xi ∧ x !! S i = Some (r * xi * (1 - xi))%float).
Proof.
  unfold logistic_map.
  destruct (logistic_loop_spec r (n - 1) [x0]) as (x & Hrun & Hlen & Hkeep & Hstep);
    [cbn; lia|].
  cbn [length] in Hlen, Hkeep, Hstep.
  exists x. split; [done|]. split; [lia|]. split; [by rewrite Hkeep by lia|].
  intros i Hi. apply Hstep. lia.
Qed.

(** ** The training set of the base model (step 2) *)

(** The base model is trained on the arrangement that step 3 applies: row [t]
    of [X] is [[x[t], x[t+1], x[t+1]*x[t+1]]] and its target is [x[t+2]].
    There are [N - 2] rows of three features, none when the signal has fewer
    than three samples. *)
Theorem henon_training_rows (logistic_signal : list float) :
  n_features (X logistic_signal) = 3%nat
  ∧ length (rows (X logistic_signal)) = (length logistic_signal - 2)%nat
  ∧ length (y logistic_signal) = (length logistic_signal - 2)%nat
  ∧ ∀ t, (t < length logistic_signal - 2)%nat →
      ∃ a b c,
        logistic_signal !! t = Some a
        ∧ logistic_signal !! (t + 1)%nat = Some b
        ∧ logistic_signal !! (t + 2)%nat = Some c
        ∧ rows (X logistic_signal) !! t = Some [a; b; (b * b)%float]
        ∧ y logistic_signal !! t = Some c.
Proof.
  split; [done|]. split; [|split].
  - unfold X, vstack_T. cbn [rows transposed].
    rewrite !length_zip_with, !length_fmap, length_all_but_last2, length_inner. lia.
  - unfold y, from2. rewrite length_drop. lia.
  - intros t Ht.
    destruct (lookup_lt_is_Some_2 logistic_signal t) as [a Ha]; [lia|].
    destruct (lookup_lt_is_Some_2 logistic_signal (t + 1)) as [b Hb]; [lia|].
    destruct (lookup_lt_is_Some_2 logistic_signal (t + 2)) as [c Hc]; [lia|].
    exists a, b, c. repeat (split; [done|]). split.
    + unfold X, vstack_T. cbn [rows]. apply lookup_transposed3.
      * by rewrite lookup_all_but_last2.
      * rewrite lookup_inner by done. rewrite <- Hb. f_equal. lia.
      * rewrite list_lookup_fmap, lookup_inner by done.
        replace (S t) with (t + 1)%nat by lia. by rewrite Hb.
    + unfold y. rewrite lookup_from2. rewrite <- Hc. f_equal. lia.
Qed.

(** ** More on rounding to a binary format *)

Section Rounding.
Variables prec' emax' : Z.
Hypothesis prec_pos : 0 < prec'.
Hypothesis prec_lt_emax : prec' < emax'.

(** Rounding keeps the sign it is given. *)
Lemma binary_round_aux_sign (s : bool) (m e : Z) (l : location) :
  match binary_round_aux prec' emax' s m e l with
  | S754_zero s' | S754_infinity s' | S754_finite s' _ _ => s' = s
  | S754_nan => True
  end.
Proof.
  unfold binary_round_aux.
  destruct (shr_fexp prec' emax' m e l) as [mrs e1].
  destruct (shr_fexp prec' emax' _ e1 loc_Exact) as [mrs' e2].
  destruct (shr_m mrs'); [done| |done].
  by destruct (e2 <=? emax' - prec').
Qed.

(** [shl_align] moves the exponent down to the smaller of the two, keeping
    the value. *)
Lemma shl_align_spec (m : positive) (e e' : Z) :
  snd (shl_align m e e') = Z.min e e'
  ∧ Z.pos (fst (shl_align m e e')) = Z.pos m * 2 ^ (e - Z.min e e')
  ∧ Zdigits2 (Z.pos (fst (shl_align m e e'))) + Z.min e e' = Zdigits2 (Z.pos m) + e.
Proof.
  unfold shl_align. destruct (e' - e) as [|d|d] eqn:Hd; cbn [fst snd].
  - replace (Z.min e e') with e by lia. rewrite Z.sub_diag. cbn. lia.
  - replace (Z.min e e') with e by lia. rewrite Z.sub_diag. cbn. lia.
  - replace (Z.min e e') with e' by lia.
    destruct (shift_left_spec m d) as [Hval Hdig].
    replace (e - e') with (Z.pos d) by lia. lia.
Qed.

(** [binary_round] of [m * 2^e]: the result is a number of the format within
    half a unit of its last place; it is zero only below half the smallest
    number of the format, and infinite only from [2^(emax-1)] on. *)
Lemma binary_round_error (s : bool) (m : positive) (e K : Z) :
  0 ≤ e + K → 0 ≤ SpecFloat.emin prec' emax' + K →
  match binary_round prec' emax' s m e with
  | S754_zero s' =>
      s' = s ∧ 2 * (Z.pos m * 2 ^ (e + K)) ≤ 2 ^ (SpecFloat.emin prec' emax' + K)
  | S754_finite s' m' e' =>
      s' = s ∧ bounded prec' emax' m' e' = true
      ∧ 2 * Z.abs (Z.pos m' * 2 ^ (e' + K) - Z.pos m * 2 ^ (e + K)) ≤ 2 ^ (e' + K)
  | S754_infinity s' => s' = s ∧ 2 ^ (emax' - 1 + K) ≤ Z.pos m * 2 ^ (e + K)
  | S754_nan => False
  end.
Proof.
  intros HK Hmin. unfold binary_round.
  change (Z.pos (digits2_pos m)) with (Zdigits2 (Z.pos m)).
  set (d := Zdigits2 (Z.pos m)).
  destruct (shl_align_spec m e (fexp prec' emax' (d + e))) as (Hez & Hmz & Hdig).
  destruct (shl_align m e (fexp prec' emax' (d + e))) as [mz ez]. cbn [fst snd] in *.
  fold d in Hdig.
  assert (SpecFloat.emin prec' emax' ≤ fexp prec' emax' (d + e)) as Hfexp
    by (unfold fexp; lia).
  assert (Z.pos mz * 2 ^ (ez + K) = Z.pos m * 2 ^ (e + K)) as Hval.
  { rewrite Hmz, <- Z.mul_assoc, <- Z.pow_add_r by lia. f_equal. f_equal. lia. }
  pose proof (binary_round_aux_sign s (Z.pos mz) ez loc_Exact) as Hsign.
  pose proof (binary_round_aux_located prec' emax' prec_pos s (Z.pos mz) 1 ez loc_Exact K
                ltac:(lia) ltac:(lia)) as Hround.
  rewrite Z.div_1_r in Hround.
  specialize (Hround (Z.mod_1_r _) ltac:(rewrite Hez; replace (Zdigits2 (Z.pos mz) + Z.min e (fexp prec' emax' (d + e))) with (d + e) by lia; lia) ltac:(lia)).
  destruct (binary_round_aux prec' emax' s (Z.pos mz) ez loc_Exact) as [s'|s'| |s' m' e'].
  - split; [done|]. rewrite <- Hval. lia.
  - split; [done|].
    replace (Zdigits2 (Z.pos mz) + ez) with (d + e) in Hround by lia.
    assert (emax' ≤ d + e) as Hbig by (unfold fexp, SpecFloat.emin in Hround; lia).
    destruct (Zdigits2_bounds (Z.pos m) ltac:(lia)) as [[Hlo _] Hd]. fold d in Hlo, Hd.
    apply Z.le_trans with (2 ^ (d - 1) * 2 ^ (e + K)).
    + rewrite <- Z.pow_add_r by lia. apply Z.pow_le_mono_r; lia.
    + apply Z.mul_le_mono_nonneg_r; [apply Z.pow_nonneg; lia|done].
  - done.
  - destruct Hround as (-> & Hb & _ & Herr). split; [done|]. split; [done|].
    rewrite <- Hval. lia.
Qed.

(** Rounding an integer mantissa overflows only from [2^(emax-1)] on. *)
Lemma binary_round_aux_overflow (s s' : bool) (M : positive) (e K : Z) :
  0 ≤ e + K → e ≤ emax' - prec' →
  binary_round_aux prec' emax' s (Z.pos M) e loc_Exact = S754_infinity s' →
  2 ^ (emax' - 1 + K) ≤ Z.pos M * 2 ^ (e + K).
Proof.
  intros HK He Hinf.
  set (d := Zdigits2 (Z.pos M)).
  destruct (Z.le_gt_cases e (fexp prec' emax' (d + e))) as [Hshift|Hexact].
  - pose proof (binary_round_aux_located prec' emax' prec_pos s (Z.pos M) 1 e loc_Exact K
                  ltac:(lia) ltac:(lia)) as Hround.
    rewrite Z.div_1_r, Hinf in Hround.
    specialize (Hround (Z.mod_1_r _) Hshift HK). fold d in Hround.
    assert (emax' ≤ d + e) as Hbig by (unfold fexp, SpecFloat.emin in Hround; lia).
    destruct (Zdigits2_bounds (Z.pos M) ltac:(lia)) as [[Hlo _] Hd]. fold d in Hlo, Hd.
    apply Z.le_trans with (2 ^ (d - 1) * 2 ^ (e + K)).
    + rewrite <- Z.pow_add_r by lia. apply Z.pow_le_mono_r; lia.
    + apply Z.mul_le_mono_nonneg_r; [apply Z.pow_nonneg; lia|done].
  - rewrite (binary_round_aux_unshifted prec' emax' prec_pos) in Hinf by (fold d; lia).
    destruct (Z.leb_spec e (emax' - prec')); [discriminate|lia].
Qed.

(** Rounding the quotient [A / c] overflows only from the middle of the
    largest number of the format and [2^emax] on. *)
Lemma binary_round_aux_overflows (s s' : bool) (A c e : Z) (l : location) (K : Z) :
  0 < c → 0 ≤ A → located A c l →
  e ≤ fexp prec' emax' (Zdigits2 (A / c) + e) →
  0 ≤ e + K → 0 ≤ emax' - prec' + K →
  binary_round_aux prec' emax' s (A / c) e l = S754_infinity s' →
  c * (2 * 2 ^ (emax' + K) - 2 ^ (emax' - prec' + K)) ≤ 2 * (A * 2 ^ (e + K)).
Proof.
  intros Hc HA Hloc Hdigits HK HK' Hinf. unfold binary_round_aux in Hinf.
  rewrite shr_fexp_iter in Hinf.
  set (q := A / c) in *. set (d := Zdigits2 q) in *.
  set (n := Z.to_nat (fexp prec' emax' (d + e) - e)) in *.
  destruct (round_nearest_even_located A c l n Hc HA Hloc) as (Hm1 & Herr).
  fold q in Hm1, Herr.
  set (m1 := round_nearest_even _ _) in *.
  set (N := Z.of_nat n) in *.
  assert (N = fexp prec' emax' (d + e) - e) as HN by lia.
  assert (0 ≤ N) as HN0 by lia.
  assert (0 ≤ q) as Hq0 by (apply Z.div_pos; lia).
  assert (0 < 2 ^ N) as HpowN by (apply Z.pow_pos_nonneg; lia).
  assert (A / (c * 2 ^ N) = q / 2 ^ N) as Hq1 by (unfold q; by rewrite Z.div_div by lia).
  rewrite Hq1 in Hm1.
  assert (0 ≤ q / 2 ^ N) as Hq1pos by (apply Z.div_pos; lia).
  assert (q / 2 ^ N < 2 ^ prec') as Hq1hi.
  { apply Z.div_lt_upper_bound; [lia|]. rewrite <- Z.pow_add_r by lia.
    destruct (decide (q = 0)) as [Hq|Hne]; [rewrite Hq; apply Z.pow_pos_nonneg; lia|].
    destruct (Zdigits2_bounds q ltac:(lia)) as [[_ Hhi] Hd]. fold d in Hhi, Hd.
    apply Z.lt_le_trans with (2 ^ d); [done|].
    apply Z.pow_le_mono_r; [lia|]. unfold fexp in HN. lia. }
  assert (SpecFloat.emin prec' emax' ≤ e + N) as Hemin by (unfold fexp in HN; lia).
  rewrite shr_fexp_renormalise in Hinf by lia.
  assert (0 < 2 ^ (e + K)) as HpowK by (apply Z.pow_pos_nonneg; lia).
  assert (0 < 2 ^ (emax' - prec' + K)) as Hpmax by (apply Z.pow_pos_nonneg; lia).
  assert (2 ^ (emax' + K) = 2 ^ prec' * 2 ^ (emax' - prec' + K)) as Hsplit.
  { rewrite <- Z.pow_add_r by lia. f_equal. lia. }
  assert (0 < 2 ^ prec') as Hpp by (apply Z.pow_pos_nonneg; lia).
  destruct (Z.eqb_spec m1 (2 ^ prec')) as [Hcarry|Hnocarry]; cbn [shr_m] in Hinf.
  - destruct (2 ^ (prec' - 1)) as [|half|half]; try discriminate.
    destruct (Z.leb_spec (e + N + 1) (emax' - prec')) as [|Hbig]; [discriminate|].
    assert (2 ^ (emax' - prec' + K) ≤ 2 ^ N * 2 ^ (e + K)) as Hpow.
    { rewrite <- Z.pow_add_r by lia. apply Z.pow_le_mono_r; lia. }
    rewrite Hsplit.
    set (X := 2 ^ (emax' - prec' + K)) in *. set (Y := 2 ^ (e + K)) in *.
    set (Z2 := 2 ^ N) in *. set (Pp := 2 ^ prec') in *.
    assert (c * Z2 * (2 * Pp - 1) ≤ 2 * A) as HA2 by (rewrite Hcarry in Herr; nia).
    assert (c * X * (2 * Pp - 1) ≤ c * (Z2 * Y) * (2 * Pp - 1)) as H1.
    { apply Z.mul_le_mono_nonneg_r; [lia|]. apply Z.mul_le_mono_nonneg_l; lia. }
    assert (c * Z2 * (2 * Pp - 1) * Y ≤ 2 * A * Y) as H2
      by (apply Z.mul_le_mono_nonneg_r; lia).
    lia.
  - destruct m1 as [|m|m] eqn:Hm1eq; [discriminate| |lia].
    destruct (Z.leb_spec (e + N) (emax' - prec')) as [|Hbig]; [discriminate|].
    assert (emax' + 1 ≤ d + e) as Hde by (unfold fexp, SpecFloat.emin in HN; lia).
    assert (q ≠ 0) as Hq.
    { intros Hq. assert (d = 0) as Hd0 by (unfold d; by rewrite Hq).
      unfold fexp, SpecFloat.emin in HN. lia. }
    destruct (Zdigits2_bounds q ltac:(lia)) as [[Hlo _] Hd]. fold d in Hlo, Hd.
    assert (q * c ≤ A) as HqA.
    { unfold q. rewrite Z.mul_comm. apply Z.mul_div_le. lia. }
    assert (2 ^ (emax' + K) ≤ 2 ^ (d - 1) * 2 ^ (e + K)) as Hpow.
    { rewrite <- Z.pow_add_r by lia. apply Z.pow_le_mono_r; lia. }
    assert (c * (2 ^ (d - 1) * 2 ^ (e + K)) ≤ A * 2 ^ (e + K)) as H1.
    { rewrite Z.mul_assoc. apply Z.mul_le_mono_nonneg_r; [lia|]. nia. }
    assert (c * 2 ^ (emax' + K) ≤ c * (2 ^ (d - 1) * 2 ^ (e + K))) as H2
      by (apply Z.mul_le_mono_nonneg_l; lia).
    set (X := 2 ^ (emax' - prec' + K)) in *. nia.
Qed.

(** [binary_round] of [m * 2^e], likewise. *)
Lemma binary_round_overflows (s s' : bool) (m : positive) (e K : Z) :
  0 ≤ e + K → 0 ≤ SpecFloat.emin prec' emax' + K →
  binary_round prec' emax' s m e = S754_infinity s' →
  2 * 2 ^ (emax' + K) - 2 ^ (emax' - prec' + K) ≤ 2 * (Z.pos m * 2 ^ (e + K)).
Proof.
  intros HK Hmin. unfold binary_round.
  change (Z.pos (digits2_pos m)) with (Zdigits2 (Z.pos m)).
  set (d := Zdigits2 (Z.pos m)).
  destruct (shl_align_spec m e (fexp prec' emax' (d + e))) as (Hez & Hmz & Hdig).
  destruct (shl_align m e (fexp prec' emax' (d + e))) as [mz ez]. cbn [fst snd] in *.
  fold d in Hdig.
  assert (SpecFloat.emin prec' emax' ≤ fexp prec' emax' (d + e)) as Hfexp
    by (unfold fexp; lia).
  assert (Z.pos mz * 2 ^ (ez + K) = Z.pos m * 2 ^ (e + K)) as Hval.
  { rewrite Hmz, <- Z.mul_assoc, <- Z.pow_add_r by lia. f_equal. f_equal. lia. }
  intros Hinf. rewrite <- Hval.
  pose proof (binary_round_aux_overflows s s' (Z.pos mz) 1 ez loc_Exact K
                ltac:(lia) ltac:(lia)) as Hround.
  rewrite Z.div_1_r, Z.mul_1_l in Hround. apply Hround; try done.
  - apply Z.mod_1_r.
  - replace (Zdigits2 (Z.pos mz) + ez) with (d + e) by lia. lia.
  - lia.
  - unfold SpecFloat.emin in Hmin. lia.
Qed.

(** A mantissa that loses only zero bits in the shift to the format's exponent
    is represented exactly. *)
Lemma binary_round_aux_representable (s : bool) (M : positive) (e K : Z) :
  let N := fexp prec' emax' (Zdigits2 (Z.pos M) + e) - e in
  0 ≤ N → Z.pos M mod 2 ^ N = 0 → e + N ≤ emax' - prec' → 0 ≤ e + K →
  ∃ m, binary_round_aux prec' emax' s (Z.pos M) e loc_Exact = S754_finite s m (e + N)
       ∧ Z.pos m * 2 ^ (e + N + K) = Z.pos M * 2 ^ (e + K).
Proof.
  intros N HN Hmod Hfits HK. unfold binary_round_aux. rewrite shr_fexp_iter.
  set (d := Zdigits2 (Z.pos M)) in *. fold N.
  destruct (round_nearest_even_located (Z.pos M) 1 loc_Exact (Z.to_nat N)
              ltac:(lia) ltac:(lia) (Z.mod_1_r _)) as (Hm1 & Herr).
  rewrite Z.div_1_r in Hm1, Herr.
  set (m1 := round_nearest_even _ _) in *.
  rewrite Z2Nat.id, Z.mul_1_l in Hm1, Herr by done. rewrite Z2Nat.id by done.
  assert (0 < 2 ^ N) as HpowN by (apply Z.pow_pos_nonneg; lia).
  pose proof (Z.div_mod (Z.pos M) (2 ^ N) ltac:(lia)) as Hdm. rewrite Hmod, Z.add_0_r in Hdm.
  set (q := Z.pos M / 2 ^ N) in *.
  assert (m1 = q) as Hexact by nia.
  assert (0 < q) as Hq by nia.
  destruct (Zdigits2_bounds (Z.pos M) ltac:(lia)) as [[_ Hhi] Hd]. fold d in Hhi, Hd.
  assert (q < 2 ^ prec') as Hqhi.
  { assert (2 ^ d ≤ 2 ^ N * 2 ^ prec') as Hpow.
    { rewrite <- Z.pow_add_r by lia. apply Z.pow_le_mono_r; [lia|].
      unfold N, fexp. lia. }
    nia. }
  rewrite shr_fexp_renormalise by (unfold N, fexp; lia).
  destruct (Z.eqb_spec m1 (2 ^ prec')) as [Hcarry|_]; [lia|]. cbn [shr_m].
  rewrite Hexact. destruct q as [|m|m] eqn:Hqeq; [lia| |lia].
  destruct (Z.leb_spec (e + N) (emax' - prec')); [|lia].
  exists m. split; [done|].
  replace (e + N + K) with (N + (e + K)) by lia.
  rewrite Z.pow_add_r, Hdm by lia. ring.
Qed.
End Rounding.

(** ** Sums, differences and products of doubles, in units of [2^-1074] *)

Lemma binary_normalize_error (M e : Z) :
  -1074 ≤ e →
  match binary_normalize 53 1024 M e false with
  | S754_zero _ => M = 0
  | S754_finite s m' e' =>
      bounded 53 1024 m' e' = true
      ∧ 2 * Z.abs (cond_Zopp s (Z.pos m' * 2 ^ (e' + 1074)) - M * 2 ^ (e + 1074))
        ≤ 2 ^ (e' + 1074)
  | S754_infinity _ => 2 ^ 2097 ≤ Z.abs (M * 2 ^ (e + 1074))
  | S754_nan => False
  end.
Proof.
  intros He. assert (0 < 2 ^ (e + 1074)) as HP by (apply Z.pow_pos_nonneg; lia).
  destruct M as [|p|p]; cbn [binary_normalize]; [done| |].
  - pose proof (binary_round_error 53 1024 ltac:(lia) ltac:(lia) false p e 1074 ltac:(lia)
                  ltac:(unfold SpecFloat.emin; lia)) as Hround.
    destruct (binary_round 53 1024 false p e) as [s'|s'| |s' m' e'].
    + exfalso. change (2 ^ (SpecFloat.emin 53 1024 + 1074)) with 1 in Hround. lia.
    + change (1024 - 1 + 1074) with 2097 in Hround. lia.
    + done.
    + destruct Hround as (-> & Hb & Herr). split; [done|]. cbn [cond_Zopp]. lia.
  - pose proof (binary_round_error 53 1024 ltac:(lia) ltac:(lia) true p e 1074 ltac:(lia)
                  ltac:(unfold SpecFloat.emin; lia)) as Hround.
    destruct (binary_round 53 1024 true p e) as [s'|s'| |s' m' e'].
    + exfalso. change (2 ^ (SpecFloat.emin 53 1024 + 1074)) with 1 in Hround. lia.
    + change (1024 - 1 + 1074) with 2097 in Hround. lia.
    + done.
    + destruct Hround as (-> & Hb & Herr). split; [done|]. cbn [cond_Zopp]. lia.
Qed.

(** The integer [SFadd] and [SFsub] hand to the rounding: the two mantissas
    at the smaller exponent. *)
Lemma aligned_ticks (s : bool) (m : positive) (e ez : Z) :
  -1074 ≤ ez → ez ≤ e →
  cond_Zopp s (Z.pos (fst (shl_align m e ez))) * 2 ^ (ez + 1074)
  = cond_Zopp s (Z.pos m * 2 ^ (e + 1074)).
Proof.
  intros Hez He. destruct (shl_align_spec m e ez) as (_ & Hval & _).
  rewrite Hval. replace (Z.min e ez) with ez by lia.
  replace (e + 1074) with (e - ez + (ez + 1074)) by lia.
  rewrite (Z.pow_add_r 2 (e - ez) (ez + 1074)) by lia. destruct s; cbn [cond_Zopp]; ring.
Qed.

(** [x - y] on finite doubles: the difference of the exact values, rounded to
    within half a unit of the last place of the result; it is a zero only
    when the values are equal. *)
Lemma sub_error (x y : float) :
  np_isfinite x = true → np_isfinite y = true →
  match Prim2SF (x - y) with
  | S754_zero _ => ticks x - ticks y = 0
  | S754_finite _ _ e' =>
      2 * Z.abs (ticks (x - y) - (ticks x - ticks y)) ≤ 2 ^ (e' + 1074)
  | S754_infinity _ => 2 ^ 2097 ≤ Z.abs (ticks x - ticks y)
  | S754_nan => False
  end.
Proof.
  unfold np_isfinite, ticks. rewrite sub_spec.
  pose proof (Prim2SF_valid x) as Hvx. pose proof (Prim2SF_valid y) as Hvy.
  destruct (Prim2SF x) as [sx|sx| |sx mx ex], (Prim2SF y) as [sy|sy| |sy my ey];
    try discriminate; intros _ _.
  - by destruct sx, sy.
  - cbn [SF64sub SFsub]. apply valid_finite_shape in Hvy as (He & _ & _).
    assert (0 < 2 ^ (ey + 1074)) by (apply Z.pow_pos_nonneg; lia).
    destruct sy; cbn [negb cond_Zopp]; lia.
  - cbn [SF64sub SFsub]. apply valid_finite_shape in Hvx as (He & _ & _).
    assert (0 < 2 ^ (ex + 1074)) by (apply Z.pow_pos_nonneg; lia).
    rewrite Z.sub_0_r, Z.sub_diag. cbn [Z.abs]. lia.
  - apply valid_finite_shape in Hvx as (Hex & _ & _).
    apply valid_finite_shape in Hvy as (Hey & _ & _).
    unfold SF64sub, SFsub. change prec with 53. change emax with 1024.
    set (ez := Z.min ex ey).
    pose proof (binary_normalize_error
                  (cond_Zopp sx (Z.pos (fst (shl_align mx ex ez)))
                   - cond_Zopp sy (Z.pos (fst (shl_align my ey ez)))) ez ltac:(lia)) as Hn.
    rewrite Z.mul_sub_distr_r, !aligned_ticks in Hn by lia.
    destruct (binary_normalize 53 1024 _ ez false) as [s'|s'| |s' m' e']; [|done|done|].
    + rewrite <- (aligned_ticks sx mx ex ez), <- (aligned_ticks sy my ey ez) by lia. lia.
    + by destruct Hn as [_ Hn].
Qed.

(** [x + y] on finite doubles, likewise. *)
Lemma add_error (x y : float) :
  np_isfinite x = true → np_isfinite y = true →
  match Prim2SF (x + y) with
  | S754_zero _ => ticks x + ticks y = 0
  | S754_finite _ _ e' =>
      2 * Z.abs (ticks (x + y) - (ticks x + ticks y)) ≤ 2 ^ (e' + 1074)
  | S754_infinity _ => 2 ^ 2097 ≤ Z.abs (ticks x + ticks y)
  | S754_nan => False
  end.
Proof.
  unfold np_isfinite, ticks. rewrite add_spec.
  pose proof (Prim2SF_valid x) as Hvx. pose proof (Prim2SF_valid y) as Hvy.
  destruct (Prim2SF x) as [sx|sx| |sx mx ex], (Prim2SF y) as [sy|sy| |sy my ey];
    try discriminate; intros _ _.
  - by destruct sx, sy.
  - cbn [SF64add SFadd]. apply valid_finite_shape in Hvy as (He & _ & _).
    assert (0 < 2 ^ (ey + 1074)) by (apply Z.pow_pos_nonneg; lia).
    rewrite Z.add_0_l, Z.sub_diag. cbn [Z.abs]. lia.
  - cbn [SF64add SFadd]. apply valid_finite_shape in Hvx as (He & _ & _).
    assert (0 < 2 ^ (ex + 1074)) by (apply Z.pow_pos_nonneg; lia).
    rewrite Z.add_0_r, Z.sub_diag. cbn [Z.abs]. lia.
  - apply valid_finite_shape in Hvx as (Hex & _ & _).
    apply valid_finite_shape in Hvy as (Hey & _ & _).
    unfold SF64add, SFadd. change prec with 53. change emax with 1024.
    set (ez := Z.min ex ey).
    pose proof (binary_normalize_error
                  (cond_Zopp sx (Z.pos (fst (shl_align mx ex ez)))
                   + cond_Zopp sy (Z.pos (fst (shl_align my ey ez)))) ez ltac:(lia)) as Hn.
    rewrite Z.mul_add_distr_r, !aligned_ticks in Hn by lia.
    destruct (binary_normalize 53 1024 _ ez false) as [s'|s'| |s' m' e']; [|done|done|].
    + rewrite <- (aligned_ticks sx mx ex ez), <- (aligned_ticks sy my ey ez) by lia. lia.
    + by destruct Hn as [_ Hn].
Qed.

(** [x * y] on finite doubles: the product of the exact values, rounded to
    within half a unit of the last place of the result. *)
Lemma mul_error (x y : float) :
  np_isfinite x = true → np_isfinite y = true →
  match Prim2SF (x * y) with
  | S754_zero _ => 2 * Z.abs (ticks x * ticks y) ≤ 2 ^ 1074
  | S754_finite _ _ e' =>
      2 * Z.abs (ticks (x * y) * 2 ^ 1074 - ticks x * ticks y) ≤ 2 ^ (e' + 1074) * 2 ^ 1074
  | S754_infinity _ => 2 ^ 3171 ≤ Z.abs (ticks x * ticks y)
  | S754_nan => False
  end.
Proof.
  pose proof (Prim2SF_valid (x * y)) as Hvp.
  unfold np_isfinite, ticks. rewrite mul_spec in Hvp |- *.
  pose proof (Prim2SF_valid x) as Hvx. pose proof (Prim2SF_valid y) as Hvy.
  assert (0 < 2 ^ 1074) as HU by (apply Z.pow_pos_nonneg; lia).
  destruct (Prim2SF x) as [sx|sx| |sx mx ex], (Prim2SF y) as [sy|sy| |sy my ey];
    try discriminate; intros _ _; cbn [SF64mul SFmul] in Hvp |- *;
    rewrite ?Z.mul_0_l, ?Z.mul_0_r; cbn [Z.abs]; try lia.
  apply valid_finite_shape in Hvx as (Hex & Hmx & Hnx).
  apply valid_finite_shape in Hvy as (Hey & Hmy & Hny).
  change prec with 53 in Hvp |- *. change emax with 1024 in Hvp |- *.
  assert (0 < 2 ^ (ex + 1074)) as HPx by (apply Z.pow_pos_nonneg; lia).
  assert (0 < 2 ^ (ey + 1074)) as HPy by (apply Z.pow_pos_nonneg; lia).
  assert (Z.pos (mx * my) * 2 ^ (ex + ey + 2148)
          = Z.pos mx * 2 ^ (ex + 1074) * (Z.pos my * 2 ^ (ey + 1074))) as Hexact.
  { replace (ex + ey + 2148) with (ex + 1074 + (ey + 1074)) by lia.
    rewrite Pos2Z.inj_mul, Z.pow_add_r by lia. ring. }
  assert (cond_Zopp sx (Z.pos mx * 2 ^ (ex + 1074)) * cond_Zopp sy (Z.pos my * 2 ^ (ey + 1074))
          = cond_Zopp (xorb sx sy) (Z.pos (mx * my) * 2 ^ (ex + ey + 2148))) as Hsigned
    by (rewrite Hexact; destruct sx, sy; cbn [cond_Zopp xorb]; ring).
  rewrite Hsigned. clear Hsigned Hexact.
  assert (∀ b z, Z.abs (cond_Zopp b z) = Z.abs z) as Habs
    by (intros [|] z; cbn [cond_Zopp]; lia).
  pose proof (binary_round_aux_error (xorb sx sy) (mx * my) (ex + ey) 2148 ltac:(lia))
    as Herr.
  destruct (binary_round_aux 53 1024 (xorb sx sy) (Z.pos (mx * my)) (ex + ey) loc_Exact)
    as [s'|s'| |s' m' e'] eqn:Hround; [| |done|].
  - rewrite Habs, Z.abs_eq by lia. exact Herr.
  - rewrite Habs, Z.abs_eq by lia. change 3171 with (1024 - 1 + 2148).
    destruct (Z.le_gt_cases (ex + ey) (1024 - 53)) as [Hfits|Hbig].
    + apply (binary_round_aux_overflow 53 1024 ltac:(lia) ltac:(lia) (xorb sx sy) s'); [lia|done|done].
    + specialize (Hnx ltac:(lia)). specialize (Hny ltac:(lia)).
      rewrite Pos2Z.inj_mul.
      apply Z.le_trans with (2 ^ 52 * 2 ^ 52 * 2 ^ (ex + ey + 2148)).
      * rewrite <- !Z.pow_add_r by lia. apply Z.pow_le_mono_r; lia.
      * apply Z.mul_le_mono_nonneg_r; [apply Z.pow_nonneg; lia|].
        apply Z.mul_le_mono_nonneg; lia.
  - destruct Herr as (-> & _ & Herr).
    apply valid_finite_shape in Hvp as (He' & _ & _).
    replace (2 ^ (e' + 1074) * 2 ^ 1074) with (2 ^ (e' + 2148))
      by (rewrite <- Z.pow_add_r by lia; f_equal; lia).
    replace (cond_Zopp (xorb sx sy) (Z.pos m' * 2 ^ (e' + 1074)) * 2 ^ 1074
             - cond_Zopp (xorb sx sy) (Z.pos (mx * my) * 2 ^ (ex + ey + 2148)))
      with (cond_Zopp (xorb sx sy)
              (Z.pos m' * 2 ^ (e' + 2148) - Z.pos (mx * my) * 2 ^ (ex + ey + 2148))).
    + by rewrite Habs.
    + replace (e' + 2148) with (e' + 1074 + 1074) by lia.
      rewrite (Z.pow_add_r 2 (e' + 1074) 1074) by lia.
      destruct (xorb sx sy); cbn [cond_Zopp]; ring.
Qed.

(** ** Encoding what was decoded *)

(** Decoding a stored integer and encoding the result again gives the integer
    back: the float32 quotient [q / 1e4], times [1e4], rounds to [q]. *)
Theorem quantize_dequantized (q : Z) :
  -32768 ≤ q ≤ 32767 →
  quantize scale (float32_to_float64 (dequantize scale q)) = q.
Proof.
  intros Hq. destruct (dequantize_error q Hq) as [Hfin Hdeq].
  set (r := float32_to_float64 (dequantize scale q)) in *.
  apply quantize_unclipped; [|done].
  pose proof (mul_error r scale Hfin eq_refl) as Hmul.
  change (ticks scale) with (10000 * 2 ^ 1074) in Hmul.
  set (T := ticks r) in *.
  pose proof (Prim2SF_valid (r * scale)) as Hvp.
  assert (0 < 2 ^ 1074) as HU by (apply Z.pow_pos_nonneg; lia).
  assert (2 ^ 1074 = 137438953472 * 2 ^ 1037) as HU37 by reflexivity.
  assert (0 < 2 ^ 1037) as HV by (apply Z.pow_pos_nonneg; lia).
  change (2 ^ 23) with 8388608 in Hdeq.
  destruct (np_round (r * scale)) as [|neg|n] eqn:Hround.
  - exfalso. unfold np_round in Hround.
    destruct (Prim2SF (r * scale)) as [s|s| |s m e]; try discriminate. done.
  - exfalso. unfold np_round in Hround.
    destruct (Prim2SF (r * scale)) as [s|s| |s m e]; try discriminate.
    assert (2 ^ 3171 = 2 ^ 1023 * (2 ^ 1074 * 2 ^ 1074)) as H3171 by reflexivity.
    assert (32769 < 2 ^ 1023) as Hbig by reflexivity.
    rewrite Z.mul_assoc, Z.abs_mul, (Z.abs_eq (2 ^ 1074)), H3171, Z.mul_assoc in Hmul by lia.
    apply Z.mul_le_mono_pos_r in Hmul; [|done].
    set (U := 2 ^ 1074) in *. set (B := 2 ^ 1023) in *. clearbody U B T. clear - Hq Hdeq Hmul Hbig HU. nia.
  - f_equal. pose proof (np_round_error _ _ Hround) as Hnear.
    unfold np_round in Hround. unfold ticks in Hnear, Hmul.
    destruct (Prim2SF (r * scale)) as [s|s| |s m e]; try discriminate.
    + injection Hround as <-.
      rewrite Z.mul_assoc, Z.abs_mul, (Z.abs_eq (2 ^ 1074)), Z.mul_assoc in Hmul by lia.
      rewrite <- (Z.mul_1_l (2 ^ 1074)) in Hmul at 2.
      apply Z.mul_le_mono_pos_r in Hmul; [|done].
      assert (T = 0) as HT by lia. rewrite HT in Hdeq.
      set (U := 2 ^ 1074) in *. clearbody U. clear - Hq Hdeq HU. nia.
    + clear Hround. apply valid_finite_shape in Hvp as (He & Hm & Hnormal).
      assert (0 < 2 ^ (e + 1074)) as HP by (apply Z.pow_pos_nonneg; lia).
      set (Tp := cond_Zopp s (Z.pos m * 2 ^ (e + 1074))) in *.
      assert (2 * Z.abs (Tp - T * 10000) ≤ 2 ^ (e + 1074)) as Hprod.
      { apply (Z.mul_le_mono_pos_r _ _ (2 ^ 1074) HU).
        rewrite <- Z.mul_assoc, <- (Z.abs_eq (2 ^ 1074)) at 1 by lia.
        rewrite <- Z.abs_mul.
        replace ((Tp - T * 10000) * 2 ^ 1074)
          with (Tp * 2 ^ 1074 - T * (10000 * 2 ^ 1074)) by ring.
        done. }
      clear Hmul.
      assert (Z.abs Tp = Z.pos m * 2 ^ (e + 1074)) as HTp
        by (unfold Tp; destruct s; cbn [cond_Zopp]; lia).
      assert (2 ^ (e + 1074) ≤ 2 ^ 1037) as Hsmall.
      { apply Z.pow_le_mono_r; [lia|].
        destruct (Z.le_gt_cases (e + 1074) 1037) as [|Hbig]; [done|]. exfalso.
        specialize (Hnormal ltac:(lia)).
        assert (2 ^ 1038 ≤ 2 ^ (e + 1074)) as Hp38 by (apply Z.pow_le_mono_r; lia).
        assert (2 ^ 1038 = 2 * 2 ^ 1037) as H38 by reflexivity.
        change (2 ^ 52) with 4503599627370496 in Hnormal.
        set (U := 2 ^ 1074) in *. set (V := 2 ^ 1037) in *. set (P := 2 ^ (e + 1074)) in *.
        clearbody U V P T Tp. clear - Hq Hdeq Hprod HTp Hnormal Hp38 H38 HU37 HV HP. nia. }
      set (U := 2 ^ 1074) in *. set (V := 2 ^ 1037) in *. set (P := 2 ^ (e + 1074)) in *.
      clearbody U V P T Tp. clear - Hq Hdeq Hprod Hnear Hsmall HU37 HV HP. nia.
Qed.

(** ** The final signal against the original (steps 6 and 7) *)

Lemma sub_finite_inv (x y : float) :
  np_isfinite (x - y) = true → np_isfinite x = true ∧ np_isfinite y = true.
Proof.
  unfold np_isfinite. rewrite sub_spec.
  destruct (Prim2SF x) as [sx|[|]| |sx mx ex], (Prim2SF y) as [sy|[|]| |sy my ey];
    cbn [SF64sub SFsub negb]; done.
Qed.

(** A delta that is not NaN and is stored strictly inside the int16 range
    was not clipped. *)
Lemma quantize_inside (d : float) :
  Prim2SF d ≠ S754_nan →
  -32768 < quantize scale d < 32767 →
  unclipped scale d.
Proof.
  intros Hnan Hq.
  destruct (np_round (d * scale)) as [|neg|n] eqn:Hround.
  - exfalso. unfold np_round in Hround. rewrite mul_spec in Hround.
    change (Prim2SF scale) with (S754_finite false 5497558138880000 (-39)) in Hround.
    pose proof (Prim2SF_valid d) as Hv.
    destruct (Prim2SF d) as [s|s| |s m e]; [done|done|done|].
    apply valid_finite_shape in Hv as (He & _ & _).
    pose proof (binary_round_aux_error (xorb s false) (m * 5497558138880000) (e + -39) 2148
                  ltac:(lia)) as Hsign.
    cbn [SF64mul SFmul] in Hround. change prec with 53 in Hround.
    change emax with 1024 in Hround.
    by destruct (binary_round_aux 53 1024 _ _ _ loc_Exact).
  - exfalso. unfold quantize in Hq. rewrite Hround in Hq.
    destruct neg; vm_compute in Hq; destruct Hq; discriminate.
  - exists n. split; [done|].
    rewrite (quantize_of_integer _ _ _ Hround) in Hq. unfold clamp in Hq.
    destruct (Z.ltb_spec n (-32768)); [lia|]. destruct (Z.ltb_spec 32767 n); lia.
Qed.

Lemma ticks_unfold (x : float) :
  ticks x = match Prim2SF x with
            | S754_finite s m e => cond_Zopp s (Z.pos m * 2 ^ (e + 1074))
            | _ => 0
            end.
Proof. reflexivity. Qed.

(** A finite double within half a unit of its last place of [v], with [v]
    below [2^(k+53) - 2^k] in magnitude, has its last place at most at
    [2^k] (all in units of [2^-1074]). *)
Lemma ulp_of_rounded (x : float) (s : bool) (m : positive) (e k v : Z) :
  Prim2SF x = S754_finite s m e → 0 ≤ k →
  2 * Z.abs (ticks x - v) ≤ 2 ^ (e + 1074) →
  Z.abs v < 2 ^ (k + 53) - 2 ^ k →
  2 ^ (e + 1074) ≤ 2 ^ k.
Proof.
  intros Hx Hk Herr Hmag. pose proof (Prim2SF_valid x) as Hv. rewrite Hx in Hv.
  apply valid_finite_shape in Hv as (He & _ & Hnormal).
  rewrite ticks_unfold, Hx in Herr.
  assert (0 < 2 ^ (e + 1074)) as HP by (apply Z.pow_pos_nonneg; lia).
  assert (Z.abs (cond_Zopp s (Z.pos m * 2 ^ (e + 1074))) = Z.pos m * 2 ^ (e + 1074)) as Habs
    by (destruct s; cbn [cond_Zopp]; lia).
  apply Z.pow_le_mono_r; [lia|].
  destruct (Z.le_gt_cases (e + 1074) k) as [|Hbig]; [done|]. exfalso.
  specialize (Hnormal ltac:(lia)).
  assert (2 * 2 ^ k ≤ 2 ^ (e + 1074)) as Hpow.
  { rewrite <- Z.pow_succ_r by done. apply Z.pow_le_mono_r; lia. }
  assert (2 ^ (k + 53) = 2 ^ 52 * (2 * 2 ^ k)) as Hsplit.
  { rewrite <- Z.pow_succ_r, <- Z.pow_add_r by lia. f_equal. lia. }
  assert (0 < 2 ^ k) as Hpk by (apply Z.pow_pos_nonneg; lia).
  change (2 ^ 52) with 4503599627370496 in *.
  set (T := cond_Zopp s (Z.pos m * 2 ^ (e + 1074))) in *.
  set (P := 2 ^ (e + 1074)) in *. set (Q := 2 ^ k) in *. set (B := 2 ^ (k + 53)) in *.
  clearbody T P Q B. clear - Herr Hmag Habs Hnormal Hpow Hsplit Hpk HP. nia.
Qed.

(** One sample through steps 6 and 7, on the exact values in units of
    [2^-1074]: a sample of magnitude at most 1 whose delta is not clipped comes
    back within [1/20000 + 2^-21]. *)
Lemma final_sample_ticks (s h : float) :
  np_isfinite s = true → Z.abs (ticks s) ≤ 2 ^ 1074 →
  unclipped scale (s - h) →
  np_isfinite (h + round_trip scale (s - h)) = true
  ∧ Z.abs (ticks (h + round_trip scale (s - h)) - ticks s) * (20000 * 2097152)
    ≤ (2097152 + 20000) * 2 ^ 1074.
Proof.
  intros Hs Hsmall Hun.
  destruct (round_trip_ticks _ Hun) as (Hfd & Hfr & Hrt).
  destruct (sub_finite_inv _ _ Hfd) as [_ Hh].
  pose proof (sub_error s h Hs Hh) as Hsub.
  destruct Hun as (n & Hround & Hn).
  destruct (product_error scale (s - h) _ _ n eq_refl Hround Hn) as [_ Hprod].
  pose proof (np_round_error _ _ Hround) as Hnear.
  change (ticks scale) with (10000 * 2 ^ 1074) in Hprod.
  set (r := round_trip scale (s - h)) in *.
  pose proof (add_error h r Hh Hfr) as Hadd.
  assert (0 < 2 ^ 1074) as HU by (apply Z.pow_pos_nonneg; lia).
  assert (2 ^ 1074 = 4503599627370496 * 2 ^ 1022) as HU52 by reflexivity.
  assert (2 ^ 1037 = 32768 * 2 ^ 1022) as HV by reflexivity.
  assert (0 < 2 ^ 1022) as HW by (apply Z.pow_pos_nonneg; lia).
  (* the delta is below 4, so its last place is at most 2^-51 *)
  assert (Z.abs (ticks (s - h)) * 10000 ≤ 32769 * 2 ^ 1074) as Hmag.
  { apply (Z.mul_le_mono_pos_r _ _ (2 ^ 1074) HU).
    rewrite <- Z.mul_assoc, <- (Z.abs_eq (10000 * 2 ^ 1074)) at 1 by lia.
    rewrite <- Z.abs_mul.
    set (U := 2 ^ 1074) in *. set (V := 2 ^ 1037) in *. set (W := 2 ^ 1022) in *.
    set (a := ticks (s - h) * (10000 * U)) in *. set (p := ticks ((s - h) * scale)) in *.
    assert (V * U ≤ U * U) as HVU by (apply Z.mul_le_mono_nonneg_r; lia).
    assert (2 * Z.abs (n * U * U - p * U) ≤ U * U) as Hnear'.
    { replace (n * U * U - p * U) with ((n * U - p) * U) by ring.
      rewrite Z.abs_mul, (Z.abs_eq U) by lia. rewrite Z.mul_assoc.
      apply Z.mul_le_mono_nonneg_r; lia. }
    assert (Z.abs (n * U * U) ≤ 32768 * (U * U)) as Hn''.
    { rewrite Z.abs_mul, (Z.abs_eq U), Z.mul_assoc by lia.
      rewrite Z.abs_mul, (Z.abs_eq U), <- !Z.mul_assoc by lia.
      apply Z.mul_le_mono_nonneg_r; [|lia]. apply Z.mul_nonneg_nonneg; lia. }
    replace (32769 * U * U) with (32769 * (U * U)) by ring.
    set (UU := U * U) in *. set (nUU := n * U * U) in *. set (pU := p * U) in *.
    clearbody UU nUU pU a V. clear - Hprod Hnear' Hn'' HVU. lia. }
  assert (2 * Z.abs (ticks (s - h) - (ticks s - ticks h)) ≤ 2 * 2 ^ 1022) as Hdelta.
  { unfold np_isfinite in Hfd.
    destruct (Prim2SF (s - h)) as [s'|s'| |s' m' e'] eqn:Hd; [|done|done|].
    - rewrite ticks_unfold, Hd. lia.
    - assert (2 ^ (e' + 1074) ≤ 2 ^ 1023) as Hulp; [|change (2 ^ 1023) with (2 * 2 ^ 1022) in Hulp; lia].
      apply (ulp_of_rounded _ _ _ _ 1023 (ticks (s - h)) Hd); [lia| |].
      + rewrite Z.sub_diag. cbn [Z.abs]. pose proof (Z.pow_nonneg 2 (e' + 1074)). lia.
      + change (2 ^ (1023 + 53)) with (4 * 2 ^ 1074).
        change (2 ^ 1023) with (2 * 2 ^ 1022).
        set (U := 2 ^ 1074) in *. set (W := 2 ^ 1022) in *.
        clearbody U W. clear - Hmag HU52 HW. lia. }
  clear Hsub Hprod Hnear Hround Hmag.
  (* the sum is below 2, so its last place is at most 2^-52 *)
  assert (Z.abs (ticks h + ticks r) * 20000 ≤ 20002 * 2 ^ 1074) as Hsum.
  { set (U := 2 ^ 1074) in *. set (W := 2 ^ 1022) in *.
    clearbody U W. clear - Hsmall Hrt Hdelta HU52 HW. lia. }
  unfold np_isfinite.
  destruct (Prim2SF (h + r)) as [s'|s'| |s' m' e'] eqn:Hf.
  - split; [done|]. rewrite (ticks_unfold (h + r)), Hf.
    set (U := 2 ^ 1074) in *. set (W := 2 ^ 1022) in *.
    clearbody U W. clear - Hadd Hsmall Hrt Hdelta HU52 HW. lia.
  - exfalso. assert (2 ^ 2097 = 2 ^ 1023 * 2 ^ 1074) as H2097 by reflexivity.
    assert (2 < 2 ^ 1023) by reflexivity.
    set (U := 2 ^ 1074) in *. set (B := 2 ^ 1023) in *.
    clearbody U B. clear - Hadd Hsum H2097 H HU. nia.
  - done.
  - split; [done|].
    assert (2 ^ (e' + 1074) ≤ 2 ^ 1022) as Hulp'.
    { apply (ulp_of_rounded _ _ _ _ 1022 (ticks h + ticks r) Hf); [lia|done|].
      change (2 ^ (1022 + 53)) with (2 * 2 ^ 1074).
      set (U := 2 ^ 1074) in *. set (W := 2 ^ 1022) in *.
      clearbody U W. clear - Hsum HU52 HW. lia. }
    set (f := ticks (h + r)) in *.
    set (U := 2 ^ 1074) in *. set (W := 2 ^ 1022) in *. set (P := 2 ^ (e' + 1074)) in *.
    clearbody U W P f. clear - Hadd Hrt Hdelta Hulp' Hsmall HU52 HW. lia.
Qed.

(** How the arrays of a run hang together. *)
Lemma codec_outputs (scale0 : float) (logistic_signal : list float) (out : codec) :
  chaos_codec scale0 logistic_signal = Some out →
  c_hybrid out = base_plus_mirror (c_base out) (c_resid_pred out)
  ∧ c_delta_q out = delta_q scale0 (delta logistic_signal (c_hybrid out))
  ∧ c_final out = reconstructed_final scale0 (c_hybrid out) (c_delta_q out)
  ∧ c_resid_compressed out = resid_compressed scale0 (c_delta_q out).
Proof.
  unfold chaos_codec. intros Hrun.
  destruct (henon_model logistic_signal) as [henon|]; [|done]. cbn in Hrun.
  destruct (unpack3 (coef_ henon)) as [[[C1 C2] C3]|]; [|done]. cbn in Hrun.
  destruct (reconstructed_base C1 C2 C3 (intercept_ henon) logistic_signal)
    as [base|]; [|done]. cbn in Hrun.
  destruct (residual_model logistic_signal (residuals logistic_signal base))
    as [mirror|]; [|done]. cbn in Hrun.
  destruct (unpack2 (coef_ mirror)) as [[D1 D2]|]; [|done]. cbn in Hrun.
  destruct (resid_pred D1 D2 (intercept_ mirror) logistic_signal) as [pred|]; [|done].
  cbn in Hrun. by injection Hrun as <-.
Qed.

(** Sample [i] of a run: the stored integer is the quantized difference of the
    signal and the hybrid, and the final value is the hybrid plus the
    dequantized integer. *)
Lemma codec_sample (scale0 : float) (logistic_signal : list float) (out : codec)
    (i : nat) (s h : float) :
  chaos_codec scale0 logistic_signal = Some out →
  logistic_signal !! i = Some s → c_hybrid out !! i = Some h →
  c_delta_q out !! i = Some (quantize scale0 (s - h))
  ∧ c_final out !! i = Some (h + round_trip scale0 (s - h))%float.
Proof.
  intros Hrun Hs Hh. destruct (codec_outputs _ _ _ Hrun) as (_ & Hdq & Hfinal & _).
  assert (c_delta_q out !! i = Some (quantize scale0 (s - h))) as Hq.
  { rewrite Hdq. unfold delta_q, delta.
    by rewrite list_lookup_fmap, lookup_zip_with, Hs, Hh. }
  split; [done|]. rewrite Hfinal. unfold reconstructed_final, round_trip.
  by rewrite lookup_zip_with, Hh, list_lookup_fmap, Hq.
Qed.

(** C4: the stored array has one integer per delta, and entry [i] is
    [clamp(round(delta[i]*S), -32768, 32767)]: it lies in [-32768, 32767]; it
    is the clamp of the integer [np.round] gives, which for a finite product is
    an integer within one half of it; a product at or above 32767.5 is stored
    as 32767 and one at or below -32768.5 as -32768.  In a run of the cell the
    stored array is this encoding of signal minus hybrid. *)
Theorem quantize_clamps (scale0 : float) (delta0 : list float) :
  length (delta_q scale0 delta0) = length delta0
  ∧ (∀ i d, delta0 !! i = Some d →
       ∃ q, delta_q scale0 delta0 !! i = Some q
         ∧ -32768 ≤ q ≤ 32767
         ∧ (∀ n, np_round (d * scale0) = Iint n → q = clamp n (-32768) 32767)
         ∧ (np_isfinite (d * scale0) = true →
              ∃ n, np_round (d * scale0) = Iint n
                ∧ 2 * Z.abs (n * 2 ^ 1074 - ticks (d * scale0)) ≤ 2 ^ 1074)
         ∧ ((32767.5 <=? d * scale0)%float = true → q = 32767)
         ∧ ((d * scale0 <=? -32768.5)%float = true → q = -32768))
  ∧ (∀ (logistic_signal : list float) (out : codec),
       chaos_codec scale0 logistic_signal = Some out →
       c_delta_q out = delta_q scale0 (delta logistic_signal (c_hybrid out))
       ∧ ∀ i s h, logistic_signal !! i = Some s → c_hybrid out !! i = Some h →
           delta logistic_signal (c_hybrid out) !! i = Some (s - h)%float).
Proof.
  split; [unfold delta_q; by rewrite length_fmap|]. split.
  - intros i d Hd. exists (quantize scale0 d).
    split; [unfold delta_q; by rewrite list_lookup_fmap, Hd|].
    split; [apply wrap_int16_range|]. split; [apply quantize_of_integer|].
    split; [|split].
    + intros Hfin. unfold np_isfinite in Hfin.
      destruct (np_round (d * scale0)) as [| |n] eqn:Hr.
      * unfold np_round in Hr. destruct (Prim2SF (d * scale0)); done.
      * unfold np_round in Hr. destruct (Prim2SF (d * scale0)); done.
      * exists n. split; [done|]. by apply np_round_error.
    + intros Hp. destruct (round_at_upper_boundary _ Hp) as [Hr|(n & Hr & Hn)].
      * unfold quantize. by rewrite Hr.
      * rewrite (quantize_of_integer _ _ _ Hr). unfold clamp.
        destruct (Z.ltb_spec n (-32768)); [lia|]. destruct (Z.ltb_spec 32767 n); lia.
    + intros Hp. destruct (round_at_lower_boundary _ Hp) as [Hr|(n & Hr & Hn)].
      * unfold quantize. by rewrite Hr.
      * rewrite (quantize_of_integer _ _ _ Hr). unfold clamp.
        destruct (Z.ltb_spec n (-32768)); [lia|]. destruct (Z.ltb_spec 32767 n); lia.
  - intros logistic_signal out Hrun.
    destruct (codec_outputs _ _ _ Hrun) as (_ & Hdq & _). split; [done|].
    intros i s h Hs Hh. unfold delta. by rewrite lookup_zip_with, Hs, Hh.
Qed.

(** Wherever the stored integer is strictly inside the int16 range, the final
    signal of the notebook is within [1/20000 + 2^-21] of the original: half a
    quantization step, plus the rounding of steps 6 and 7.  This is for a
    sample of magnitude at most 1 (the range of the logistic signal) and a
    finite hybrid value. *)
Theorem final_within_half_step (logistic_signal : list float) (out : codec) (i : nat)
    (s h : float) (q : Z) :
  notebook logistic_signal = Some out →
  logistic_signal !! i = Some s → c_hybrid out !! i = Some h →
  c_delta_q out !! i = Some q →
  np_isfinite s = true → (Qabs (value s) <= 1)%Q → np_isfinite h = true →
  -32768 < q < 32767 →
  ∃ f, c_final out !! i = Some f
    ∧ np_isfinite f = true
    ∧ (Qabs (value f - value s) <= (1 # 20000) + (1 # 2097152))%Q.
Proof.
  intros Hrun Hs Hh Hq Hfs Hmag Hfh Hin.
  destruct (codec_sample _ _ _ _ _ _ Hrun Hs Hh) as [Hq' Hf].
  rewrite Hq in Hq'. apply (inj Some) in Hq'. subst q.
  assert (Prim2SF (s - h) ≠ S754_nan) as Hnan.
  { pose proof (sub_error s h Hfs Hfh) as Hsub. intros Hd. by rewrite Hd in Hsub. }
  pose proof (quantize_inside _ Hnan Hin) as Hun.
  assert (Z.pos (2 ^ 1074) = 2 ^ 1074) as HU by (by rewrite Pos2Z.inj_pow).
  assert (0 < 2 ^ 1074) as HpU by (apply Z.pow_pos_nonneg; lia).
  assert (Z.abs (ticks s) ≤ 2 ^ 1074) as Hsmall.
  { unfold value, Qabs, Qle in Hmag. cbn [Qnum Qden] in Hmag. rewrite HU in Hmag. lia. }
  destruct (final_sample_ticks s h Hfs Hsmall Hun) as [Hff Hticks].
  eexists. split; [exact Hf|]. split; [done|].
  unfold value. set (a := ticks (h + round_trip scale (s - h))) in *.
  set (b := ticks s) in *.
  set (P := (2 ^ 1074)%positive) in *.
  unfold Qle, Qabs, Qminus, Qplus, Qopp. cbn [Qnum Qden].
  rewrite (Pos2Z.inj_mul P P), HU.
  replace (a * 2 ^ 1074 + - b * 2 ^ 1074) with ((a - b) * 2 ^ 1074) by ring.
  rewrite Z.abs_mul, (Z.abs_eq (2 ^ 1074)) by lia.
  change (Z.pos (20000 * 2097152)) with (20000 * 2097152).
  change (1 * Z.pos 2097152 + 1 * Z.pos 20000) with (2097152 + 20000).
  set (u := 2 ^ 1074) in *. clearbody u a b. clear - Hticks HpU. nia.
Qed.

(** ** The weights as float16 (step 9) *)

(** A finite weight through [np.float16], on the exact values in units of
    [2^-1074]. *)
Lemma to_float16_regimes (w : float) :
  np_isfinite w = true →
  match to_float16 w with
  | S754_zero _ => 2 * Z.abs (ticks w) ≤ 2 ^ 1050
  | S754_finite _ m e =>
      bounded 11 16 m e = true
      ∧ 2 * Z.abs (narrow_ticks (to_float16 w) - ticks w) ≤ 2 ^ (e + 1074)
  | S754_infinity _ => 65520 * 2 ^ 1074 ≤ Z.abs (ticks w)
  | S754_nan => False
  end.
Proof.
  unfold np_isfinite, to_float16, narrow, ticks.
  pose proof (Prim2SF_valid w) as Hv.
  destruct (Prim2SF w) as [s|s| |s m e]; [|done|done|]; intros _.
  - cbn. lia.
  - apply valid_finite_shape in Hv as (He & _ & _).
    assert (0 < 2 ^ (e + 1074)) as HP by (apply Z.pow_pos_nonneg; lia).
    assert (Z.abs (cond_Zopp s (Z.pos m * 2 ^ (e + 1074))) = Z.pos m * 2 ^ (e + 1074))
      as Habs by (destruct s; cbn [cond_Zopp]; lia).
    pose proof (binary_round_error 11 16 ltac:(lia) ltac:(lia) s m e 1074 ltac:(lia)
                  ltac:(unfold SpecFloat.emin; lia)) as Hround.
    pose proof (binary_round_overflows 11 16 ltac:(lia) ltac:(lia) s) as Hover.
    destruct (binary_round 11 16 s m e) as [s'|s'| |s' m' e'] eqn:Hr.
    + destruct Hround as [_ Hround].
      change (2 ^ (SpecFloat.emin 11 16 + 1074)) with (2 ^ 1050) in Hround. lia.
    + specialize (Hover s' m e 1074 ltac:(lia) ltac:(unfold SpecFloat.emin; lia) Hr).
      change (2 * 2 ^ (16 + 1074) - 2 ^ (16 - 11 + 1074)) with (2 * (65520 * 2 ^ 1074)) in Hover.
      lia.
    + done.
    + destruct Hround as (-> & Hb & Herr). split; [done|]. cbn [narrow_ticks].
      replace (cond_Zopp s (Z.pos m' * 2 ^ (e' + 1074)) - cond_Zopp s (Z.pos m * 2 ^ (e + 1074)))
        with (cond_Zopp s (Z.pos m' * 2 ^ (e' + 1074) - Z.pos m * 2 ^ (e + 1074)))
        by (destruct s; cbn [cond_Zopp]; ring).
      destruct s; cbn [cond_Zopp]; lia.
Qed.

Lemma to_float16_ticks (w : float) :
  np_isfinite w = true →
  (Z.abs (ticks w) < 65520 * 2 ^ 1074 →
     narrow_isfinite (to_float16 w) = true
     ∧ 2048 * Z.abs (narrow_ticks (to_float16 w) - ticks w)
       ≤ 2 ^ 1060 + Z.abs (narrow_ticks (to_float16 w)))
  ∧ (65520 * 2 ^ 1074 < Z.abs (ticks w) → ∃ s, to_float16 w = S754_infinity s)
  ∧ (Z.abs (ticks w) < 2 ^ 1049 → ∃ s, to_float16 w = S754_zero s).
Proof.
  intros Hfin. pose proof (to_float16_regimes w Hfin) as Hreg.
  assert (2 ^ 1050 = 2 * 2 ^ 1049) as H1050 by reflexivity.
  assert (2 ^ 1060 = 2048 * 2 ^ 1049) as H1060 by reflexivity.
  assert (2 ^ 1074 = 33554432 * 2 ^ 1049) as H1074 by reflexivity.
  assert (0 < 2 ^ 1049) as HW by (apply Z.pow_pos_nonneg; lia).
  destruct (to_float16 w) as [s|s| |s m e] eqn:Hh.
  - split; [|split].
    + intros _. split; [done|]. cbn [narrow_ticks].
      set (W := 2 ^ 1049) in *. clearbody W. lia.
    + intros Hbig. exfalso. set (W := 2 ^ 1049) in *. clearbody W. lia.
    + intros _. by exists s.
  - split; [|split].
    + intros Hsmall. lia.
    + intros _. by exists s.
    + intros Hsmall. exfalso. set (W := 2 ^ 1049) in *. clearbody W. lia.
  - done.
  - destruct Hreg as [Hb Herr]. cbn [narrow_ticks] in *.
    apply bounded_shape in Hb as (He & Hm & Hnormal).
    unfold SpecFloat.emin in He, Hnormal.
    change (2 ^ 11) with 2048 in Hm. change (2 ^ (11 - 1)) with 1024 in Hnormal.
    assert (0 < 2 ^ (e + 1074)) as HP by (apply Z.pow_pos_nonneg; lia).
    assert (2 * 2 ^ 1049 ≤ 2 ^ (e + 1074)) as HPlo.
    { rewrite <- H1050. apply Z.pow_le_mono_r; lia. }
    assert (2 ^ (e + 1074) ≤ 32 * 2 ^ 1074) as HPhi.
    { change (32 * 2 ^ 1074) with (2 ^ 1079). apply Z.pow_le_mono_r; lia. }
    assert (Z.abs (cond_Zopp s (Z.pos m * 2 ^ (e + 1074))) = Z.pos m * 2 ^ (e + 1074))
      as Habs by (destruct s; cbn [cond_Zopp]; lia).
    set (T := cond_Zopp s (Z.pos m * 2 ^ (e + 1074))) in *.
    set (P := 2 ^ (e + 1074)) in *.
    split; [|split].
    + intros _. split; [done|].
      destruct (decide (e = 3 - 16 - 11)) as [Heq|Hne].
      * assert (P = 2 * 2 ^ 1049) as HPeq by (unfold P; rewrite Heq; reflexivity).
        set (W := 2 ^ 1049) in *. clearbody W T P. lia.
      * specialize (Hnormal ltac:(lia)).
        set (W := 2 ^ 1049) in *. clearbody W T P. nia.
    + intros Hbig. exfalso.
      set (W := 2 ^ 1049) in *. set (U := 2 ^ 1074) in *. clearbody W T P U. nia.
    + intros Hsmall. exfalso.
      set (W := 2 ^ 1049) in *. clearbody W T P. nia.
Qed.

(** What [np.float16] makes of a fitted weight ([value] and [narrow_value] are
    the exact values): below 65520 in magnitude it is stored as a float16
    within [2^-25 + 2^-11 * |stored|] of itself; above 65520 it is stored as an
    infinity; below [2^-25] it is stored as a zero.  No case raises. *)
Theorem weight_as_float16 (w : float) :
  np_isfinite w = true →
  ((Qabs (value w) < 65520 # 1)%Q →
     narrow_isfinite (to_float16 w) = true
     ∧ (Qabs (narrow_value (to_float16 w) - value w)
        <= (1 # 2 ^ 25) + (1 # 2 ^ 11) * Qabs (narrow_value (to_float16 w)))%Q)
  ∧ ((65520 # 1 < Qabs (value w))%Q → ∃ s, to_float16 w = S754_infinity s)
  ∧ ((Qabs (value w) < 1 # 2 ^ 25)%Q → ∃ s, to_float16 w = S754_zero s).
Proof.
  intros Hfin. destruct (to_float16_ticks w Hfin) as (Hin & Hover & Hunder).
  assert (Z.pos (2 ^ 1074) = 2 ^ 1074) as HU by (by rewrite Pos2Z.inj_pow).
  assert (0 < 2 ^ 1074) as HpU by (apply Z.pow_pos_nonneg; lia).
  assert (2 ^ 1074 = 33554432 * 2 ^ 1049) as H1074 by reflexivity.
  assert (2 ^ 1060 = 2048 * 2 ^ 1049) as H1060 by reflexivity.
  assert (0 < 2 ^ 1049) as HW by (apply Z.pow_pos_nonneg; lia).
  unfold value, narrow_value in *. set (P := (2 ^ 1074)%positive) in *.
  set (a := ticks w) in *. set (b := narrow_ticks (to_float16 w)) in *.
  split; [|split].
  - intros Hlt. unfold Qlt, Qabs in Hlt. cbn [Qnum Qden] in Hlt. rewrite HU in Hlt.
    destruct Hin as [Hf Herr]; [lia|]. split; [done|].
    unfold Qle, Qabs, Qminus, Qplus, Qopp, Qmult. cbn [Qnum Qden].
    rewrite !Pos2Z.inj_mul, HU.
    replace (b * 2 ^ 1074 + - a * 2 ^ 1074) with ((b - a) * 2 ^ 1074) by ring.
    rewrite Z.abs_mul, (Z.abs_eq (2 ^ 1074)) by lia.
    change (Z.pos (2 ^ 25)) with 33554432. change (Z.pos (2 ^ 11)) with 2048.
    rewrite H1060 in Herr.
    set (U := 2 ^ 1074) in *. set (W := 2 ^ 1049) in *.
    set (d := Z.abs (b - a)) in *. set (c := Z.abs b) in *.
    assert (0 ≤ c) by (unfold c; lia). assert (0 ≤ d) by (unfold d; lia).
    clearbody U W d c. clear - Herr H1074 HW HpU H H0. nia.
  - intros Hgt. apply Hover. unfold Qlt, Qabs in Hgt. cbn [Qnum Qden] in Hgt.
    rewrite HU in Hgt. lia.
  - intros Hlt. apply Hunder. unfold Qlt, Qabs in Hlt. cbn [Qnum Qden] in Hlt.
    rewrite HU in Hlt. change (Z.pos (2 ^ 25)) with 33554432 in Hlt.
    set (U := 2 ^ 1074) in *. set (W := 2 ^ 1049) in *. clearbody U W. lia.
Qed.

(** Whatever the double, [np.float16] of it is a float16: a zero, an
    infinity, NaN, or a mantissa of at most 11 bits with an exponent of the
    format. *)
Lemma to_float16_valid (w : float) : SpecFloat.valid_binary 11 16 (to_float16 w) = true.
Proof.
  unfold to_float16, narrow. pose proof (Prim2SF_valid w) as Hv.
  destruct (Prim2SF w) as [s|s| |s m e]; [done|done|done|].
  apply valid_finite_shape in Hv as (He & _ & _).
  pose proof (binary_round_error 11 16 ltac:(lia) ltac:(lia) s m e 1074 ltac:(lia)
                ltac:(unfold SpecFloat.emin; lia)) as Hround.
  destruct (binary_round 11 16 s m e) as [s'|s'| |s' m' e']; [done|done|done|].
  cbn [SpecFloat.valid_binary]. by destruct Hround as (_ & Hb & _).
Qed.

(** A finite double below 65520 in magnitude becomes a finite float16 within
    [2^-25 + 2^-11 * |stored|] of it. *)
Lemma to_float16_nearest (w : float) :
  np_isfinite w = true → (Qabs (value w) < 65520 # 1)%Q →
  narrow_isfinite (to_float16 w) = true
  ∧ (Qabs (narrow_value (to_float16 w) - value w)
     <= (1 # 2 ^ 25) + (1 # 2 ^ 11) * Qabs (narrow_value (to_float16 w)))%Q.
Proof.
  intros Hfin Hlt. destruct (to_float16_ticks w Hfin) as (Hin & _ & _).
  assert (Z.pos (2 ^ 1074) = 2 ^ 1074) as HU by (by rewrite Pos2Z.inj_pow).
  assert (0 < 2 ^ 1074) as HpU by (apply Z.pow_pos_nonneg; lia).
  assert (2 ^ 1074 = 33554432 * 2 ^ 1049) as H1074 by reflexivity.
  assert (2 ^ 1060 = 2048 * 2 ^ 1049) as H1060 by reflexivity.
  assert (0 < 2 ^ 1049) as HW by (apply Z.pow_pos_nonneg; lia).
  unfold value, narrow_value in *. set (P := (2 ^ 1074)%positive) in *.
  set (a := ticks w) in *. set (b := narrow_ticks (to_float16 w)) in *.
  unfold Qlt, Qabs in Hlt. cbn [Qnum Qden] in Hlt. rewrite HU in Hlt.
  destruct Hin as [Hf Herr]; [lia|]. split; [done|].
  unfold Qle, Qabs, Qminus, Qplus, Qopp, Qmult. cbn [Qnum Qden].
  rewrite !Pos2Z.inj_mul, HU.
  replace (b * 2 ^ 1074 + - a * 2 ^ 1074) with ((b - a) * 2 ^ 1074) by ring.
  rewrite Z.abs_mul, (Z.abs_eq (2 ^ 1074)) by lia.
  change (Z.pos (2 ^ 25)) with 33554432. change (Z.pos (2 ^ 11)) with 2048.
  rewrite H1060 in Herr.
  set (U := 2 ^ 1074) in *. set (W := 2 ^ 1049) in *.
  set (d := Z.abs (b - a)) in *. set (c := Z.abs b) in *.
  assert (0 ≤ c) as Hc by (unfold c; lia). assert (0 ≤ d) as Hd by (unfold d; lia).
  clearbody U W d c. clear - Herr H1074 HW HpU Hc Hd. nia.
Qed.

(** C8: the model payload of a run is the compressed pickle of seven values
    in a fixed order: the three base coefficients, the base intercept, the two
    mirror coefficients, the mirror intercept.  Entry [k] is the [k]-th of
    these narrowed to float16: a value of the 16-bit format (a mantissa of at
    most 11 bits), and, for a finite weight below 65520 in magnitude, a finite
    one within [2^-25 + 2^-11 * |stored|] of the weight. *)
Theorem weights_payload_layout (scale0 : float) (logistic_signal : list float) (out : codec) :
  chaos_codec scale0 logistic_signal = Some out →
  ∃ henon mirror base C1 C2 C3 D1 D2 ws,
    henon_model logistic_signal = Some henon
    ∧ coef_ henon = [C1; C2; C3]
    ∧ reconstructed_base C1 C2 C3 (intercept_ henon) logistic_signal = Some base
    ∧ residual_model logistic_signal (residuals logistic_signal base) = Some mirror
    ∧ coef_ mirror = [D1; D2]
    ∧ ws = weights C1 C2 C3 (intercept_ henon) D1 D2 (intercept_ mirror)
    ∧ length ws = 7%nat
    ∧ c_weights_compressed out = zlib_compress (pickle_weights ws)
    ∧ ∀ k w,
        (coef_ henon ++ [intercept_ henon] ++ coef_ mirror ++ [intercept_ mirror]) !! k
        = Some w →
        ∃ h, ws !! k = Some h
          ∧ h = to_float16 w
          ∧ SpecFloat.valid_binary 11 16 h = true
          ∧ (np_isfinite w = true → (Qabs (value w) < 65520 # 1)%Q →
               narrow_isfinite h = true
               ∧ (Qabs (narrow_value h - value w)
                  <= (1 # 2 ^ 25) + (1 # 2 ^ 11) * Qabs (narrow_value h))%Q).
Proof.
  unfold chaos_codec. intros Hrun.
  destruct (henon_model logistic_signal) as [henon|] eqn:Hhenon; [|done]. cbn in Hrun.
  destruct (unpack3 (coef_ henon)) as [[[C1 C2] C3]|] eqn:Hcoef; [|done]. cbn in Hrun.
  destruct (reconstructed_base C1 C2 C3 (intercept_ henon) logistic_signal)
    as [base|] eqn:Hbase; [|done]. cbn in Hrun.
  destruct (residual_model logistic_signal (residuals logistic_signal base))
    as [mirror|] eqn:Hmirror; [|done]. cbn in Hrun.
  destruct (unpack2 (coef_ mirror)) as [[D1 D2]|] eqn:Hcoef'; [|done]. cbn in Hrun.
  destruct (resid_pred D1 D2 (intercept_ mirror) logistic_signal) as [pred|]; [|done].
  cbn in Hrun. injection Hrun as <-.
  apply unpack3_Some in Hcoef. apply unpack2_Some in Hcoef'.
  exists henon, mirror, base, C1, C2, C3, D1, D2,
    (weights C1 C2 C3 (intercept_ henon) D1 D2 (intercept_ mirror)).
  rewrite Hcoef, Hcoef'. repeat (split; [done|]).
  intros k w Hk. exists (to_float16 w).
  split.
  - unfold weights. rewrite list_lookup_fmap. cbn [app] in Hk. by rewrite Hk.
  - split; [done|]. split; [apply to_float16_valid | apply to_float16_nearest].
Qed.

(** ** The logistic signal stays between 0 and 1 (step 1) *)

(** Four times a double of magnitude at most 1 is exact. *)
Lemma mul4_exact (x : float) :
  np_isfinite x = true → Z.abs (ticks x) ≤ 2 ^ 1074 →
  np_isfinite (4 * x) = true ∧ ticks (4 * x) = 4 * ticks x.
Proof.
  unfold np_isfinite. rewrite !ticks_unfold, mul_spec.
  change (Prim2SF 4) with (S754_finite false 4503599627370496 (-50)).
  pose proof (Prim2SF_valid x) as Hv.
  destruct (Prim2SF x) as [sx|sx| |sx mx ex] eqn:Hx; [done|done|done|].
  intros _ Hmag. cbn [SF64mul SFmul xorb].
  change prec with 53. change emax with 1024.
  pose proof Hv as Hcanon. apply valid_finite_shape in Hv as (He & Hm & Hnormal).
  unfold valid_binary, SpecFloat.valid_binary, bounded, canonical_mantissa in Hcanon.
  apply andb_prop in Hcanon as [Hcanon%Z.eqb_eq _].
  change prec with 53 in Hcanon. change emax with 1024 in Hcanon.
  change (Z.pos (digits2_pos mx)) with (Zdigits2 (Z.pos mx)) in Hcanon.
  assert (0 < 2 ^ (ex + 1074)) as HP by (apply Z.pow_pos_nonneg; lia).
  assert (Z.abs (cond_Zopp sx (Z.pos mx * 2 ^ (ex + 1074))) = Z.pos mx * 2 ^ (ex + 1074))
    as Habs by (destruct sx; cbn [cond_Zopp]; lia).
  rewrite Habs in Hmag.
  assert (ex ≤ 0) as Hex0.
  { destruct (Z.le_gt_cases ex 0) as [|Hbig]; [done|]. exfalso.
    assert (2 * 2 ^ 1074 ≤ 2 ^ (ex + 1074)).
    { change (2 * 2 ^ 1074) with (2 ^ 1075). apply Z.pow_le_mono_r; lia. }
    nia. }
  destruct (Zdigits2_bounds (Z.pos mx) ltac:(lia)) as [[Hdlo Hdhi] Hd].
  set (dx := Zdigits2 (Z.pos mx)) in *.
  assert (dx ≤ 53) as Hdx by (apply (Zdigits2_le (Z.pos mx) 53); lia).
  assert (Zdigits2 (Z.pos (4503599627370496 * mx)) = dx + 52) as Hdig.
  { apply Zdigits2_eq; [|lia]. rewrite Pos2Z.inj_mul.
    change (Z.pos 4503599627370496) with (2 ^ 52).
    replace (dx + 52 - 1) with (52 + (dx - 1)) by lia.
    replace (dx + 52) with (52 + dx) by lia.
    rewrite !Z.pow_add_r by lia. nia. }
  pose proof (binary_round_aux_representable 53 1024 ltac:(lia) sx (4503599627370496 * mx)
                (-50 + ex) 1124) as Hrep.
  cbv zeta in Hrep. rewrite Hdig in Hrep.
  set (N := fexp 53 1024 (dx + 52 + (-50 + ex)) - (-50 + ex)) in *.
  assert (50 ≤ N ≤ 52) as HN by (unfold N, fexp, SpecFloat.emin in *; lia).
  destruct Hrep as (m & -> & Hval); [lia| |unfold N, fexp, SpecFloat.emin in *; lia|lia|].
  { rewrite Pos2Z.inj_mul.
    assert (Z.pos 4503599627370496 = 2 ^ (52 - N) * 2 ^ N) as ->.
    { rewrite <- Z.pow_add_r by lia. replace (52 - N + N) with 52 by lia. reflexivity. }
    rewrite <- Z.mul_assoc, (Z.mul_comm (2 ^ N)), Z.mul_assoc. apply Z.mod_mul.
    apply Z.pow_nonzero; lia. }
  split; [done|].
  assert (-1074 ≤ -50 + ex + N) as Hres by (unfold N, fexp, SpecFloat.emin; lia).
  assert (Z.pos m * 2 ^ (-50 + ex + N + 1074) = 4 * (Z.pos mx * 2 ^ (ex + 1074))) as Hfour.
  { apply (Z.mul_reg_r _ _ (2 ^ 50)); [apply Z.pow_nonzero; lia|].
    rewrite <- Z.mul_assoc, <- Z.pow_add_r by lia.
    replace (-50 + ex + N + 1074 + 50) with (-50 + ex + N + 1124) by lia.
    rewrite Hval, Pos2Z.inj_mul. replace (-50 + ex + 1124) with (ex + 1074) by lia.
    change (Z.pos 4503599627370496) with (4 * 2 ^ 50). ring. }
  destruct sx; cbn [cond_Zopp]; lia.
Qed.

(** A finite double [x] within half a unit of its last place of [V / D], with
    [0 <= V / D] below the middle of [2^b] and the next double: [x] is between
    0 and [2^b] (all in units of [2^-1074]; rounding does not cross a power
    of two). *)
Lemma rounded_within (x : float) (s : bool) (m : positive) (e D V b : Z) :
  Prim2SF x = S754_finite s m e → 0 < D → 53 ≤ b →
  2 * Z.abs (ticks x * D - V) ≤ 2 ^ (e + 1074) * D →
  0 ≤ V → 2 * V < (2 * 2 ^ b + 2 ^ (b - 52)) * D →
  0 ≤ ticks x ≤ 2 ^ b.
Proof.
  intros Hx HD Hb Herr HV0 HV. pose proof (Prim2SF_valid x) as Hv. rewrite Hx in Hv.
  apply valid_finite_shape in Hv as (He & Hm & Hnormal).
  rewrite ticks_unfold, Hx in *.
  assert (0 < 2 ^ (e + 1074)) as HP by (apply Z.pow_pos_nonneg; lia).
  set (P := 2 ^ (e + 1074)) in *.
  assert (0 < P * D) as HPD by (apply Z.mul_pos_pos; lia).
  destruct s; cbn [cond_Zopp] in *.
  { exfalso. assert (P * D ≤ Z.pos m * P * D) as Hge.
    { rewrite <- Z.mul_assoc. rewrite <- (Z.mul_1_l (P * D)) at 1.
      apply Z.mul_le_mono_nonneg_r; lia. }
    set (T := Z.pos m * P * D) in *. set (PD := P * D) in *.
    replace (- (Z.pos m * P) * D) with (- T) in Herr by (unfold T; ring).
    clearbody T PD. lia. }
  split; [lia|].
  destruct (Z.le_gt_cases (Z.pos m * P) (2 ^ b)) as [|Hover]; [done|]. exfalso.
  assert (0 < 2 ^ (b - 52)) as HQ by (apply Z.pow_pos_nonneg; lia).
  assert (2 ^ b = 2 ^ 52 * 2 ^ (b - 52)) as Hsplit.
  { rewrite <- Z.pow_add_r by lia. f_equal. lia. }
  assert (2 ^ 53 = 2 * 2 ^ 52) as H53 by reflexivity.
  assert (0 < 2 ^ 52) as H52 by reflexivity.
  (* the last place of [x] is [2^(b-52)] *)
  assert (2 ^ (b - 52) ≤ P) as HPlo.
  { apply Z.pow_le_mono_r; [lia|].
    destruct (Z.le_gt_cases (b - 52) (e + 1074)) as [|Hsmall]; [done|]. exfalso.
    assert (2 * P ≤ 2 ^ (b - 52)) as Hp.
    { unfold P. rewrite <- Z.pow_succ_r by lia. apply Z.pow_le_mono_r; lia. }
    set (Q := 2 ^ (b - 52)) in *. set (A := 2 ^ 52) in *. set (B := 2 ^ 53) in *.
    clearbody P Q A B. nia. }
  assert (-1074 < e) as He1.
  { destruct (decide (e = -1074)) as [Heq|]; [|lia]. exfalso.
    assert (2 ^ 1 ≤ 2 ^ (b - 52)) by (apply Z.pow_le_mono_r; lia).
    unfold P in HPlo. rewrite Heq in HPlo. change (2 ^ (-1074 + 1074)) with 1 in HPlo.
    change (2 ^ 1) with 2 in *. lia. }
  specialize (Hnormal He1).
  change (2 ^ 52) with 4503599627370496 in *.
  assert (4503599627370496 * (P * D) ≤ Z.pos m * P * D) as Hge.
  { rewrite <- (Z.mul_assoc (Z.pos m)). apply Z.mul_le_mono_nonneg_r; lia. }
  assert (P ≤ 2 ^ (b - 52)) as HPhi.
  { apply Z.pow_le_mono_r; [lia|].
    destruct (Z.le_gt_cases (e + 1074) (b - 52)) as [|Hbig]; [done|]. exfalso.
    assert (2 * 2 ^ (b - 52) ≤ P) as Hp.
    { rewrite <- Z.pow_succ_r by lia. apply Z.pow_le_mono_r; lia. }
    assert (2 * 2 ^ (b - 52) * D ≤ P * D) as HpD by (apply Z.mul_le_mono_nonneg_r; lia).
    rewrite Hsplit in HV.
    set (Q := 2 ^ (b - 52)) in *.
    replace ((2 * (4503599627370496 * Q) + Q) * D) with (9007199254740993 * (Q * D)) in HV
      by ring.
    replace (2 * Q * D) with (2 * (Q * D)) in HpD by ring.
    set (T := Z.pos m * P * D) in *. set (PD := P * D) in *. set (QD := Q * D) in *.
    clearbody T PD QD. lia. }
  assert (P = 2 ^ (b - 52)) as HPeq by lia.
  rewrite Hsplit, <- HPeq in Hover, HV.
  assert (4503599627370496 + 1 ≤ Z.pos m) as Hm1 by nia.
  assert ((4503599627370496 + 1) * (P * D) ≤ Z.pos m * P * D) as Hge'.
  { rewrite <- (Z.mul_assoc (Z.pos m)). apply Z.mul_le_mono_nonneg_r; lia. }
  replace ((2 * (4503599627370496 * P) + P) * D) with (9007199254740993 * (P * D)) in HV
    by ring.
  set (T := Z.pos m * P * D) in *. set (PD := P * D) in *.
  clearbody T PD. lia.
Qed.

(** [1 - x] for [0 <= x <= 1]: between 0 and 1 again, and close enough to the
    exact difference for [4 x (1 - x)] to stay below the middle of 1 and the
    next double ([U] is [2^1074], the value 1 in units of [2^-1074]). *)
Lemma one_minus (x : float) :
  np_isfinite x = true → 0 ≤ ticks x ≤ 2 ^ 1074 →
  np_isfinite (1 - x) = true
  ∧ 0 ≤ ticks (1 - x) ≤ 2 ^ 1074
  ∧ 2 * (4 * ticks x * ticks (1 - x)) < (2 * 2 ^ 1074 + 2 ^ 1022) * 2 ^ 1074.
Proof.
  intros Hfin Hx. pose proof (sub_error 1 x eq_refl Hfin) as Hsub.
  change (ticks 1) with (2 ^ 1074) in Hsub.
  assert (0 < 2 ^ 1074) as HU by (apply Z.pow_pos_nonneg; lia).
  assert (2 ^ 1074 = 9007199254740992 * 2 ^ 1021) as HU53 by reflexivity.
  assert (2 ^ 1022 = 2 * 2 ^ 1021) as H1022 by reflexivity.
  assert (0 < 2 ^ 1021) as HW by (apply Z.pow_pos_nonneg; lia).
  assert (4 * ticks x * (2 ^ 1074 - ticks x) ≤ 2 ^ 1074 * 2 ^ 1074) as Hparabola.
  { pose proof (Z.square_nonneg (2 ^ 1074 - 2 * ticks x)) as Hsq.
    set (U := 2 ^ 1074) in *. set (T := ticks x) in *. clearbody U T.
    clear - Hsq. nia. }
  unfold np_isfinite at 1.
  destruct (Prim2SF (1 - x)) as [sy|sy| |sy my ey] eqn:Hy.
  - rewrite (ticks_unfold (1 - x)), Hy, Z.mul_0_r. split; [done|]. split; [lia|].
    apply Z.mul_pos_pos; lia.
  - exfalso. assert (2 ^ 1074 < 2 ^ 2097) by (apply Z.pow_lt_mono_r; lia). lia.
  - done.
  - split; [done|].
    pose proof (rounded_within (1 - x) sy my ey 1 (2 ^ 1074 - ticks x) 1074 Hy
                  ltac:(lia) ltac:(lia)) as Hrange.
    rewrite !Z.mul_1_r in Hrange. change (2 ^ (1074 - 52)) with (2 ^ 1022) in Hrange.
    specialize (Hrange Hsub ltac:(lia) ltac:(lia)).
    split; [done|].
    set (y := (1 - x)%float) in *.
    destruct (Z.le_gt_cases (ticks x) (2 ^ 1021)) as [Htiny|Hbig].
    { assert (ticks x * ticks y ≤ 2 ^ 1021 * 2 ^ 1074) as Hprod
        by (apply Z.mul_le_mono_nonneg; lia).
      set (U := 2 ^ 1074) in *. set (W := 2 ^ 1021) in *.
      rewrite <- Z.mul_assoc. set (xy := ticks x * ticks y) in *.
      rewrite H1022. clearbody xy. rewrite HU53 in Hprod |- *. clearbody W. nia. }
    assert (2 ^ (ey + 1074) ≤ 2 ^ 1021) as Hulp.
    { apply (ulp_of_rounded y sy my ey 1021 (2 ^ 1074 - ticks x) Hy); [lia|done|].
      change (2 ^ (1021 + 53)) with (2 ^ 1074). lia. }
    destruct (Z.lt_ge_cases (2 * ticks x) (2 ^ 1074)) as [Hlow|Hhigh].
    + (* below one half: the error of the difference is small enough *)
      set (d := ticks y - (2 ^ 1074 - ticks x)) in *.
      assert (ticks y = 2 ^ 1074 - ticks x + d) as Hyd by (unfold d; lia).
      assert (2 * d ≤ 2 ^ 1021) as Hd by lia.
      assert (ticks x * (2 * d) ≤ ticks x * 2 ^ 1021) as Hxd
        by (apply Z.mul_le_mono_nonneg_l; lia).
      rewrite Hyd.
      replace (2 * (4 * ticks x * (2 ^ 1074 - ticks x + d)))
        with (2 * (4 * ticks x * (2 ^ 1074 - ticks x)) + 4 * (ticks x * (2 * d))) by ring.
      rewrite H1022.
      replace ((2 * 2 ^ 1074 + 2 * 2 ^ 1021) * 2 ^ 1074)
        with (2 * (2 ^ 1074 * 2 ^ 1074) + 2 * 2 ^ 1074 * 2 ^ 1021) by ring.
      assert (4 * (ticks x * 2 ^ 1021) < 2 * 2 ^ 1074 * 2 ^ 1021) as Hstrict.
      { rewrite Z.mul_assoc. apply Z.mul_lt_mono_pos_r; lia. }
      set (UU := 2 ^ 1074 * 2 ^ 1074) in *.
      set (p := 4 * ticks x * (2 ^ 1074 - ticks x)) in *.
      set (xd := ticks x * (2 * d)) in *. set (xw := ticks x * 2 ^ 1021) in *.
      set (uw := 2 * 2 ^ 1074 * 2 ^ 1021) in *.
      clearbody UU p xd xw uw. lia.
    + (* from one half on: the difference is exact *)
      assert (ticks y = 2 ^ 1074 - ticks x) as Hexact; [|rewrite Hexact; lia].
      pose proof (Prim2SF_valid x) as Hvx.
      rewrite (ticks_unfold x) in Hx, Hhigh, Hbig, Hsub |- *.
      destruct (Prim2SF x) as [sx|sx| |sx mx ex]; [lia|lia|lia|].
      apply valid_finite_shape in Hvx as (Hex & Hmx & _).
      assert (0 < 2 ^ (ex + 1074)) as HPx by (apply Z.pow_pos_nonneg; lia).
      destruct sx; cbn [cond_Zopp] in *; [lia|].
      assert (1021 ≤ ex + 1074) as Hex'.
      { destruct (Z.le_gt_cases 1021 (ex + 1074)) as [|Hsmall]; [done|]. exfalso.
        assert (2 ^ (ex + 1074) ≤ 2 ^ 1020) as Hp by (apply Z.pow_le_mono_r; lia).
        change (2 ^ 53) with 9007199254740992 in Hmx.
        assert (2 ^ 1021 = 2 * 2 ^ 1020) as H1021 by reflexivity.
        assert (0 < 2 ^ 1020) by (apply Z.pow_pos_nonneg; lia).
        rewrite HU53, H1021 in Hhigh.
        set (V := 2 ^ 1020) in *. set (P := 2 ^ (ex + 1074)) in *.
        clearbody V P. clear - Hhigh Hmx Hp HPx H. nia. }
      pose proof (Prim2SF_valid y) as Hvy. rewrite Hy in Hvy.
      apply valid_finite_shape in Hvy as (Hey & _ & _).
      rewrite (ticks_unfold y), Hy in Hsub, Hrange |- *.
      assert (0 < 2 ^ (ey + 1074)) as HG by (apply Z.pow_pos_nonneg; lia).
      assert (ey + 1074 ≤ 1021) as Hey'.
      { apply (Z.pow_le_mono_r_iff 2); lia. }
      destruct sy; cbn [cond_Zopp] in *; [lia|].
      set (g := ey + 1074) in *.
      assert (2 ^ 1074 = 2 ^ (1074 - g) * 2 ^ g) as HUg.
      { rewrite <- Z.pow_add_r by lia. f_equal. lia. }
      assert (2 ^ (ex + 1074) = 2 ^ (ex + 1074 - g) * 2 ^ g) as HPg.
      { rewrite <- Z.pow_add_r by lia. f_equal. lia. }
      rewrite HUg, HPg in Hsub |- *.
      set (G := 2 ^ g) in *. set (a := 2 ^ (1074 - g)) in *.
      set (c := 2 ^ (ex + 1074 - g)) in *.
      replace (Z.pos my * G - (a * G - Z.pos mx * (c * G)))
        with ((Z.pos my - (a - Z.pos mx * c)) * G) in Hsub by ring.
      rewrite Z.abs_mul, (Z.abs_eq G) in Hsub by lia.
      assert (Z.pos my = a - Z.pos mx * c) as -> by (clearbody G a c; clear - Hsub HG; nia).
      ring.
Qed.

(** One step of the logistic map with [r = 4] keeps a finite sample between 0
    and 1. *)
Lemma logistic_step_bounded (x : float) :
  np_isfinite x = true → 0 ≤ ticks x ≤ 2 ^ 1074 →
  np_isfinite (4 * x * (1 - x)) = true
  ∧ 0 ≤ ticks (4 * x * (1 - x)) ≤ 2 ^ 1074.
Proof.
  intros Hfin Hx.
  destruct (mul4_exact x Hfin ltac:(lia)) as [Hfa Ha].
  destruct (one_minus x Hfin Hx) as (Hfy & Hy & Hprod).
  pose proof (mul_error (4 * x) (1 - x) Hfa Hfy) as Hmul.
  rewrite Ha in Hmul.
  assert (0 < 2 ^ 1074) as HU by (apply Z.pow_pos_nonneg; lia).
  assert (0 ≤ 4 * ticks x * ticks (1 - x)) as Hnonneg
    by (apply Z.mul_nonneg_nonneg; lia).
  unfold np_isfinite.
  destruct (Prim2SF (4 * x * (1 - x))) as [s|s| |s m e] eqn:Hf.
  - rewrite (ticks_unfold (4 * x * (1 - x))), Hf. lia.
  - exfalso. assert (4 * (2 ^ 1074 * 2 ^ 1074) < 2 ^ 3171) as Hbig by reflexivity.
    assert (4 * ticks x * ticks (1 - x) ≤ 4 * 2 ^ 1074 * 2 ^ 1074) as Hle
      by (apply Z.mul_le_mono_nonneg; lia).
    lia.
  - done.
  - split; [done|].
    apply (rounded_within _ s m e (2 ^ 1074) (4 * ticks x * ticks (1 - x)) 1074 Hf);
      [lia|lia|done|done|done].
Qed.

Lemma logistic_loop_bounded (n : nat) : ∀ acc x : list float,
  Forall (λ v, np_isfinite v = true ∧ 0 ≤ ticks v ≤ 2 ^ 1074) acc →
  logistic_loop 4 n acc = Some x →
  Forall (λ v, np_isfinite v = true ∧ 0 ≤ ticks v ≤ 2 ^ 1074) x.
Proof.
  induction n as [|n IH]; intros acc x Hacc Hrun.
  - cbn in Hrun. by simplify_eq.
  - cbn [logistic_loop] in Hrun.
    destruct (from_end acc 1) as [last|] eqn:Hlast; [|done]. cbn in Hrun.
    apply (IH _ _) in Hrun; [done|].
    apply Forall_app. split; [done|]. apply Forall_singleton.
    unfold from_end in Hlast. case_decide; [|done].
    apply (Forall_lookup_1 _ _ _ _ Hacc) in Hlast as [Hfin Hrange].
    by apply logistic_step_bounded.
Qed.

(** With [r = 4.0], as the notebook calls it, the logistic map started at a
    finite [x0] between 0 and 1 returns [max 1 n] samples that are all finite
    and between 0 and 1: rounding never takes an iterate out of the unit
    interval, so the signal never escapes to infinity or NaN. *)
Theorem logistic_map_bounded (x0 : float) (n : nat) :
  np_isfinite x0 = true → (0 <= value x0)%Q → (value x0 <= 1)%Q →
  ∃ x, logistic_map 4 x0 n = Some x
    ∧ length x = Nat.max 1 n
    ∧ ∀ i xi, x !! i = Some xi →
        np_isfinite xi = true ∧ (0 <= value xi)%Q ∧ (value xi <= 1)%Q.
Proof.
  intros Hfin Hlo Hhi.
  assert (Z.pos (2 ^ 1074) = 2 ^ 1074) as HU by (by rewrite Pos2Z.inj_pow).
  unfold value, Qle in Hlo, Hhi |- *. cbn [Qnum Qden] in Hlo, Hhi.
  rewrite HU in Hhi. rewrite Z.mul_1_r in Hlo.
  unfold logistic_map.
  destruct (logistic_loop_spec 4 (n - 1) [x0]) as (x & Hrun & Hlen & _); [cbn; lia|].
  exists x. split; [done|]. split; [cbn [length] in Hlen; lia|].
  intros i xi Hxi.
  apply logistic_loop_bounded in Hrun.
  - apply (Forall_lookup_1 _ _ _ _ Hrun) in Hxi as [Hf Hr].
    split; [done|]. unfold Qle. cbn [Qnum Qden]. rewrite HU. lia.
  - apply Forall_singleton. split; [done|]. lia.
Qed.

End ChaosCodec.

(** ** Runs on the sample signals *)

(** The training rows of the mirror model on the ramp 1, 2, 3, 4. *)
Lemma mirror_training_rows_on_ramp4 :
  (3 ≤ length ramp4)%nat
  ∧ length ramp4 = length ramp4
  ∧ rows (X_mirror ramp4) = mirrored (rows (forward_rows ramp4))
  ∧ ∃ r, rows (X_mirror ramp4) !! 0%nat = Some [2%float; 3%float] ∧ y_resid ramp4 !! 0%nat = Some r.
Proof.
  assert (3 ≤ length ramp4)%nat as HN by (cbn; lia).
  destruct (mirror_training_rows ramp4 ramp4 HN eq_refl) as (Hrows & _ & _ & Hat).
  split; [done|]. split; [done|]. split; [done|].
  destruct (Hat 0%nat) as (a & b & r & Ha & Hb & _ & Hrow & Hy); [cbn; lia|].
  exists r. cbn in Ha, Hb. apply (inj Some) in Ha, Hb. subst a b. done.
Defined.

(** C1 as stated fails on the ramp 1, 2, 3, 4: the first training row is the
    last pair [2, 3], not the first pair [1, 2]. *)
Lemma X_mirror_rows_are_not_forward :
  rows (X_mirror ramp4) !! 0%nat = Some [2%float; 3%float]
  ∧ rows (forward_rows ramp4) !! 0%nat = Some [1%float; 2%float]
  ∧ rows (X_mirror ramp4) ≠ rows (forward_rows ramp4).
Proof.
  split; [reflexivity|]. split; [reflexivity|].
  intros Heq. apply (f_equal (λ m, m !! 0%nat ≫= (.!! 0%nat))) in Heq.
  cbn in Heq. apply (inj Some) in Heq.
  apply (f_equal Prim2SF) in Heq. vm_compute in Heq. discriminate.
Qed.

Lemma reconstructed_base_on_ramp4 :
  (3 ≤ length ramp4)%nat
  ∧ ∃ out, reconstructed_base square 0.5 0.25 0.125 0.25 ramp4 = Some out
      ∧ length out = length ramp4.
Proof.
  assert (3 ≤ length ramp4)%nat as HN by (cbn; lia).
  destruct (reconstructed_base_autoregressive square 0.5 0.25 0.125 0.25 ramp4 HN)
    as (out & Hrun & Hlen & _).
  split; [done|]. by exists out.
Defined.

(** On the ramp 1, 2, 3, 4 with weights 0.5, 0.25 and 0.125 the loop leaves
    [0.5*4 + 0.25*3 + 0.125] and [0.5*3 + 0.25*2 + 0.125], and the result is
    0, 0, 2.125, 2.875. *)
Lemma resid_pred_on_ramp4 :
  (3 ≤ length ramp4)%nat
  ∧ raw_resid_pred 0.5 0.25 0.125 ramp4 = Some [2.875%float; 2.125%float]
  ∧ resid_pred 0.5 0.25 0.125 ramp4 = Some [0%float; 0%float; 2.125%float; 2.875%float]
  ∧ ∃ out, resid_pred 0.5 0.25 0.125 ramp4 = Some out
      ∧ out !! 0%nat = Some 0%float ∧ out !! 1%nat = Some 0%float
      ∧ out !! 3%nat = Some (0.5 * 4 + 0.25 * 3 + 0.125)%float.
Proof.
  assert (3 ≤ length ramp4)%nat as HN by (cbn; lia).
  destruct (resid_pred_from_mirrored_signal validating_fit square 0 raw_residuals raw_weights
              stored 0.5 0.25 0.125 ramp4 HN)
    as [(raw & out & _ & Hrun & _ & Hat & _ & _ & H0 & H1) _].
  split; [done|]. split; [reflexivity|]. split; [reflexivity|].
  exists out. split; [done|]. split; [done|]. split; [done|].
  destruct (Hat 0%nat) as (m1 & m2 & Hm1 & Hm2 & _ & _ & _ & Hout); [cbn; lia|].
  cbn in Hm1, Hm2. apply (inj Some) in Hm1, Hm2. subst m1 m2. exact Hout.
Defined.

Lemma resid_pred_forward_on_ramp4 :
  (3 ≤ length ramp4)%nat
  ∧ ∃ out, resid_pred 0.5 0.25 0.125 ramp4 = Some out
      ∧ out !! 3%nat = Some (0.5 * 4 + 0.25 * 3 + 0.125)%float.
Proof.
  assert (3 ≤ length ramp4)%nat as HN by (cbn; lia).
  destruct (resid_pred_forward_formula 0.5 0.25 0.125 ramp4 HN) as (out & Hrun & Hat).
  split; [done|]. exists out. split; [done|].
  destruct (Hat 3%nat) as (xi & xp & Hi & Hp & Hout); [cbn; lia|].
  cbn in Hi, Hp. apply (inj Some) in Hi, Hp. subst xi xp. done.
Defined.

(** At the notebook's scale the deltas 4, -4 and 0.25 are stored as 32767,
    -32768 and 2500. *)
Lemma quantize_clips_at_scale :
  (32767.5 <=? 4 * scale)%float = true
  ∧ (-4 * scale <=? -32768.5)%float = true
  ∧ np_round (0.25 * scale) = Iint 2500
  ∧ delta_q 0 scale [4%float; (-4)%float; 0.25%float] !! 0%nat = Some 32767
  ∧ delta_q 0 scale [4%float; (-4)%float; 0.25%float] !! 1%nat = Some (-32768)
  ∧ delta_q 0 scale [4%float; (-4)%float; 0.25%float] !! 2%nat = Some 2500.
Proof.
  destruct (quantize_clamps validating_fit square 0 raw_residuals raw_weights stored scale
              [4%float; (-4)%float; 0.25%float]) as (_ & Hat & _).
  split; [reflexivity|]. split; [reflexivity|]. split; [reflexivity|].
  split; [|split].
  - destruct (Hat 0%nat 4%float eq_refl) as (q & Hq & _ & _ & _ & Hup & _).
    by rewrite Hq, (Hup eq_refl).
  - destruct (Hat 1%nat (-4)%float eq_refl) as (q & Hq & _ & _ & _ & _ & Hdown).
    by rewrite Hq, (Hdown eq_refl).
  - destruct (Hat 2%nat 0.25%float eq_refl) as (q & Hq & _ & Hclamp & _).
    by rewrite Hq, (Hclamp 2500 eq_refl).
Defined.

Lemma validating_fit_validates : validates validating_fit.
Proof.
  intros X0 y0 Hbad. unfold validating_fit.
  destruct (rows X0) as [|row0 rest] eqn:Hrows; [done|].
  destruct Hbad as [|(x & Hin & Hx)]; [done|].
  destruct (forallb (forallb np_isfinite) (row0 :: rest) && forallb np_isfinite y0)
    eqn:Hall; [|done].
  apply andb_prop in Hall as [HX Hy].
  rewrite forallb_forall in HX, Hy.
  destruct Hin as [(row & Hrow & Hxrow)|Hxy].
  - apply list_elem_of_In in Hrow, Hxrow. rewrite Hrows in Hrow. specialize (HX row Hrow).
    rewrite forallb_forall in HX. rewrite (HX x Hxrow) in Hx. done.
  - apply list_elem_of_In in Hxy. rewrite (Hy x Hxy) in Hx. done.
Qed.


(** A run on the ramp 1, 2, 3, 4: the payload holds seven float16 values. *)
Lemma weights_payload_on_ramp4 :
  ∃ out ws,
    notebook validating_fit square 0 raw_residuals raw_weights stored ramp4 = Some out
    ∧ length ws = 7%nat
    ∧ Forall (λ h, SpecFloat.valid_binary 11 16 h = true) ws
    ∧ c_weights_compressed out = stored (raw_weights ws).
Proof.
  destruct (notebook validating_fit square 0 raw_residuals raw_weights stored ramp4)
    as [out|] eqn:Hrun; [|vm_compute in Hrun; discriminate].
  destruct (weights_payload_layout validating_fit square 0 raw_residuals raw_weights stored
              scale ramp4 out Hrun)
    as (henon & mirror & base & C1 & C2 & C3 & D1 & D2 & ws
        & _ & Hc & _ & _ & Hc' & _ & Hlen & Hpay & Hat).
  exists out, ws. split; [done|]. split; [exact Hlen|]. split; [|exact Hpay].
  apply Forall_lookup. intros k h Hk.
  assert (k < 7)%nat as Hlt by (rewrite <- Hlen; by eapply lookup_lt_Some).
  destruct (lookup_lt_is_Some_2
              (coef_ henon ++ [intercept_ henon] ++ coef_ mirror ++ [intercept_ mirror]) k)
    as [w Hw]; [rewrite Hc, Hc'; cbn; lia|].
  destruct (Hat k w Hw) as (h' & Hh' & _ & Hvalid & _).
  rewrite Hk in Hh'. by injection Hh' as <-.
Defined.

Lemma seeds_exact_on_ramp4 :
  (3 ≤ length ramp4)%nat
  ∧ Forall (λ x, np_isfinite x = true) ramp4
  ∧ ∃ out,
      notebook permissive_fit square 0 raw_residuals raw_weights stored ramp4 = Some out
      ∧ exact_at_seed ramp4 (c_hybrid out) (c_final out) (c_delta_q out) 0
      ∧ exact_at_seed ramp4 (c_hybrid out) (c_final out) (c_delta_q out) 1.
Proof.
  assert (3 ≤ length ramp4)%nat as HN by (cbn; lia).
  assert (Forall (λ x, np_isfinite x = true) ramp4) as Hfin by (repeat constructor).
  split; [done|]. split; [done|].
  destruct (notebook permissive_fit square 0 raw_residuals raw_weights stored ramp4)
    as [out|] eqn:Hrun; [|vm_compute in Hrun; discriminate].
  exists out. split; [done|].
  exact (proj2 (seeds_reconstructed_exactly permissive_fit square 0 raw_residuals raw_weights
                  stored 0.5 0.25 0.125 0.25 0.5 0.25 0.125 ramp4 HN Hfin) out Hrun).
Defined.

(** A delta of 3 at the notebook's scale is stored as 30000 and comes back
    within the bound. *)
Lemma round_trip_of_three :
  unclipped scale 3
  ∧ (Qabs (value (round_trip 0 scale 3) - value 3) <= (1 # 20000) + (1 # 4194304))%Q.
Proof.
  assert (unclipped scale 3) as H by (exists 30000; split; [reflexivity | lia]).
  split; [done|]. apply (round_trip_at_notebook_scale 0 3 H).
Defined.

(** A delta of 12345.5 at the scale 0.1, which float32 does not hold
    exactly, is stored as 1235 and comes back within the bound. *)
Lemma round_trip_at_a_tenth :
  unclipped 0x1.999999999999ap-4 12345.5
  ∧ (Qabs (value (round_trip 0 0x1.999999999999ap-4 12345.5) - value 12345.5)
     * value 0x1.999999999999ap-4 <= (1 # 2) + (1 # 128))%Q.
Proof.
  assert (unclipped 0x1.999999999999ap-4 12345.5) as H
    by (exists 1235; split; [reflexivity | lia]).
  split; [done|].
  apply (quantization_round_trip 0 0x1.999999999999ap-4 12345.5); [| |done].
  - vm_compute. discriminate.
  - vm_compute. discriminate.
Defined.

(** C5 as stated fails for a positive scale below the float32 range: with
    [S = 2^-200] and [delta = 2^200] the product is 1 and is stored as 1, but
    float32 takes [S] to 0 and the dequantized value is infinite. *)
Lemma round_trip_infinite_at_tiny_scale :
  (0 <? 0x1p-200)%float = true
  ∧ np_isfinite 0x1p200 = true
  ∧ unclipped 0x1p-200 0x1p200
  ∧ quantize 0 0x1p-200 0x1p200 = 1
  ∧ to_float32 0x1p-200 = S754_zero false
  ∧ round_trip 0 0x1p-200 0x1p200 = infinity.
Proof.
  split; [reflexivity|]. split; [reflexivity|].
  split; [exists 1; split; [reflexivity | lia]|].
  split; [reflexivity|]. split; reflexivity.
Qed.

Lemma mirror_pairs_on_ramp4 :
  ∃ pred,
    rows (X_mirror ramp4) !! 0%nat = Some [2%float; 3%float]
    ∧ y_resid ramp4 !! 0%nat = Some 4%float
    ∧ resid_pred 0.5 0.25 0.125 ramp4 = Some pred
    ∧ pred !! 3%nat = Some (0.5 * 4 + 0.25 * 3 + 0.125)%float.
Proof.
  assert (2 ≤ 3 < length ramp4)%nat as Hj by (cbn; lia).
  destruct (mirror_fitted_and_applied_on_different_pairs 0.5 0.25 0.125 ramp4 ramp4 3
              eq_refl Hj)
    as (a & b & c & r & pred & Ha & Hb & Hc & Hr & Hrow & Hy & Hpred & Hat).
  cbn in Ha, Hb, Hc, Hr. apply (inj Some) in Ha, Hb, Hc, Hr. subst a b c r.
  by exists pred.
Defined.

(** With the regression that validates its input, the cell returns on the
    ramp 1, 2, 3, 4. *)
Lemma chaos_codec_returns_on_ramp4 :
  validates validating_fit
  ∧ ∃ out,
      notebook validating_fit square 0 raw_residuals raw_weights stored ramp4 = Some out
      ∧ length (c_final out) = 4%nat.
Proof.
  split; [apply validating_fit_validates|].
  destruct (chaos_codec_returns validating_fit square 0 raw_residuals raw_weights stored
              scale ramp4 (LinearModel [0.5%float; 0.5%float; 0.5%float] 0.25%float)
              0.5%float 0.5%float 0.5%float)
    as (out & Hrun & _ & _ & _ & _ & Hlen).
  - cbn. lia.
  - reflexivity.
  - reflexivity.
  - intros base Hbase. vm_compute in Hbase. injection Hbase as <-.
    eexists. split; reflexivity.
  - by exists out.
Defined.

(** Row 1 of the base training set on the ramp 1, 2, 3, 4 is [2, 3, 9] with
    target 4. *)
Lemma henon_training_rows_on_ramp4 :
  rows (X ramp4) !! 1%nat = Some [2%float; 3%float; 9%float]
  ∧ y ramp4 !! 1%nat = Some 4%float.
Proof.
  destruct (henon_training_rows ramp4) as (_ & _ & _ & Hrows).
  destruct (Hrows 1%nat ltac:(cbn; lia)) as (a & b & c & Ha & Hb & Hc & Hrow & Hy).
  cbn in Ha, Hb, Hc. apply (inj Some) in Ha, Hb, Hc. subst a b c.
  split; [exact Hrow | exact Hy].
Defined.

(** The stored integer 12345 decodes to the float32 nearest 1.2345 and encodes
    to 12345 again. *)
Lemma quantize_dequantized_12345 :
  quantize 0 scale (float32_to_float64 (dequantize scale 12345)) = 12345.
Proof. apply (quantize_dequantized 0 12345). lia. Defined.

(** On the signal 0.5, 0.25, 0.75, 0.5 with the stand-in regression, sample 2
    is stored as -5078 and comes back within the bound. *)
Lemma final_within_half_step_on_unit4 :
  ∃ out f,
    notebook permissive_fit square 0 raw_residuals raw_weights stored unit4 = Some out
    ∧ c_delta_q out !! 2%nat = Some (-5078)
    ∧ c_final out !! 2%nat = Some f
    ∧ (Qabs (value f - value 0.75) <= (1 # 20000) + (1 # 2097152))%Q.
Proof.
  destruct (notebook permissive_fit square 0 raw_residuals raw_weights stored unit4)
    as [out|] eqn:Hrun; [|vm_compute in Hrun; discriminate].
  pose proof Hrun as Hout. vm_compute in Hout. injection Hout as <-.
  edestruct (final_within_half_step permissive_fit square 0 raw_residuals raw_weights stored
               unit4 _ 2%nat 0.75%float 1.2578125%float (-5078) Hrun)
    as (f & Hf & _ & Hbound);
    [reflexivity | reflexivity | reflexivity | reflexivity
    | vm_compute; discriminate | reflexivity | split; reflexivity |].
  eexists _, f. split; [reflexivity|]. split; [reflexivity|]. split; [exact Hf | exact Hbound].
Defined.

(** The weight 0.1 is stored as a finite float16 within the bound, 70000 as an
    infinity and [2^-30] as a zero. *)
Lemma weight_as_float16_three_regimes :
  (narrow_isfinite (to_float16 0x1.999999999999ap-4) = true
   ∧ (Qabs (narrow_value (to_float16 0x1.999999999999ap-4) - value 0x1.999999999999ap-4)
      <= (1 # 2 ^ 25)
         + (1 # 2 ^ 11) * Qabs (narrow_value (to_float16 0x1.999999999999ap-4)))%Q)
  ∧ (∃ s, to_float16 70000 = S754_infinity s)
  ∧ (∃ s, to_float16 0x1p-30 = S754_zero s).
Proof.
  split; [|split].
  - destruct (weight_as_float16 0x1.999999999999ap-4 eq_refl) as (Hin & _ & _).
    apply Hin. vm_compute. reflexivity.
  - destruct (weight_as_float16 70000 eq_refl) as (_ & Hover & _).
    apply Hover. vm_compute. reflexivity.
  - destruct (weight_as_float16 0x1p-30 eq_refl) as (_ & _ & Hunder).
    apply Hunder. vm_compute. reflexivity.
Defined.

(** Started at the notebook's own [x0 = 0.6], five samples of the logistic map
    are finite and between 0 and 1. *)
Lemma logistic_map_bounded_from_0_6 :
  ∃ x, logistic_map 4 0x1.3333333333333p-1 5 = Some x
    ∧ length x = 5%nat
    ∧ ∀ i xi, x !! i = Some xi →
        np_isfinite xi = true ∧ (0 <= value xi)%Q ∧ (value xi <= 1)%Q.
Proof.
  apply (logistic_map_bounded 0x1.3333333333333p-1 5);
    [reflexivity | vm_compute; discriminate | vm_compute; discriminate].
Defined.
